(** * Primordia SDK: canonical JSON, netting, default resolution, balance
      sheets and metering aggregation.

    A shallow embedding of the Python SDK ([sdk-py/primordia_sdk]) together
    with the properties stated about it.

    Conventions of the embedding.
    - A Python [int] is a [Z]; a Python [str] is a [string], read as the
      UTF-8 encoding of the text.  Lexicographic order on UTF-8 bytes is the
      code-point order Python uses to compare [str] values, and every byte of
      a multi-byte sequence is at least [0x80], so the escaping rules (which
      only look at code points below [0x80]) act on bytes as they act on code
      points.
    - A Python exception is a value of [exn]; a computation that may raise
      returns a [result].
    - A Python [float] is a binary64 number, a [spec_float] with precision 53
      and maximal exponent 1024.
    - A [dict] whose order of insertion matters is an association list with
      pairwise distinct keys; a [dict] or [set] that is only read through
      lookups or through [sorted] is a [gmap] or a [gset].
    - BLAKE3 and Ed25519 are outside the embedding: [hash_bytes], [sign] and
      [verify] are variables of the sections that need them. *)

From Stdlib Require Import ZArith String Ascii List Lia.
From Corelib Require Import SpecFloat.
From stdpp Require Import base list gmap strings sorting pretty.

#[local] Open Scope Z_scope.

(** ** Python prelude *)

Module Py.

Inductive exn : Type :=
| ValueError (msg : string)
| TypeError (msg : string)
| KeyError (key : string)
| ZeroDivisionError (msg : string)
| OverflowError (msg : string).

Inductive result (A : Type) : Type :=
| Ok (a : A)
| Raise (e : exn).
Arguments Ok {A} a.
Arguments Raise {A} e.

#[global] Instance result_ret : MRet result := λ A a, Ok a.
#[global] Instance result_bind : MBind result := λ A B f m,
  match m with
  | Ok a => f a
  | Raise e => Raise e
  end.
#[global] Instance result_fmap : FMap result := λ A B f m,
  match m with
  | Ok a => Ok (f a)
  | Raise e => Raise e
  end.

Definition is_ok {A} (r : result A) : bool :=
  match r with Ok _ => true | Raise _ => false end.

(** [[f(x) for x in l]]: evaluated from left to right, the first exception
    escapes. *)
Definition for_each {A B} (f : A → result B) : list A → result (list B) :=
  fix go l :=
    match l with
    | [] => Ok []
    | x :: l' => y ← f x; ys ← go l'; Ok (y :: ys)
    end.

(** [sorted(l)] for a comparison [le]: a stable sort. *)
Fixpoint insert_sorted {A} (le : A → A → bool) (x : A) (l : list A) : list A :=
  match l with
  | [] => [x]
  | y :: l' => if le x y then x :: l else y :: insert_sorted le x l'
  end.

Definition sorted {A} (le : A → A → bool) (l : list A) : list A :=
  foldr (insert_sorted le) [] l.

(** [sorted(l, key=key)]. *)
Definition sorted_by {A K} (le : K → K → bool) (key : A → K) : list A → list A :=
  sorted (λ a b, le (key a) (key b)).

(** [str(n)] for an [int]. *)
Definition str_int (n : Z) : string := pretty n.

(** [sep.join(l)]. *)
Definition join (sep : string) (l : list string) : string := String.concat sep l.

(** [sum(l)]. *)
Definition sum (l : list Z) : Z := foldl Z.add 0 l.

(** [a // b]. *)
Definition floordiv (a b : Z) : result Z :=
  if b =? 0 then Raise (ZeroDivisionError "integer division or modulo by zero")
  else Ok (a `div` b).

(** [x or y] for an optional [int] and for an optional [str]: [None], [0]
    and the empty string are false. *)
Definition int_or (x : option Z) (y : Z) : Z :=
  match x with
  | Some n => if n =? 0 then y else n
  | None => y
  end.

Definition str_or (x : option string) (y : string) : string :=
  match x with
  | Some s => if String.eqb s "" then y else s
  | None => y
  end.

(** The truth value of an optional [str]. *)
Definition truthy (x : option string) : bool :=
  match x with
  | Some s => negb (String.eqb s "")
  | None => false
  end.

End Py.
Export Py.

(** ** A signature scheme to run examples with

    The private key is the public key, and a signature is the key followed
    by the message. *)

Module Toy.

Definition sign (message_hash private_key : string) : result string :=
  Ok (private_key +:+ message_hash).

Definition verify (message_hash signature public_key : string) : bool :=
  String.eqb signature (public_key +:+ message_hash).

End Toy.

(** ** Binary64 arithmetic as Python uses it *)

Module PyFloat.

Definition prec : Z := 53.
Definition emax : Z := 1024.

Definition is_infinite (x : spec_float) : bool :=
  match x with S754_infinity _ => true | _ => false end.

(** [float(n)]: the nearest binary64 number, ties to even. *)
Definition float_of_int (n : Z) : result spec_float :=
  let x := binary_normalize prec emax n 0 false in
  if is_infinite x then Raise (OverflowError "int too large to convert to float")
  else Ok x.

(** [a / b] on two [int]s: the exact quotient rounded once to binary64. *)
Definition truediv (a b : Z) : result spec_float :=
  match a, b with
  | _, Z0 => Raise (ZeroDivisionError "division by zero")
  | Z0, _ => Ok (S754_zero (b <? 0))
  | _, _ =>
      let x := SFdiv prec emax (S754_finite (a <? 0) (Z.to_pos (Z.abs a)) 0)
                               (S754_finite (b <? 0) (Z.to_pos (Z.abs b)) 0) in
      if is_infinite x
      then Raise (OverflowError "integer division result too large for a float")
      else Ok x
  end.

(** [x * n] for a [float] [x] and an [int] [n]: [n] is converted first. *)
Definition mul_int (x : spec_float) (n : Z) : result spec_float :=
  y ← float_of_int n; Ok (SFmul prec emax x y).

(** [int(x)]: truncation towards zero. *)
Definition int_of_float (x : spec_float) : result Z :=
  match x with
  | S754_zero _ => Ok 0
  | S754_infinity _ => Raise (OverflowError "cannot convert float infinity to integer")
  | S754_nan => Raise (ValueError "cannot convert float NaN to integer")
  | S754_finite s m e =>
      let a := match e with
               | Zneg p => Z.shiftr (Zpos m) (Zpos p)
               | _ => Z.shiftl (Zpos m) e
               end in
      Ok (if s then - a else a)
  end.

(** The idiom [int((a / b) * k)] of the liquidation code. *)
Definition int_ratio_times (a b k : Z) : result Z :=
  q ← truediv a b; x ← mul_int q k; int_of_float x.

(** A float that is zero, or finite and below [2^K] in magnitude. *)
Definition below (K : Z) (x : spec_float) : Prop :=
  match x with
  | S754_zero _ => True
  | S754_finite _ m e => Z.pos (digits2_pos m) + e ≤ K ∧ e ≤ 971
  | _ => False
  end.

End PyFloat.

(** ** Canonical JSON ([canonical.py]) *)

Module Canonical.

(** The values [canonicalize] can be handed: the JSON-shaped ones, floats,
    and values of any other type ([VOther], with the name of the type). *)
#[local] Unset Elimination Schemes.
Inductive value : Type :=
| VNone
| VBool (b : bool)
| VInt (n : Z)
| VFloat (x : spec_float)
| VStr (s : string)
| VList (l : list value)
| VDict (d : list (string * value))
| VOther (type_name : string).
#[local] Set Elimination Schemes.

(** Induction over values, through the lists of arrays and maps. *)
Section ValueInd.
Variable P : value → Prop.
Hypothesis HNone : P VNone.
Hypothesis HBool : ∀ b, P (VBool b).
Hypothesis HInt : ∀ n, P (VInt n).
Hypothesis HFloat : ∀ x, P (VFloat x).
Hypothesis HStr : ∀ s, P (VStr s).
Hypothesis HList : ∀ l, Forall P l → P (VList l).
Hypothesis HDict : ∀ d, Forall (λ kv, P kv.2) d → P (VDict d).
Hypothesis HOther : ∀ t, P (VOther t).

Fixpoint value_ind (v : value) : P v :=
  match v with
  | VNone => HNone
  | VBool b => HBool b
  | VInt n => HInt n
  | VFloat x => HFloat x
  | VStr s => HStr s
  | VList l =>
      HList l ((fix go l : Forall P l :=
                  match l with
                  | [] => List.Forall_nil P
                  | x :: l' => List.Forall_cons P x l' (value_ind x) (go l')
                  end) l)
  | VDict d =>
      HDict d ((fix go d : Forall (λ kv, P kv.2) d :=
                  match d with
                  | [] => List.Forall_nil _
                  | kv :: d' => List.Forall_cons _ kv d' (value_ind kv.2) (go d')
                  end) d)
  | VOther t => HOther t
  end.
End ValueInd.

Definition dquote : ascii := "034"%char.

Definition hex_digit (n : N) : ascii :=
  match n with
  | 0 => "0" | 1 => "1" | 2 => "2" | 3 => "3" | 4 => "4" | 5 => "5"
  | 6 => "6" | 7 => "7" | 8 => "8" | 9 => "9" | 10 => "a" | 11 => "b"
  | 12 => "c" | 13 => "d" | 14 => "e" | _ => "f"
  end%char%N.

(** [f'\\u{code:04x}'] for a code below [0x20]. *)
Definition unicode_escape (code : N) : string :=
  String "\" (String "u" (String "0" (String "0"
    (String (hex_digit (code `div` 16)) (String (hex_digit (code `mod` 16)) ""))))).

Definition escape_char (c : ascii) : string :=
  let code := N_of_ascii c in
  if Ascii.eqb c dquote then String "\" (String dquote "")
  else if Ascii.eqb c "\" then "\\"
  else if Ascii.eqb c "008" then "\b"
  else if Ascii.eqb c "012" then "\f"
  else if Ascii.eqb c "010" then "\n"
  else if Ascii.eqb c "013" then "\r"
  else if Ascii.eqb c "009" then "\t"
  else if (code <? 32)%N then unicode_escape code
  else String c "".

Fixpoint escape_body (s : string) : string :=
  match s with
  | EmptyString => String dquote ""
  | String c s' => escape_char c +:+ escape_body s'
  end.

Definition escape_string (s : string) : string := String dquote (escape_body s).

(** [value[k]] on the association list of a [dict]. *)
Fixpoint dict_get {V} (k : string) (d : list (string * V)) : option V :=
  match d with
  | [] => None
  | (k', v) :: d' => if String.eqb k k' then Some v else dict_get k d'
  end.

Definition safe_integer (n : Z) : bool :=
  (- 2 ^ 53 + 1 <=? n) && (n <=? 2 ^ 53 - 1).

(** The [dict] branch reads [value[k]] for the sorted keys [k]; here every
    [canonicalize(value[k])] is computed beforehand (the function has no
    effect) and the comprehension looks the result up, so that the first
    exception in the order of the sorted keys is the one that escapes. *)
Fixpoint canonicalize (v : value) : result string :=
  match v with
  | VNone => Ok "null"
  | VBool b => Ok (if b then "true" else "false")
  | VInt n =>
      if safe_integer n then Ok (str_int n)
      else Raise (ValueError "Number outside safe integer range")
  | VFloat _ => Raise (ValueError "Floats forbidden in canonical JSON")
  | VStr s => Ok (escape_string s)
  | VList l =>
      elements ← for_each canonicalize l;
      Ok ("[" +:+ join "," elements +:+ "]")
  | VDict d =>
      let rendered := (λ kv, (kv.1, canonicalize kv.2)) <$> d in
      let keys := sorted String.leb (d.*1) in
      pairs ← for_each (λ k,
                 match dict_get k rendered with
                 | Some r => s ← r; Ok (escape_string k +:+ ":" +:+ s)
                 | None => Raise (KeyError k)
                 end) keys;
      Ok ("{" +:+ join "," pairs +:+ "}")
  | VOther t => Raise (ValueError ("Unsupported type in canonical JSON: " +:+ t))
  end.

(** How the map branch reads: the sorted keys, each rendered with what its
    value canonicalizes to. *)
Definition render_pair (d : list (string * value)) (k : string) : result string :=
  match dict_get k d with
  | Some v => s ← canonicalize v; Ok (escape_string k +:+ ":" +:+ s)
  | None => Raise (KeyError k)
  end.

(** What the value under [k] canonicalizes to, when it does. *)
Definition rendered_value (d : list (string * value)) (k : string) : string :=
  match dict_get k d with
  | Some v => match canonicalize v with Ok s => s | Raise _ => "" end
  | None => ""
  end.

(** The decimal digits of [x], none for 0. *)
Definition digits (x : N) : string := pretty_N_go x "".

(** [canonicalize_bytes]: strings are UTF-8 already. *)
Definition canonicalize_bytes (v : value) : result string := canonicalize v.

(** [del d[k]]. *)
Definition dict_del {V} (k : string) (d : list (string * V)) : result (list (string * V)) :=
  if existsb (λ kv, String.eqb kv.1 k) d
  then Ok (List.filter (λ kv, negb (String.eqb kv.1 k)) d)
  else Raise (KeyError k).

(** The canonical value domain of the specification: null, booleans, safe
    integers, strings, arrays and string-keyed maps of such values. *)
Fixpoint in_domain (v : value) : bool :=
  match v with
  | VNone | VBool _ | VStr _ => true
  | VInt n => safe_integer n
  | VFloat _ | VOther _ => false
  | VList l => forallb in_domain l
  | VDict d => forallb (λ kv, in_domain kv.2) d
  end.

(** A Python [dict] has no two equal keys: the association lists of a value
    that stands for Python data have pairwise distinct keys. *)
Fixpoint distinct_keys (v : value) : bool :=
  match v with
  | VList l => forallb distinct_keys l
  | VDict d => bool_decide (NoDup (d.*1)) && forallb (λ kv, distinct_keys kv.2) d
  | _ => true
  end.

(** [s] between double quotes, to write expected outputs down. *)
Definition quoted (s : string) : string := String dquote (s +:+ String dquote "").

(** The float [1.5], that is [3 * 2^-1]. *)
Definition float_1_5 : spec_float := binary_normalize PyFloat.prec PyFloat.emax 3 (-1) false.

(** JSON-shaped values: no float and no value of a foreign type inside. *)
Fixpoint json_shaped (v : value) : bool :=
  match v with
  | VFloat _ | VOther _ => false
  | VList l => forallb json_shaped l
  | VDict d => forallb (λ kv, json_shaped kv.2) d
  | _ => true
  end.

(** Keys in strictly ascending code-point order. *)
Definition ascending (keys : list string) : Prop :=
  Sorted (λ k1 k2, String.ltb k1 k2 = true) keys.

(** Reading a string of decimal digits, most significant first. *)
Definition digit_value (c : ascii) : option Z :=
  let code := Z.of_N (N_of_ascii c) in
  if (48 <=? code) && (code <=? 57) then Some (code - 48) else None.

Fixpoint digits_value (acc : Z) (s : string) : option Z :=
  match s with
  | EmptyString => Some acc
  | String c s' => d ← digit_value c; digits_value (10 * acc + d) s'
  end.

(** Reading a base-10 numeral: digits, with an optional leading [-]. *)
Definition decimal_value (s : string) : option Z :=
  match s with
  | EmptyString => None
  | String "-" EmptyString => None
  | String "-" s' => Z.opp <$> digits_value 0 s'
  | _ => digits_value 0 s
  end.

(** Reading an escaped body back: the character its head stands for and the
    rest of the body, or nothing at the closing quote. *)
Definition hex_value (c : ascii) : option N :=
  let code := N_of_ascii c in
  if (48 <=? code)%N && (code <=? 57)%N then Some (code - 48)%N
  else if (97 <=? code)%N && (code <=? 102)%N then Some (code - 87)%N
  else None.

Definition unescape_head (s : string) : option (ascii * string) :=
  match s with
  | EmptyString => None
  | String c rest =>
      if Ascii.eqb c dquote then None
      else if Ascii.eqb c "\" then
        match rest with
        | EmptyString => None
        | String e rest' =>
            if Ascii.eqb e dquote then Some (dquote, rest')
            else if Ascii.eqb e "\" then Some ("\"%char, rest')
            else if Ascii.eqb e "b" then Some ("008"%char, rest')
            else if Ascii.eqb e "f" then Some ("012"%char, rest')
            else if Ascii.eqb e "n" then Some ("010"%char, rest')
            else if Ascii.eqb e "r" then Some ("013"%char, rest')
            else if Ascii.eqb e "t" then Some ("009"%char, rest')
            else if Ascii.eqb e "u" then
              match rest' with
              | String "0" (String "0" (String h (String l rest''))) =>
                  hi ← hex_value h; lo ← hex_value l;
                  Some (ascii_of_N (16 * hi + lo), rest'')
              | _ => None
              end
            else None
        end
      else Some (c, rest)
  end.

(** No byte of [s] is a control character, a code below [0x20]. *)
Fixpoint no_control (s : string) : bool :=
  match s with
  | EmptyString => true
  | String c s' => (32 <=? N_of_ascii c)%N && no_control s'
  end.

(** The value with the entries of every map in the order of the keys. *)
Fixpoint normalize (v : value) : value :=
  match v with
  | VList l => VList (normalize <$> l)
  | VDict d =>
      let normalized := (λ kv, (kv.1, normalize kv.2)) <$> d in
      VDict ((λ k, (k, default VNone (dict_get k normalized)))
               <$> sorted String.leb (d.*1))
  | _ => v
  end.

(** The values without a map inside. *)
Fixpoint map_free (v : value) : bool :=
  match v with
  | VList l => forallb map_free l
  | VDict _ => false
  | _ => true
  end.

(** The kind of a value, and the kind a canonical output of a given first
    character belongs to. *)
Definition tag (v : value) : nat :=
  match v with
  | VNone => 0 | VBool _ => 1 | VInt _ => 2 | VStr _ => 3 | VList _ => 4
  | VDict _ => 5 | VFloat _ => 6 | VOther _ => 7
  end.

Definition head_tag (c : ascii) : option nat :=
  let code := N_of_ascii c in
  if Ascii.eqb c "n" then Some 0%nat
  else if Ascii.eqb c "t" || Ascii.eqb c "f" then Some 1%nat
  else if Ascii.eqb c "-" || ((48 <=? code)%N && (code <=? 57)%N) then Some 2%nat
  else if Ascii.eqb c dquote then Some 3%nat
  else if Ascii.eqb c "[" then Some 4%nat
  else if Ascii.eqb c "{" then Some 5%nat
  else None.

(** What may follow a value in a canonical output: nothing, or a character
    that starts no value. *)
Definition delimited (r : string) : Prop :=
  match r with
  | EmptyString => True
  | String c _ => head_tag c = None
  end.

(** The characters of a numeral. *)
Fixpoint numeral (s : string) : bool :=
  match s with
  | EmptyString => true
  | String c s' => bool_decide (head_tag c = Some 2%nat) && numeral s'
  end.

(** What follows the first item of an array or a map: the other items, each
    behind a comma, the closing bracket and the rest. *)
Fixpoint items_after (close : ascii) (items : list string) (r : string) : string :=
  match items with
  | [] => String close r
  | item :: items' => "," +:+ item +:+ items_after close items' r
  end.

(** Two canonical outputs that agree, each followed by what it may be
    followed by, come from the same value. *)
Definition separable (v1 : value) : Prop :=
  ∀ v2 s1 s2 r1 r2,
    canonicalize v1 = Ok s1 → canonicalize v2 = Ok s2 →
    delimited r1 → delimited r2 → s1 +:+ r1 = s2 +:+ r2 →
    normalize v1 = normalize v2 ∧ r1 = r2.

(** *** Maps whose keys are not strings

    [canonicalize] tests the type of every value and of no key: it sorts the
    keys and hands each to [escape_string], which iterates over what it is
    given.  A [tuple] of [str]s is a key it can iterate over.  An [object]
    is a value whose [dict]s are keyed by [str]s ([ODict]) or by [tuple]s of
    [str]s ([OTupleDict]); a [dict] with keys of both kinds, on which
    [sorted] raises, is not represented. *)
Inductive object : Type :=
| ONone
| OBool (b : bool)
| OInt (n : Z)
| OFloat (x : spec_float)
| OStr (s : string)
| OList (l : list object)
| ODict (d : list (string * object))
| OTupleDict (d : list (list string * object))
| OOther (type_name : string).

(** [len(s)]: in a UTF-8 text the bytes that are no continuation bytes
    ([0x80] to [0xbf]) are the first bytes of its characters. *)
Fixpoint len (s : string) : nat :=
  match s with
  | EmptyString => 0%nat
  | String b s' =>
      let code := N_of_ascii b in
      if (128 <=? code)%N && (code <? 192)%N then len s' else S (len s')
  end.

(** One round of the loop of [escape_string] when the item [c] is a [str]
    of a tuple: [ord(c)] raises unless [c] has one character; a character
    below [0x80] is one byte and goes through the tests, any other is
    appended as it is. *)
Definition escape_item (c : string) : result string :=
  if (len c =? 1)%nat then
    match c with
    | String b EmptyString => Ok (escape_char b)
    | _ => Ok c
    end
  else Raise (TypeError ("ord() expected a character, but string of length "
                           +:+ pretty (len c) +:+ " found")).

(** [escape_string(k)] for a tuple [k] of [str]s. *)
Definition escape_tuple (items : list string) : result string :=
  pieces ← for_each escape_item items;
  Ok (join "" ([String dquote ""] ++ pieces ++ [String dquote ""])).

(** [t1 <= t2] on tuples of [str]s: the first items that differ decide, and
    a tuple comes before the longer ones it starts. *)
Fixpoint tuple_leb (t1 t2 : list string) : bool :=
  match t1, t2 with
  | [], _ => true
  | _ :: _, [] => false
  | x :: t1', y :: t2' => if String.eqb x y then tuple_leb t1' t2' else String.ltb x y
  end.

(** [value[k]] for a tuple [k]. *)
Fixpoint tuple_get {V} (k : list string) (d : list (list string * V)) : option V :=
  match d with
  | [] => None
  | (k', v) :: d' => if bool_decide (k = k') then Some v else tuple_get k d'
  end.

(** [canonicalize] on objects.  In the [dict] branch [escape_string(k)] is
    evaluated before [canonicalize(value[k])]. *)
Fixpoint canonicalize_object (o : object) : result string :=
  match o with
  | ONone => Ok "null"
  | OBool b => Ok (if b then "true" else "false")
  | OInt n =>
      if safe_integer n then Ok (str_int n)
      else Raise (ValueError "Number outside safe integer range")
  | OFloat _ => Raise (ValueError "Floats forbidden in canonical JSON")
  | OStr s => Ok (escape_string s)
  | OList l =>
      elements ← for_each canonicalize_object l;
      Ok ("[" +:+ join "," elements +:+ "]")
  | ODict d =>
      let rendered := (λ kv, (kv.1, canonicalize_object kv.2)) <$> d in
      let keys := sorted String.leb (d.*1) in
      pairs ← for_each (λ k,
                 match dict_get k rendered with
                 | Some r => s ← r; Ok (escape_string k +:+ ":" +:+ s)
                 | None => Raise (KeyError k)
                 end) keys;
      Ok ("{" +:+ join "," pairs +:+ "}")
  | OTupleDict d =>
      let rendered := (λ kv, (kv.1, canonicalize_object kv.2)) <$> d in
      let keys := sorted tuple_leb (d.*1) in
      pairs ← for_each (λ k,
                 match tuple_get k rendered with
                 | Some r => key ← escape_tuple k; s ← r; Ok (key +:+ ":" +:+ s)
                 | None => Raise (KeyError (join "," k))
                 end) keys;
      Ok ("{" +:+ join "," pairs +:+ "}")
  | OOther t => Raise (ValueError ("Unsupported type in canonical JSON: " +:+ t))
  end.

(** A value, whose maps are keyed by strings, as an object. *)
Fixpoint object_of (v : value) : object :=
  match v with
  | VNone => ONone
  | VBool b => OBool b
  | VInt n => OInt n
  | VFloat x => OFloat x
  | VStr s => OStr s
  | VList l => OList (object_of <$> l)
  | VDict d => ODict ((λ kv, (kv.1, object_of kv.2)) <$> d)
  | VOther t => OOther t
  end.

(** The canonical domain among the objects: its maps are keyed by strings. *)
Fixpoint object_in_domain (o : object) : bool :=
  match o with
  | ONone | OBool _ | OStr _ => true
  | OInt n => safe_integer n
  | OFloat _ | OOther _ | OTupleDict _ => false
  | OList l => forallb object_in_domain l
  | ODict d => forallb (λ kv, object_in_domain kv.2) d
  end.

End Canonical.


(** ** Settlement receipts ([msr.py]) *)

Module Msr.
Import Canonical.

Record MSR : Type := {
  msr_version : string;
  payer_agent_id : string;
  payee_agent_id : string;
  resource_type : string;
  units : Z;
  unit_type : string;
  price_usd_micros : Z;
  timestamp_ms : Z;
  nonce : string;
  scope_hash : string;
  request_hash : string;
  response_hash : string;
  prev_receipt_hash : option string;
  signature_ed25519 : string
}.

Definition opt_str (o : option string) : value :=
  match o with Some s => VStr s | None => VNone end.

Definition to_dict (m : MSR) : list (string * value) :=
  [ ("msr_version", VStr (msr_version m));
    ("payer_agent_id", VStr (payer_agent_id m));
    ("payee_agent_id", VStr (payee_agent_id m));
    ("resource_type", VStr (resource_type m));
    ("units", VInt (units m));
    ("unit_type", VStr (unit_type m));
    ("price_usd_micros", VInt (price_usd_micros m));
    ("timestamp_ms", VInt (timestamp_ms m));
    ("nonce", VStr (nonce m));
    ("scope_hash", VStr (scope_hash m));
    ("request_hash", VStr (request_hash m));
    ("response_hash", VStr (response_hash m));
    ("prev_receipt_hash", opt_str (prev_receipt_hash m));
    ("signature_ed25519", VStr (signature_ed25519 m)) ].

(** The dictionary of the receipt is in the canonical domain: its integers
    are safe integers. *)
Definition msr_in_range (m : MSR) : Prop := in_domain (VDict (to_dict m)) = true.

Section Hash.
Variable hash_bytes : string → string.

Definition get_msr_hash (msr : MSR) : result string :=
  msr_data ← dict_del "signature_ed25519" (to_dict msr);
  bytes ← canonicalize_bytes (VDict msr_data);
  Ok (hash_bytes bytes).
End Hash.

Section Receipts.
Variable hash_bytes : string → string.
Variable sign : string → string → result string.
Variable verify : string → string → string → bool.

(** [make_msr]; [now] is the clock reading [int(time.time() * 1000)] and
    [fresh_nonce] what [generate_nonce()] draws. *)
Definition make_msr (now : Z) (fresh_nonce : string)
    (payer_agent_id payee_agent_id resource_type : string) (units : Z)
    (unit_type : string) (price_usd_micros : Z)
    (scope_hash request_hash response_hash private_key : string)
    (timestamp_ms : option Z) (nonce prev_receipt_hash : option string) : result MSR :=
  let timestamp_ms := int_or timestamp_ms now in
  let nonce := str_or nonce fresh_nonce in
  let msr_data :=
    [ ("msr_version", VStr "0.1");
      ("payer_agent_id", VStr payer_agent_id);
      ("payee_agent_id", VStr payee_agent_id);
      ("resource_type", VStr resource_type);
      ("units", VInt units);
      ("unit_type", VStr unit_type);
      ("price_usd_micros", VInt price_usd_micros);
      ("timestamp_ms", VInt timestamp_ms);
      ("nonce", VStr nonce);
      ("scope_hash", VStr scope_hash);
      ("request_hash", VStr request_hash);
      ("response_hash", VStr response_hash);
      ("prev_receipt_hash", opt_str prev_receipt_hash) ] in
  canonical_bytes ← canonicalize_bytes (VDict msr_data);
  let msr_hash := hash_bytes canonical_bytes in
  signature ← sign msr_hash private_key;
  Ok {| msr_version := "0.1";
        payer_agent_id := payer_agent_id;
        payee_agent_id := payee_agent_id;
        resource_type := resource_type;
        units := units;
        unit_type := unit_type;
        price_usd_micros := price_usd_micros;
        timestamp_ms := timestamp_ms;
        nonce := nonce;
        scope_hash := scope_hash;
        request_hash := request_hash;
        response_hash := response_hash;
        prev_receipt_hash := prev_receipt_hash;
        signature_ed25519 := signature |}.

(** [verify_msr] returns [(valid, hash, error_message)]. *)
Definition verify_msr (msr : MSR) (public_key : string)
    : result (bool * string * option string) :=
  if negb (String.eqb (msr_version msr) "0.1")
  then Ok (false, "", Some "Invalid msr_version")
  else if String.eqb (payer_agent_id msr) (payee_agent_id msr)
  then Ok (false, "", Some "Payer and payee cannot be same")
  else if units msr <=? 0
  then Ok (false, "", Some "Units must be positive")
  else if price_usd_micros msr <? 0
  then Ok (false, "", Some "Price cannot be negative")
  else if timestamp_ms msr <=? 0
  then Ok (false, "", Some "Invalid timestamp")
  else
    msr_hash ← get_msr_hash hash_bytes msr;
    if negb (verify msr_hash (signature_ed25519 msr) public_key)
    then Ok (false, msr_hash, Some "Invalid signature")
    else Ok (true, msr_hash, None).
End Receipts.

(** What [verify_msr] asks of the fields of a receipt before it looks at
    the signature. *)
Definition valid_fields (m : MSR) : Prop :=
  msr_version m = "0.1" ∧ payer_agent_id m ≠ payee_agent_id m
  ∧ 0 < units m ∧ 0 ≤ price_usd_micros m ∧ 0 < timestamp_ms m.

(** A receipt under another signature. *)
Definition with_signature (m : MSR) (signature : string) : MSR :=
  {| msr_version := msr_version m; payer_agent_id := payer_agent_id m;
     payee_agent_id := payee_agent_id m; resource_type := resource_type m;
     units := units m; unit_type := unit_type m;
     price_usd_micros := price_usd_micros m; timestamp_ms := timestamp_ms m;
     nonce := nonce m; scope_hash := scope_hash m; request_hash := request_hash m;
     response_hash := response_hash m; prev_receipt_hash := prev_receipt_hash m;
     signature_ed25519 := signature |}.

End Msr.

(** ** Inter-agent netting ([netting.py]) *)

Module Netting.
Import Canonical Msr.

Record NetObligation : Type := {
  from_agent : string;
  to_agent : string;
  amount_usd_micros : Z
}.

Definition obligation_to_dict (o : NetObligation) : value :=
  VDict [ ("from", VStr (from_agent o));
          ("to", VStr (to_agent o));
          ("amount_usd_micros", VInt (amount_usd_micros o)) ].

Record IAN : Type := {
  ian_version : string;
  epoch_id : string;
  ian_participants : list string;
  included_receipt_hashes : list string;
  net_obligations : list NetObligation;
  netting_hash : string;
  ian_signature_ed25519 : string
}.

Record NettingResult : Type := {
  obligations : list NetObligation;
  participants : list string;
  receipt_hashes : list string;
  total_volume : Z
}.

(** [f"{a}|{b}"]. *)
Definition flow_key (a b : string) : string := a +:+ "|" +:+ b.

(** [s.split(sep)] for a separator of one character. *)
Fixpoint split (sep : ascii) (s : string) : list string :=
  match s with
  | EmptyString => [EmptyString]
  | String c s' =>
      if Ascii.eqb c sep then EmptyString :: split sep s'
      else match split sep s' with
           | [] => [String c EmptyString]
           | p :: ps => String c p :: ps
           end
  end.

(** [a, b = l]. *)
Definition unpack2 (l : list string) : result (string * string) :=
  match l with
  | [a; b] => Ok (a, b)
  | [] => Raise (ValueError "not enough values to unpack (expected 2, got 0)")
  | [_] => Raise (ValueError "not enough values to unpack (expected 2, got 1)")
  | _ => Raise (ValueError "too many values to unpack (expected 2)")
  end.

(** How often the character [c] occurs in [s]. *)
Fixpoint count_char (c : ascii) (s : string) : nat :=
  match s with
  | EmptyString => 0%nat
  | String c' s' => ((if Ascii.eqb c' c then 1 else 0) + count_char c s')%nat
  end.

(** An agent identifier without the separator of the flow keys, as the
    hexadecimal identifiers of the protocol are. *)
Definition pipe_free (s : string) : Prop := count_char "|" s = 0%nat.

Definition pipe_free_ids (r : MSR) : Prop :=
  pipe_free (payer_agent_id r) ∧ pipe_free (payee_agent_id r).

(** The gross flow from [a] to [b]: the sum of the prices of the receipts
    paid by [a] to [b]. *)
Definition gross_flow (receipts : list MSR) (a b : string) : Z :=
  sum (price_usd_micros <$>
         filter (λ r, payer_agent_id r = a ∧ payee_agent_id r = b) receipts).

(** A receipt of [price] from [payer] to [payee], to write examples down. *)
Definition receipt (payer payee : string) (price : Z) : MSR :=
  {| msr_version := "0.1"; payer_agent_id := payer; payee_agent_id := payee;
     resource_type := "compute"; units := 1; unit_type := "call";
     price_usd_micros := price; timestamp_ms := 1700000000000;
     nonce := "00000000000000000000000000000000"; scope_hash := "s";
     request_hash := "q"; response_hash := "p"; prev_receipt_hash := None;
     signature_ed25519 := "00" |}.

(** The flow key of an obligation. *)
Definition obligation_key (o : NetObligation) : string :=
  flow_key (from_agent o) (to_agent o).

(** What [verify_ian] asks of every obligation. *)
Definition well_formed_obligation (participants : list string) (o : NetObligation) : Prop :=
  from_agent o ∈ participants ∧ to_agent o ∈ participants
  ∧ from_agent o ≠ to_agent o ∧ 0 < amount_usd_micros o.

(** [d.get(k, 0)]. *)
Definition get0 (d : gmap string Z) (k : string) : Z := default 0 (d !! k).

(** [sorted(d.keys())]. *)
Definition sorted_keys (d : gmap string Z) : list string :=
  sorted String.leb ((map_to_list d).*1).

(** A [for] loop whose body may raise. *)
Definition for_loop {S A} (body : S → A → result S) : S → list A → result S :=
  fix go st l :=
    match l with
    | [] => Ok st
    | x :: l' => st' ← body st x; go st' l'
    end.

(** Step 2, the body of the loop over the sorted receipts. *)
Definition add_receipt (st : gmap string Z * Z) (receipt : MSR) : gmap string Z * Z :=
  let '(balances, total_volume) := st in
  let key := flow_key (payer_agent_id receipt) (payee_agent_id receipt) in
  (<[key := get0 balances key + price_usd_micros receipt]> balances,
   total_volume + price_usd_micros receipt).

(** Step 3. *)
Definition add_participants (participants : gset string) (receipt : MSR) : gset string :=
  participants ∪ {[payer_agent_id receipt]} ∪ {[payee_agent_id receipt]}.

(** Step 4, the body of the loop over [sorted(balances.keys())]. *)
Definition net_pair (balances : gmap string Z)
    (st : gmap string Z * gset string) (key : string) : result (gmap string Z * gset string) :=
  let '(net_balances, processed) := st in
  '(a, b) ← unpack2 (split "|" key);
  let pair_key := join "|" (sorted String.leb [a; b]) in
  if decide (pair_key ∈ processed) then Ok st
  else
    let processed := processed ∪ {[pair_key]} in
    let a_to_b := get0 balances (flow_key a b) in
    let b_to_a := get0 balances (flow_key b a) in
    if b_to_a <? a_to_b then Ok (<[flow_key a b := a_to_b - b_to_a]> net_balances, processed)
    else if a_to_b <? b_to_a then Ok (<[flow_key b a := b_to_a - a_to_b]> net_balances, processed)
    else Ok (net_balances, processed).

(** Step 5, one obligation per key of [net_balances]. *)
Definition to_obligation (net_balances : gmap string Z) (key : string) : result NetObligation :=
  '(from_agent, to_agent) ← unpack2 (split "|" key);
  match net_balances !! key with
  | Some amount => Ok {| from_agent := from_agent; to_agent := to_agent;
                         amount_usd_micros := amount |}
  | None => Raise (KeyError key)
  end.

(** The flow key of a receipt. *)
Definition receipt_key (r : MSR) : string :=
  flow_key (payer_agent_id r) (payee_agent_id r).

(** The key of an unordered pair. *)
Definition pair_key (a b : string) : string := join "|" (sorted String.leb [a; b]).

(** A key made of two identifiers free of the separator. *)
Definition is_flow_key (k : string) : Prop :=
  ∃ a b, pipe_free a ∧ pipe_free b ∧ k = flow_key a b.

(** The balance of the flow from [a] to [b]. *)
Definition flow (balances : gmap string Z) (a b : string) : Z :=
  get0 balances (flow_key a b).

(** What the loop of step 4 has established once the keys [seen] are behind
    it. *)
Definition net_inv (balances : gmap string Z) (seen : gset string)
    (st : gmap string Z * gset string) : Prop :=
  (∀ pk, pk ∈ st.2 ↔
     ∃ a b, pipe_free a ∧ pipe_free b ∧ flow_key a b ∈ seen ∧ pk = pair_key a b)
  ∧ (∀ k v, st.1 !! k = Some v ↔
       ∃ a b, pipe_free a ∧ pipe_free b ∧ k = flow_key a b ∧ pair_key a b ∈ st.2
              ∧ flow balances b a < flow balances a b
              ∧ v = flow balances a b - flow balances b a).

(** The receipts of the netting scenario of the specification. *)
Definition example_receipts : list MSR :=
  [ receipt "A" "B" 100; receipt "B" "A" 30; receipt "A" "C" 50; receipt "C" "A" 50 ].

(** Steps 2 to 5 of [net_receipts], from the receipts sorted by hash. *)
Definition net_sorted (sorted_receipts : list MSR) (receipt_hashes : list string)
    : result NettingResult :=
  let '(balances, total_volume) := foldl add_receipt (∅, 0) sorted_receipts in
  let participants := foldl add_participants ∅ sorted_receipts in
  let participants_list := sorted String.leb (elements participants) in
  '(net_balances, _) ← for_loop (net_pair balances) (∅, ∅) (sorted_keys balances);
  obligations ← for_each (to_obligation net_balances) (sorted_keys net_balances);
  Ok {| obligations := obligations; participants := participants_list;
        receipt_hashes := receipt_hashes; total_volume := total_volume |}.

Section Netting.
Variable hash_bytes : string → string.
Variable sign : string → string → result string.
Variable verify : string → string → string → bool.

Definition net_receipts (receipts : list MSR) : result NettingResult :=
  (* 1. Collect hashes and sort receipts *)
  hashes ← for_each (get_msr_hash hash_bytes) receipts;
  let receipt_hashes := sorted String.leb hashes in
  keyed ← for_each (λ r, h ← get_msr_hash hash_bytes r; Ok (h, r)) receipts;
  let sorted_receipts := (sorted_by String.leb fst keyed).*2 in
  (* 2. Build balance matrix *)
  let '(balances, total_volume) := foldl add_receipt (∅, 0) sorted_receipts in
  (* 3. Collect participants *)
  let participants := foldl add_participants ∅ sorted_receipts in
  let participants_list := sorted String.leb (elements participants) in
  (* 4. Net bilateral pairs *)
  '(net_balances, _) ← for_loop (net_pair balances) (∅, ∅) (sorted_keys balances);
  (* 5. Convert to obligations *)
  obligations ← for_each (to_obligation net_balances) (sorted_keys net_balances);
  Ok {| obligations := obligations; participants := participants_list;
        receipt_hashes := receipt_hashes; total_volume := total_volume |}.

Definition compute_netting_hash (epoch_id : string) (receipt_hashes : list string)
    (obligations : list NetObligation) : result string :=
  let data := VDict [ ("epoch", VStr epoch_id);
                      ("receipts", VList (VStr <$> sorted String.leb receipt_hashes));
                      ("obligations", VList (obligation_to_dict <$> obligations)) ] in
  bytes ← canonicalize_bytes data;
  Ok (hash_bytes bytes).

Definition ian_to_dict (ian : IAN) : list (string * value) :=
  [ ("ian_version", VStr (ian_version ian));
    ("epoch_id", VStr (epoch_id ian));
    ("participants", VList (VStr <$> ian_participants ian));
    ("included_receipt_hashes", VList (VStr <$> included_receipt_hashes ian));
    ("net_obligations", VList (obligation_to_dict <$> net_obligations ian));
    ("netting_hash", VStr (netting_hash ian));
    ("signature_ed25519", VStr (ian_signature_ed25519 ian)) ].

Definition make_ian (epoch_id : string) (receipts : list MSR)
    (kernel_private_key : string) : result IAN :=
  result ← net_receipts receipts;
  netting_hash ← compute_netting_hash epoch_id (receipt_hashes result) (obligations result);
  let ian_data :=
    VDict [ ("ian_version", VStr "0.1");
            ("epoch_id", VStr epoch_id);
            ("participants", VList (VStr <$> participants result));
            ("included_receipt_hashes", VList (VStr <$> receipt_hashes result));
            ("net_obligations", VList (obligation_to_dict <$> obligations result));
            ("netting_hash", VStr netting_hash) ] in
  canonical_bytes ← canonicalize_bytes ian_data;
  let ian_hash := hash_bytes canonical_bytes in
  signature ← sign ian_hash kernel_private_key;
  Ok {| ian_version := "0.1"; epoch_id := epoch_id;
        ian_participants := participants result;
        included_receipt_hashes := receipt_hashes result;
        net_obligations := obligations result;
        netting_hash := netting_hash;
        ian_signature_ed25519 := signature |}.

(** The loop of [verify_ian] over the obligations: the first complaint, if
    there is one. *)
Fixpoint verify_obligations (participants : list string)
    (obls : list NetObligation) : option string :=
  match obls with
  | [] => None
  | obl :: obls' =>
      if negb (bool_decide (from_agent obl ∈ participants))
      then Some ("Unknown participant: " +:+ from_agent obl)
      else if negb (bool_decide (to_agent obl ∈ participants))
      then Some ("Unknown participant: " +:+ to_agent obl)
      else if String.eqb (from_agent obl) (to_agent obl)
      then Some "Self-obligation not allowed"
      else if amount_usd_micros obl <=? 0
      then Some "Obligation amount must be positive"
      else verify_obligations participants obls'
  end.

Definition verify_ian (ian : IAN) (kernel_public_key : string)
    : result (bool * option string) :=
  if negb (String.eqb (ian_version ian) "0.1") then Ok (false, Some "Invalid ian_version")
  else
    match verify_obligations (ian_participants ian) (net_obligations ian) with
    | Some msg => Ok (false, Some msg)
    | None =>
        expected_hash ← compute_netting_hash (epoch_id ian)
                          (included_receipt_hashes ian) (net_obligations ian);
        if negb (String.eqb (netting_hash ian) expected_hash)
        then Ok (false, Some "Invalid netting hash")
        else
          ian_dict ← dict_del "signature_ed25519" (ian_to_dict ian);
          bytes ← canonicalize_bytes (VDict ian_dict);
          let ian_hash := hash_bytes bytes in
          if negb (verify ian_hash (ian_signature_ed25519 ian) kernel_public_key)
          then Ok (false, Some "Invalid kernel signature")
          else Ok (true, None)
    end.
End Netting.

(** The net position of agent [a]: what it pays minus what it is paid,
    over the receipts and over the obligations. *)
Definition receipts_position (receipts : list MSR) (a : string) : Z :=
  sum (price_usd_micros <$> filter (λ r, payer_agent_id r = a) receipts)
  - sum (price_usd_micros <$> filter (λ r, payee_agent_id r = a) receipts).

Definition obligations_position (obligations : list NetObligation) (a : string) : Z :=
  sum (amount_usd_micros <$> filter (λ o, from_agent o = a) obligations)
  - sum (amount_usd_micros <$> filter (λ o, to_agent o = a) obligations).

(** The agents of a list of receipts, each once, and the net flow from [a]
    to [b]: what [a] paid [b] beyond what [b] paid [a]. *)
Definition agents (receipts : list MSR) : list string :=
  elements (list_to_set ((payer_agent_id <$> receipts) ++ (payee_agent_id <$> receipts))
              : gset string).

Definition net_flow (receipts : list MSR) (a b : string) : Z :=
  if decide (gross_flow receipts b a < gross_flow receipts a b)
  then gross_flow receipts a b - gross_flow receipts b a else 0.

End Netting.


(** ** Default and liquidation ([dbp.py]) *)

Module Dbp.
Import Canonical PyFloat.

Record Creditor : Type := {
  agent_id : string;
  amount_micros : Z;
  priority : Z;
  collateralized : bool
}.

Record Asset : Type := {
  asset_type : string;
  value_micros : Z;
  liquid : bool
}.

Record Distribution : Type := {
  creditor_id : string;
  receives_micros : Z;
  recovery_bps : Z
}.

Record Trigger : Type := {
  trigger_type : string;
  reference_id : string;
  trigger_timestamp_ms : Z
}.

Record ObligationsSnapshot : Type := {
  total_owed_micros : Z;
  creditors : list Creditor
}.

Record AssetsSnapshot : Type := {
  total_value_micros : Z;
  assets : list Asset
}.

Record LiquidationPlan : Type := {
  method : string;
  distributions : list Distribution
}.

Record DBP : Type := {
  dbp_version : string;
  default_id : string;
  defaulting_agent_id : string;
  declaration_type : string;
  trigger : Trigger;
  obligations_snapshot : ObligationsSnapshot;
  assets_snapshot : AssetsSnapshot;
  recovery_rate_bps : Z;
  liquidation_plan : LiquidationPlan;
  timestamp_ms : Z;
  arbiter_agent_id : string;
  dbp_hash : string;
  signature_ed25519 : string
}.

Definition creditor_to_dict (c : Creditor) : value :=
  VDict [ ("agent_id", VStr (agent_id c)); ("amount_micros", VInt (amount_micros c));
          ("priority", VInt (priority c)); ("collateralized", VBool (collateralized c)) ].

Definition asset_to_dict (a : Asset) : value :=
  VDict [ ("asset_type", VStr (asset_type a)); ("value_micros", VInt (value_micros a));
          ("liquid", VBool (liquid a)) ].

Definition distribution_to_dict (d : Distribution) : value :=
  VDict [ ("creditor_id", VStr (creditor_id d)); ("receives_micros", VInt (receives_micros d));
          ("recovery_bps", VInt (recovery_bps d)) ].

Definition to_dict (dbp : DBP) : list (string * value) :=
  [ ("dbp_version", VStr (dbp_version dbp));
    ("default_id", VStr (default_id dbp));
    ("defaulting_agent_id", VStr (defaulting_agent_id dbp));
    ("declaration_type", VStr (declaration_type dbp));
    ("trigger", VDict [ ("type", VStr (trigger_type (trigger dbp)));
                        ("reference_id", VStr (reference_id (trigger dbp)));
                        ("trigger_timestamp_ms", VInt (trigger_timestamp_ms (trigger dbp))) ]);
    ("obligations_snapshot",
      VDict [ ("total_owed_micros", VInt (total_owed_micros (obligations_snapshot dbp)));
              ("creditors", VList (creditor_to_dict <$>
                 sorted_by String.leb agent_id (creditors (obligations_snapshot dbp)))) ]);
    ("assets_snapshot",
      VDict [ ("total_value_micros", VInt (total_value_micros (assets_snapshot dbp)));
              ("assets", VList (asset_to_dict <$>
                 sorted_by String.leb asset_type (assets (assets_snapshot dbp)))) ]);
    ("recovery_rate_bps", VInt (recovery_rate_bps dbp));
    ("liquidation_plan",
      VDict [ ("method", VStr (method (liquidation_plan dbp)));
              ("distributions", VList (distribution_to_dict <$>
                 sorted_by String.leb creditor_id (distributions (liquidation_plan dbp)))) ]);
    ("timestamp_ms", VInt (timestamp_ms dbp));
    ("arbiter_agent_id", VStr (arbiter_agent_id dbp));
    ("dbp_hash", VStr (dbp_hash dbp));
    ("signature_ed25519", VStr (signature_ed25519 dbp)) ].

(** [int((receives / amount) * 10000) if amount > 0 else 0]. *)
Definition recovery (receives amount : Z) : result Z :=
  if 0 <? amount then int_ratio_times receives amount 10000 else Ok 0.

(** The [PRO_RATA] loop. *)
Definition pro_rata (creditors : list Creditor) (total_owed total_assets : Z)
    : result (list Distribution) :=
  for_each (λ c,
    receives ← int_ratio_times (amount_micros c) total_owed total_assets;
    recovery ← recovery receives (amount_micros c);
    Ok {| creditor_id := agent_id c; receives_micros := receives;
          recovery_bps := recovery |}) creditors.

(** The [PRIORITY] loop, over the creditors already sorted. *)
Fixpoint priority_loop (remaining : Z) (sorted_creditors : list Creditor)
    : result (list Distribution) :=
  match sorted_creditors with
  | [] => Ok []
  | c :: rest =>
      let receives := Z.min (amount_micros c) remaining in
      let remaining := remaining - receives in
      recovery ← recovery receives (amount_micros c);
      distributions ← priority_loop remaining rest;
      Ok ({| creditor_id := agent_id c; receives_micros := receives;
             recovery_bps := recovery |} :: distributions)
  end.

Definition compute_distributions (creditors : list Creditor) (total_assets : Z)
    (method : string) : result (list Distribution) :=
  match creditors with
  | [] => Ok []
  | _ =>
      let total_owed := sum (amount_micros <$> creditors) in
      if total_owed =? 0
      then Ok ((λ c, {| creditor_id := agent_id c; receives_micros := 0;
                        recovery_bps := 0 |}) <$> creditors)
      else if String.eqb method "PRO_RATA"
      then pro_rata creditors total_owed total_assets
      else if String.eqb method "PRIORITY"
      then priority_loop total_assets (sorted_by Z.leb priority creditors)
      else (* AUCTION - same as PRO_RATA for now *)
        pro_rata creditors total_owed total_assets
  end.

(** [int((total_distributed / total_owed) * 10000) if total_owed > 0 else 0],
    as [make_dbp] and [resolve_default] both compute it. *)
Definition recovery_rate (total_distributed total_owed : Z) : result Z :=
  if 0 <? total_owed then int_ratio_times total_distributed total_owed 10000 else Ok 0.

Record Resolution : Type := {
  valid : bool;
  res_distributions : list Distribution;
  res_recovery_rate_bps : Z;
  error : option string
}.

Section Dbp.
Variable hash_bytes : string → string.
Variable sign : string → string → result string.
Variable verify : string → string → string → bool.

(** [make_dbp]; [now] is the clock reading [int(time.time() * 1000)]. *)
Definition make_dbp (now : Z) (defaulting_agent_id declaration_type trigger_type
    trigger_reference_id : string) (creditors : list Creditor) (assets : list Asset)
    (liquidation_method arbiter_agent_id arbiter_private_key : string) : result DBP :=
  let total_owed := sum (amount_micros <$> creditors) in
  let total_assets := sum (value_micros <$> assets) in
  distributions ← compute_distributions creditors total_assets liquidation_method;
  let total_distributed := sum (receives_micros <$> distributions) in
  recovery_rate_bps ← recovery_rate total_distributed total_owed;
  let dbp_content :=
    VDict [
      ("dbp_version", VStr "0.1");
      ("defaulting_agent_id", VStr defaulting_agent_id);
      ("declaration_type", VStr declaration_type);
      ("trigger", VDict [ ("type", VStr trigger_type);
                          ("reference_id", VStr trigger_reference_id);
                          ("trigger_timestamp_ms", VInt now) ]);
      ("obligations_snapshot",
        VDict [ ("total_owed_micros", VInt total_owed);
                ("creditors", VList (creditor_to_dict <$>
                   sorted_by String.leb agent_id creditors)) ]);
      ("assets_snapshot",
        VDict [ ("total_value_micros", VInt total_assets);
                ("assets", VList (asset_to_dict <$>
                   sorted_by String.leb asset_type assets)) ]);
      ("recovery_rate_bps", VInt recovery_rate_bps);
      ("liquidation_plan",
        VDict [ ("method", VStr liquidation_method);
                ("distributions", VList (distribution_to_dict <$>
                   sorted_by String.leb creditor_id distributions)) ]);
      ("timestamp_ms", VInt now);
      ("arbiter_agent_id", VStr arbiter_agent_id) ] in
  bytes ← canonicalize_bytes dbp_content;
  let content_hash := hash_bytes bytes in
  signature ← sign content_hash arbiter_private_key;
  Ok {| dbp_version := "0.1";
        default_id := content_hash;
        defaulting_agent_id := defaulting_agent_id;
        declaration_type := declaration_type;
        trigger := {| trigger_type := trigger_type;
                      reference_id := trigger_reference_id;
                      trigger_timestamp_ms := now |};
        obligations_snapshot :=
          {| total_owed_micros := total_owed;
             creditors := sorted_by String.leb agent_id creditors |};
        assets_snapshot :=
          {| total_value_micros := total_assets;
             assets := sorted_by String.leb asset_type assets |};
        recovery_rate_bps := recovery_rate_bps;
        liquidation_plan :=
          {| method := liquidation_method;
             distributions := sorted_by String.leb creditor_id distributions |};
        timestamp_ms := now;
        arbiter_agent_id := arbiter_agent_id;
        dbp_hash := content_hash;
        signature_ed25519 := signature |}.

Definition get_dbp_content (dbp : DBP) : result (list (string * value)) :=
  dbp_dict ← dict_del "default_id" (to_dict dbp);
  dbp_dict ← dict_del "dbp_hash" dbp_dict;
  dict_del "signature_ed25519" dbp_dict.

Definition invalid (msg : string) : Resolution :=
  {| valid := false; res_distributions := []; res_recovery_rate_bps := 0;
     error := Some msg |}.

Definition resolve_default (dbp : DBP) (arbiter_public_key : string) : result Resolution :=
  content ← get_dbp_content dbp;
  bytes ← canonicalize_bytes (VDict content);
  let computed_hash := hash_bytes bytes in
  let is_valid := verify computed_hash (signature_ed25519 dbp) arbiter_public_key in
  if negb is_valid then Ok (invalid "Invalid arbiter signature")
  else
    let total_owed := total_owed_micros (obligations_snapshot dbp) in
    let total_distributed :=
      sum (receives_micros <$> distributions (liquidation_plan dbp)) in
    let total_assets := total_value_micros (assets_snapshot dbp) in
    if total_assets <? total_distributed
    then Ok (invalid "Distributions exceed available assets")
    else
      expected_recovery ← recovery_rate total_distributed total_owed;
      if negb (recovery_rate_bps dbp =? expected_recovery)
      then Ok (invalid ("Recovery rate mismatch: expected " +:+ str_int expected_recovery
                        +:+ ", got " +:+ str_int (recovery_rate_bps dbp)))
      else Ok {| valid := true;
                 res_distributions := distributions (liquidation_plan dbp);
                 res_recovery_rate_bps := recovery_rate_bps dbp;
                 error := None |}.

(** [verify_dbp] takes the arbiter's agent identifier for its public key. *)
Definition verify_dbp (dbp : DBP) : result bool :=
  content ← get_dbp_content dbp;
  bytes ← canonicalize_bytes (VDict content);
  let computed_hash := hash_bytes bytes in
  Ok (verify computed_hash (signature_ed25519 dbp) (arbiter_agent_id dbp)).

(** [trigger_default] hands its arguments to [make_dbp]. *)
Definition trigger_default (now : Z) (defaulting_agent_id declaration_type trigger_type
    trigger_reference_id : string) (creditors : list Creditor) (assets : list Asset)
    (liquidation_method arbiter_agent_id arbiter_private_key : string) : result DBP :=
  make_dbp now defaulting_agent_id declaration_type trigger_type trigger_reference_id
    creditors assets liquidation_method arbiter_agent_id arbiter_private_key.
End Dbp.

(** What the specification writes for the [PRIORITY] walk: each creditor in
    turn receives [min(c.amount, remaining)] and [remaining] is decremented.
    The result pairs every creditor with what it receives. *)
Fixpoint spec_priority_walk (remaining : Z) (cs : list Creditor) : list (Creditor * Z) :=
  match cs with
  | [] => []
  | c :: rest =>
      let receives := Z.min (amount_micros c) remaining in
      (c, receives) :: spec_priority_walk (remaining - receives) rest
  end.

(** Amounts owed that are not negative. *)
Definition nonneg_amounts (cs : list Creditor) : Prop :=
  Forall (λ c, 0 ≤ amount_micros c) cs.

(** What a distribution says a creditor receives, and what the walk of the
    specification says. *)
Definition paid (ds : list Distribution) : list (string * Z) :=
  (λ d, (creditor_id d, receives_micros d)) <$> ds.

Definition walk_paid (w : list (Creditor * Z)) : list (string * Z) :=
  (λ cr, (agent_id cr.1, cr.2)) <$> w.

(** The dictionary of the DBP is in the canonical domain: its integers
    are safe integers. *)
Definition canonical_dbp (dbp : DBP) : Prop := in_domain (VDict (to_dict dbp)) = true.

(** A DBP whose asset snapshot lists assets worth 500 under an embedded
    total of 1000, with distributions of 600. *)
Definition overdrawn_dbp : DBP :=
  {| dbp_version := "0.1"; default_id := "d0"; defaulting_agent_id := "a0";
     declaration_type := "VOLUNTARY";
     trigger := {| trigger_type := "TIMEOUT"; reference_id := "r0";
                   trigger_timestamp_ms := 1 |};
     obligations_snapshot :=
       {| total_owed_micros := 1000;
          creditors := [ {| agent_id := "X"; amount_micros := 1000; priority := 1;
                            collateralized := false |} ] |};
     assets_snapshot :=
       {| total_value_micros := 1000;
          assets := [ {| asset_type := "usdc"; value_micros := 500; liquid := true |} ] |};
     recovery_rate_bps := 6000;
     liquidation_plan :=
       {| method := "PRO_RATA";
          distributions := [ {| creditor_id := "X"; receives_micros := 600;
                                recovery_bps := 6000 |} ] |};
     timestamp_ms := 1; arbiter_agent_id := "arb"; dbp_hash := "d0";
     signature_ed25519 := "00" |}.

(** A DBP with distributions of 57 against 100 owed and assets of 100, that
    embeds the exact floor of [57 * 10000 / 100] as its recovery rate. *)
Definition exact_rate_dbp : DBP :=
  {| dbp_version := "0.1"; default_id := "d1"; defaulting_agent_id := "a0";
     declaration_type := "VOLUNTARY";
     trigger := {| trigger_type := "TIMEOUT"; reference_id := "r0";
                   trigger_timestamp_ms := 1 |};
     obligations_snapshot :=
       {| total_owed_micros := 100;
          creditors := [ {| agent_id := "X"; amount_micros := 100; priority := 1;
                            collateralized := false |} ] |};
     assets_snapshot :=
       {| total_value_micros := 100;
          assets := [ {| asset_type := "usdc"; value_micros := 100; liquid := true |} ] |};
     recovery_rate_bps := 5700;
     liquidation_plan :=
       {| method := "PRO_RATA";
          distributions := [ {| creditor_id := "X"; receives_micros := 57;
                                recovery_bps := 5700 |} ] |};
     timestamp_ms := 1; arbiter_agent_id := "arb"; dbp_hash := "d1";
     signature_ed25519 := "00" |}.

(** [should_auto_default]: [runway_seconds < threshold_seconds] on floats;
    the threshold is [0] when it is not given. *)
Definition should_auto_default (runway_seconds threshold_seconds : spec_float) : bool :=
  SFltb runway_seconds threshold_seconds.

Definition default_threshold : spec_float := S754_zero false.

(** Two creditors and an asset to run examples with. *)
Definition two_creditors : list Creditor :=
  [ {| agent_id := "X"; amount_micros := 400; priority := 1; collateralized := false |};
    {| agent_id := "Y"; amount_micros := 600; priority := 2; collateralized := false |} ].

Definition usdc_500 : list Asset :=
  [ {| asset_type := "usdc"; value_micros := 500; liquid := true |} ].

End Dbp.

(** ** Balance sheets ([mbs.py]) *)

Module Mbs.
Import Canonical.

Definition MAX_SOLVENCY : Z := 999999.

Record Asset : Type := {
  asset_type : string;
  asset_amount : Z
}.

Record Liability : Type := {
  liability_type : string;
  liability_amount : Z
}.

Definition asset_to_dict (a : Asset) : value :=
  VDict [ ("asset_type", VStr (asset_type a)); ("amount", VInt (asset_amount a)) ].

Definition liability_to_dict (l : Liability) : value :=
  VDict [ ("liability_type", VStr (liability_type l)); ("amount", VInt (liability_amount l)) ].

Record MBS : Type := {
  mbs_version : string;
  agent_id : string;
  assets : list Asset;
  liabilities : list Liability;
  burn_rate_usd_micros_per_s : Z;
  solvency_ratio : Z;
  timestamp_ms : Z;
  signature_ed25519 : string
}.

Definition to_dict (mbs : MBS) : list (string * value) :=
  [ ("mbs_version", VStr (mbs_version mbs));
    ("agent_id", VStr (agent_id mbs));
    ("assets", VList (asset_to_dict <$> assets mbs));
    ("liabilities", VList (liability_to_dict <$> liabilities mbs));
    ("burn_rate_usd_micros_per_s", VInt (burn_rate_usd_micros_per_s mbs));
    ("solvency_ratio", VInt (solvency_ratio mbs));
    ("timestamp_ms", VInt (timestamp_ms mbs));
    ("signature_ed25519", VStr (signature_ed25519 mbs)) ].

Definition compute_solvency_ratio (assets : list Asset) (liabilities : list Liability)
    : result Z :=
  let total_assets := sum (asset_amount <$> assets) in
  let total_liabilities := sum (liability_amount <$> liabilities) in
  if total_liabilities =? 0 then Ok MAX_SOLVENCY
  else floordiv (total_assets * 10000) total_liabilities.

Section Mbs.
Variable hash_bytes : string → string.
Variable verify : string → string → string → bool.

Definition verify_mbs (mbs : MBS) (public_key : string) : result (bool * option string) :=
  if negb (String.eqb (mbs_version mbs) "0.1") then Ok (false, Some "Invalid mbs_version")
  else if existsb (λ asset, asset_amount asset <? 0) (assets mbs)
  then Ok (false, Some "Asset amount cannot be negative")
  else if existsb (λ liability, liability_amount liability <? 0) (liabilities mbs)
  then Ok (false, Some "Liability amount cannot be negative")
  else if burn_rate_usd_micros_per_s mbs <? 0
  then Ok (false, Some "Burn rate cannot be negative")
  else
    expected_ratio ← compute_solvency_ratio (assets mbs) (liabilities mbs);
    if negb (solvency_ratio mbs =? expected_ratio)
    then Ok (false, Some "Invalid solvency ratio")
    else
      mbs_dict ← dict_del "signature_ed25519" (to_dict mbs);
      bytes ← canonicalize_bytes (VDict mbs_dict);
      let mbs_hash := hash_bytes bytes in
      if negb (verify mbs_hash (signature_ed25519 mbs) public_key)
      then Ok (false, Some "Invalid signature")
      else Ok (true, None).
End Mbs.

Section Signing.
Variable hash_bytes : string → string.
Variable sign : string → string → result string.

(** [compute_mbs]; [now] is the clock reading [int(time.time() * 1000)]. *)
Definition compute_mbs (now : Z) (agent_id : string) (assets : list Asset)
    (liabilities : list Liability) (burn_rate_usd_micros_per_s : Z)
    (private_key : string) (timestamp_ms : option Z) : result MBS :=
  solvency_ratio ← compute_solvency_ratio assets liabilities;
  let timestamp_ms := int_or timestamp_ms now in
  let mbs_data :=
    [ ("mbs_version", VStr "0.1");
      ("agent_id", VStr agent_id);
      ("assets", VList (asset_to_dict <$> assets));
      ("liabilities", VList (liability_to_dict <$> liabilities));
      ("burn_rate_usd_micros_per_s", VInt burn_rate_usd_micros_per_s);
      ("solvency_ratio", VInt solvency_ratio);
      ("timestamp_ms", VInt timestamp_ms) ] in
  canonical_bytes ← canonicalize_bytes (VDict mbs_data);
  let mbs_hash := hash_bytes canonical_bytes in
  signature ← sign mbs_hash private_key;
  Ok {| mbs_version := "0.1";
        agent_id := agent_id;
        assets := assets;
        liabilities := liabilities;
        burn_rate_usd_micros_per_s := burn_rate_usd_micros_per_s;
        solvency_ratio := solvency_ratio;
        timestamp_ms := timestamp_ms;
        signature_ed25519 := signature |}.
End Signing.

(** [max(0.0, x)]: the first argument unless the second is greater. *)
Definition max_zero (x : spec_float) : spec_float :=
  if SFltb (S754_zero false) x then x else S754_zero false.

(** [compute_runway_seconds] returns a float. *)
Definition compute_runway_seconds (mbs : MBS) : result spec_float :=
  let total_assets := sum (asset_amount <$> assets mbs) in
  let total_liabilities := sum (liability_amount <$> liabilities mbs) in
  let net_assets := total_assets - total_liabilities in
  if burn_rate_usd_micros_per_s mbs =? 0
  then Ok (if 0 <? net_assets then S754_infinity false else S754_zero false)
  else
    x ← PyFloat.truediv net_assets (burn_rate_usd_micros_per_s mbs);
    Ok (max_zero x).

(** A balance sheet with one asset and one liability, to write examples
    down. *)
Definition sheet (asset liability burn_rate : Z) : MBS :=
  {| mbs_version := "0.1"; agent_id := "a1";
     assets := [ {| asset_type := "usdc"; asset_amount := asset |} ];
     liabilities := [ {| liability_type := "owed"; liability_amount := liability |} ];
     burn_rate_usd_micros_per_s := burn_rate; solvency_ratio := 0;
     timestamp_ms := 1; signature_ed25519 := "00" |}.

End Mbs.

(** ** Attested metering records ([amr.py]) *)

Module Amr.

Record Metering : Type := {
  quantity : Z;
  unit : string;
  start_ms : Z;
  end_ms : Z;
  duration_ms : Z;
  breakdown : option (gmap string Z)
}.

Record Attestation : Type := {
  att_method : string;
  confidence_bps : Z;
  tee_quote : option string;
  tee_type : option string;
  enclave_hash : option string;
  meter_id : option string;
  meter_pubkey : option string;
  meter_signature : option string;
  oracle_id : option string;
  oracle_pubkey : option string;
  oracle_signature : option string
}.

Record Pricing : Type := {
  rate_micros_per_unit : Z;
  total_micros : Z;
  currency : string
}.

Record Context : Type := {
  request_hash : string;
  response_hash : string;
  session_id : option string;
  parent_amr_id : option string
}.

Record AMR : Type := {
  amr_version : string;
  record_id : string;
  consumer_agent_id : string;
  provider_agent_id : string;
  resource_class : string;
  resource_subtype : string;
  metering : Metering;
  attestation : Attestation;
  pricing : Pricing;
  context : Context;
  timestamp_ms : Z;
  amr_hash : string;
  provider_signature : string;
  consumer_signature : option string
}.

(** The inner dictionary [{"quantity": q, "micros": m}]. *)
Record ClassTotals : Type := {
  class_quantity : Z;
  class_micros : Z
}.

Record Aggregate : Type := {
  agg_total_quantity : Z;
  agg_total_micros : Z;
  by_resource_class : gmap string ClassTotals;
  avg_confidence_bps : Z
}.

Record AggState : Type := {
  st_total_quantity : Z;
  st_total_micros : Z;
  st_total_confidence : Z;
  st_by_resource_class : gmap string ClassTotals
}.

(** The state before the loop of [aggregate_amrs]. *)
Definition initial : AggState :=
  {| st_total_quantity := 0; st_total_micros := 0; st_total_confidence := 0;
     st_by_resource_class := ∅ |}.

(** The body of the loop of [aggregate_amrs]. *)
Definition aggregate_step (st : AggState) (amr : AMR) : AggState :=
  let by_class := st_by_resource_class st in
  let by_class :=
    match by_class !! resource_class amr with
    | None => <[resource_class amr := {| class_quantity := 0; class_micros := 0 |}]> by_class
    | Some _ => by_class
    end in
  let by_class :=
    alter (λ t, {| class_quantity := class_quantity t + quantity (metering amr);
                   class_micros := class_micros t |}) (resource_class amr) by_class in
  let by_class :=
    alter (λ t, {| class_quantity := class_quantity t;
                   class_micros := class_micros t + total_micros (pricing amr) |})
          (resource_class amr) by_class in
  {| st_total_quantity := st_total_quantity st + quantity (metering amr);
     st_total_micros := st_total_micros st + total_micros (pricing amr);
     st_total_confidence := st_total_confidence st + confidence_bps (attestation amr);
     st_by_resource_class := by_class |}.

Definition aggregate_amrs (amrs : list AMR) : result Aggregate :=
  let st := foldl aggregate_step
              {| st_total_quantity := 0; st_total_micros := 0; st_total_confidence := 0;
                 st_by_resource_class := ∅ |} amrs in
  avg ← match amrs with
        | [] => Ok 0
        | _ => floordiv (st_total_confidence st) (Z.of_nat (length amrs))
        end;
  Ok {| agg_total_quantity := st_total_quantity st;
        agg_total_micros := st_total_micros st;
        by_resource_class := st_by_resource_class st;
        avg_confidence_bps := avg |}.

(** *** Making and checking records *)

Import Canonical.

(** [get_confidence_bps]: a lookup in a literal dictionary, 5000 when the
    method is not a key. *)
Definition get_confidence_bps (method : string) : Z :=
  default 5000 (dict_get method
    [ ("TEE", 9999); ("SIGNED_METER", 9500); ("ORACLE", 9000); ("SELF_REPORT", 5000) ]).

(** The entry [d[k] = x] that is made only [if x:]. *)
Definition opt_entry (k : string) (x : option string) : list (string * value) :=
  match x with
  | Some s => if String.eqb s "" then [] else [(k, VStr s)]
  | None => []
  end.

Section Records.
Variable hash_bytes : string → string.
Variable sign : string → string → result string.
Variable verify : string → string → string → bool.

(** [make_amr]; [now] is the clock reading [int(time.time() * 1000)]. *)
Definition make_amr (now : Z)
    (consumer_agent_id provider_agent_id resource_class resource_subtype : string)
    (quantity : Z) (unit : string) (start_ms end_ms : Z) (attestation_method : string)
    (rate_micros_per_unit : Z) (request_hash response_hash provider_private_key : string)
    (tee_quote tee_type meter_id meter_signature oracle_id oracle_signature
       session_id parent_amr_id : option string) : result AMR :=
  let duration_ms := end_ms - start_ms in
  let total_micros := quantity * rate_micros_per_unit in
  let attestation :=
    {| att_method := attestation_method;
       confidence_bps := get_confidence_bps attestation_method;
       tee_quote := tee_quote; tee_type := tee_type; enclave_hash := None;
       meter_id := meter_id; meter_pubkey := None; meter_signature := None;
       oracle_id := oracle_id; oracle_pubkey := None; oracle_signature := None |} in
  let amr_without_sig :=
    VDict [
      ("amr_version", VStr "0.1");
      ("record_id", VStr "");
      ("consumer_agent_id", VStr consumer_agent_id);
      ("provider_agent_id", VStr provider_agent_id);
      ("resource_class", VStr resource_class);
      ("resource_subtype", VStr resource_subtype);
      ("metering", VDict [ ("quantity", VInt quantity);
                           ("unit", VStr unit);
                           ("start_ms", VInt start_ms);
                           ("end_ms", VInt end_ms);
                           ("duration_ms", VInt duration_ms) ]);
      ("attestation", VDict ([ ("method", VStr attestation_method);
                               ("confidence_bps", VInt (confidence_bps attestation)) ]
                             ++ opt_entry "tee_quote" tee_quote
                             ++ opt_entry "meter_id" meter_id
                             ++ opt_entry "oracle_id" oracle_id));
      ("pricing", VDict [ ("rate_micros_per_unit", VInt rate_micros_per_unit);
                          ("total_micros", VInt total_micros);
                          ("currency", VStr "USD") ]);
      ("context", VDict ([ ("request_hash", VStr request_hash);
                           ("response_hash", VStr response_hash) ]
                         ++ opt_entry "session_id" session_id
                         ++ opt_entry "parent_amr_id" parent_amr_id));
      ("timestamp_ms", VInt now);
      ("amr_hash", VStr "") ] in
  bytes ← canonicalize_bytes amr_without_sig;
  let content_hash := hash_bytes bytes in
  signature ← sign content_hash provider_private_key;
  Ok {| amr_version := "0.1";
        record_id := content_hash;
        consumer_agent_id := consumer_agent_id;
        provider_agent_id := provider_agent_id;
        resource_class := resource_class;
        resource_subtype := resource_subtype;
        metering := {| quantity := quantity; unit := unit; start_ms := start_ms;
                       end_ms := end_ms; duration_ms := duration_ms;
                       breakdown := None |};
        attestation := attestation;
        pricing := {| rate_micros_per_unit := rate_micros_per_unit;
                      total_micros := total_micros; currency := "USD" |};
        context := {| request_hash := request_hash; response_hash := response_hash;
                      session_id := session_id; parent_amr_id := parent_amr_id |};
        timestamp_ms := now;
        amr_hash := content_hash;
        provider_signature := signature;
        consumer_signature := None |}.

(** [cosign_amr] sets [consumer_signature] on the record it is given and
    returns that record. *)
Definition cosign_amr (amr : AMR) (consumer_private_key : string) : result AMR :=
  signature ← sign (amr_hash amr) consumer_private_key;
  Ok {| amr_version := amr_version amr; record_id := record_id amr;
        consumer_agent_id := consumer_agent_id amr;
        provider_agent_id := provider_agent_id amr;
        resource_class := resource_class amr;
        resource_subtype := resource_subtype amr;
        metering := metering amr; attestation := attestation amr;
        pricing := pricing amr; context := context amr;
        timestamp_ms := timestamp_ms amr; amr_hash := amr_hash amr;
        provider_signature := provider_signature amr;
        consumer_signature := Some signature |}.

(** [verify_amr] returns [provider_valid] and [consumer_valid], the latter
    [None] when there is no consumer signature. *)
Definition verify_amr (amr : AMR) : bool * option bool :=
  let provider_valid :=
    verify (amr_hash amr) (provider_signature amr) (provider_agent_id amr) in
  let consumer_valid :=
    match consumer_signature amr with
    | Some signature =>
        if String.eqb signature "" then None
        else Some (verify (amr_hash amr) signature (consumer_agent_id amr))
    | None => None
    end in
  (provider_valid, consumer_valid).
End Records.

(** The dictionary [make_amr] hashes, [amr_without_sig] before the hash is
    written into it, and the integers it holds beside the confidence. *)
Definition amr_content (now : Z)
    (consumer_agent_id provider_agent_id resource_class resource_subtype : string)
    (quantity : Z) (unit : string) (start_ms end_ms : Z) (attestation_method : string)
    (rate_micros_per_unit : Z) (request_hash response_hash : string)
    (tee_quote meter_id oracle_id session_id parent_amr_id : option string) : value :=
  VDict [
    ("amr_version", VStr "0.1");
    ("record_id", VStr "");
    ("consumer_agent_id", VStr consumer_agent_id);
    ("provider_agent_id", VStr provider_agent_id);
    ("resource_class", VStr resource_class);
    ("resource_subtype", VStr resource_subtype);
    ("metering", VDict [ ("quantity", VInt quantity);
                         ("unit", VStr unit);
                         ("start_ms", VInt start_ms);
                         ("end_ms", VInt end_ms);
                         ("duration_ms", VInt (end_ms - start_ms)) ]);
    ("attestation", VDict ([ ("method", VStr attestation_method);
                             ("confidence_bps",
                               VInt (get_confidence_bps attestation_method)) ]
                           ++ opt_entry "tee_quote" tee_quote
                           ++ opt_entry "meter_id" meter_id
                           ++ opt_entry "oracle_id" oracle_id));
    ("pricing", VDict [ ("rate_micros_per_unit", VInt rate_micros_per_unit);
                        ("total_micros", VInt (quantity * rate_micros_per_unit));
                        ("currency", VStr "USD") ]);
    ("context", VDict ([ ("request_hash", VStr request_hash);
                         ("response_hash", VStr response_hash) ]
                       ++ opt_entry "session_id" session_id
                       ++ opt_entry "parent_amr_id" parent_amr_id));
    ("timestamp_ms", VInt now);
    ("amr_hash", VStr "") ].

Definition amr_integers (now quantity start_ms end_ms rate_micros_per_unit : Z) : list Z :=
  [ quantity; start_ms; end_ms; end_ms - start_ms; rate_micros_per_unit;
    quantity * rate_micros_per_unit; now ].

(** The totals of a class once the record [a] is added. *)
Definition class_add (t : ClassTotals) (a : AMR) : ClassTotals :=
  {| class_quantity := class_quantity t + quantity (metering a);
     class_micros := class_micros t + total_micros (pricing a) |}.

Definition meets_confidence_threshold (amr : AMR) (min_confidence_bps : Z) : bool :=
  min_confidence_bps <=? confidence_bps (attestation amr).

(** The records of class [c], and the totals of a class that has none yet. *)
Definition of_class (c : string) (amrs : list AMR) : list AMR :=
  filter (λ a, resource_class a = c) amrs.

Definition class_totals (amrs : list AMR) : ClassTotals :=
  {| class_quantity := sum ((λ a, quantity (metering a)) <$> amrs);
     class_micros := sum ((λ a, total_micros (pricing a)) <$> amrs) |}.

(** A record with other metering and pricing, everything else as it was. *)
Definition with_metering_pricing (amr : AMR) (m : Metering) (p : Pricing) : AMR :=
  {| amr_version := amr_version amr; record_id := record_id amr;
     consumer_agent_id := consumer_agent_id amr;
     provider_agent_id := provider_agent_id amr;
     resource_class := resource_class amr;
     resource_subtype := resource_subtype amr;
     metering := m; attestation := attestation amr;
     pricing := p; context := context amr;
     timestamp_ms := timestamp_ms amr; amr_hash := amr_hash amr;
     provider_signature := provider_signature amr;
     consumer_signature := consumer_signature amr |}.

(** A record of [quantity] units for [price] in class [resource_class], to
    write examples down. *)
Definition record (resource_class : string) (quantity price confidence : Z) : AMR :=
  {| amr_version := "0.1"; record_id := "r"; consumer_agent_id := "c";
     provider_agent_id := "p"; resource_class := resource_class;
     resource_subtype := "gpu_h100";
     metering := {| quantity := quantity; unit := "gpu_seconds"; start_ms := 0;
                    end_ms := 5; duration_ms := 5; breakdown := None |};
     attestation := {| att_method := "TEE"; confidence_bps := confidence;
                       tee_quote := None; tee_type := None; enclave_hash := None;
                       meter_id := None; meter_pubkey := None;
                       meter_signature := None; oracle_id := None;
                       oracle_pubkey := None; oracle_signature := None |};
     pricing := {| rate_micros_per_unit := 1000; total_micros := price;
                   currency := "USD" |};
     context := {| request_hash := "q"; response_hash := "s"; session_id := None;
                   parent_amr_id := None |};
     timestamp_ms := 1; amr_hash := "r"; provider_signature := "00";
     consumer_signature := None |}.

End Amr.

(** ** Future commitments ([fc.py]) *)

Module Fc.
Import Canonical.

Record DeliveryWindow : Type := {
  start_ms : Z;
  end_ms : Z
}.

Definition window_to_dict (w : DeliveryWindow) : value :=
  VDict [ ("start_ms", VInt (start_ms w)); ("end_ms", VInt (end_ms w)) ].

Record Penalty : Type := {
  penalty_usd_micros : Z;
  rule_hash : string
}.

Definition penalty_to_dict (p : Penalty) : value :=
  VDict [ ("penalty_usd_micros", VInt (penalty_usd_micros p));
          ("rule_hash", VStr (rule_hash p)) ].

Record FC : Type := {
  fc_version : string;
  issuer_agent_id : string;
  counterparty_agent_id : string;
  resource_type : string;
  units : Z;
  unit_type : string;
  delivery_window : DeliveryWindow;
  penalty : Penalty;
  collateral : option Z;
  commitment_hash : string;
  signature_ed25519 : string
}.

Definition opt_int (o : option Z) : value :=
  match o with Some n => VInt n | None => VNone end.

Definition to_dict (fc : FC) : list (string * value) :=
  [ ("fc_version", VStr (fc_version fc));
    ("issuer_agent_id", VStr (issuer_agent_id fc));
    ("counterparty_agent_id", VStr (counterparty_agent_id fc));
    ("resource_type", VStr (resource_type fc));
    ("units", VInt (units fc));
    ("unit_type", VStr (unit_type fc));
    ("delivery_window", window_to_dict (delivery_window fc));
    ("penalty", penalty_to_dict (penalty fc));
    ("collateral", opt_int (collateral fc));
    ("commitment_hash", VStr (commitment_hash fc));
    ("signature_ed25519", VStr (signature_ed25519 fc)) ].

Section Commitments.
Variable hash_bytes : string → string.
Variable sign : string → string → result string.
Variable verify : string → string → string → bool.

Definition compute_commitment_hash (issuer_agent_id counterparty_agent_id
    resource_type : string) (units : Z) (delivery_window : DeliveryWindow)
    : result string :=
  let data := VDict [ ("issuer", VStr issuer_agent_id);
                      ("counterparty", VStr counterparty_agent_id);
                      ("resource", VStr resource_type);
                      ("units", VInt units);
                      ("window", window_to_dict delivery_window) ] in
  bytes ← canonicalize_bytes data;
  Ok (hash_bytes bytes).

Definition make_fc (issuer_agent_id counterparty_agent_id resource_type : string)
    (units : Z) (unit_type : string) (delivery_window : DeliveryWindow)
    (penalty : Penalty) (private_key : string) (collateral : option Z) : result FC :=
  commitment_hash ← compute_commitment_hash issuer_agent_id counterparty_agent_id
                      resource_type units delivery_window;
  let fc_data :=
    VDict [ ("fc_version", VStr "0.1");
            ("issuer_agent_id", VStr issuer_agent_id);
            ("counterparty_agent_id", VStr counterparty_agent_id);
            ("resource_type", VStr resource_type);
            ("units", VInt units);
            ("unit_type", VStr unit_type);
            ("delivery_window", window_to_dict delivery_window);
            ("penalty", penalty_to_dict penalty);
            ("collateral", opt_int collateral);
            ("commitment_hash", VStr commitment_hash) ] in
  canonical_bytes ← canonicalize_bytes fc_data;
  let fc_hash := hash_bytes canonical_bytes in
  signature ← sign fc_hash private_key;
  Ok {| fc_version := "0.1";
        issuer_agent_id := issuer_agent_id;
        counterparty_agent_id := counterparty_agent_id;
        resource_type := resource_type;
        units := units;
        unit_type := unit_type;
        delivery_window := delivery_window;
        penalty := penalty;
        collateral := collateral;
        commitment_hash := commitment_hash;
        signature_ed25519 := signature |}.

(** [verify_fc] returns [(valid, hash, error_message)]. *)
Definition verify_fc (fc : FC) (public_key : string)
    : result (bool * string * option string) :=
  if negb (String.eqb (fc_version fc) "0.1")
  then Ok (false, "", Some "Invalid fc_version")
  else if String.eqb (issuer_agent_id fc) (counterparty_agent_id fc)
  then Ok (false, "", Some "Issuer and counterparty cannot be same")
  else if units fc <=? 0
  then Ok (false, "", Some "Units must be positive")
  else if end_ms (delivery_window fc) <=? start_ms (delivery_window fc)
  then Ok (false, "", Some "Invalid delivery window")
  else if penalty_usd_micros (penalty fc) <=? 0
  then Ok (false, "", Some "Penalty must be positive")
  else
    expected_hash ← compute_commitment_hash (issuer_agent_id fc)
                      (counterparty_agent_id fc) (resource_type fc) (units fc)
                      (delivery_window fc);
    if negb (String.eqb (commitment_hash fc) expected_hash)
    then Ok (false, "", Some "Invalid commitment hash")
    else
      fc_dict ← dict_del "signature_ed25519" (to_dict fc);
      bytes ← canonicalize_bytes (VDict fc_dict);
      let fc_hash := hash_bytes bytes in
      if negb (verify fc_hash (signature_ed25519 fc) public_key)
      then Ok (false, fc_hash, Some "Invalid signature")
      else Ok (true, fc_hash, None).
End Commitments.

End Fc.

(** ** Metering utilities ([meter.py]) *)

Module Meter.
Import Amr.

Section Inference.
Variable hash_bytes : string → string.
Variable sign : string → string → result string.

(** [make_inference_meter]; [attestation_method] is [SIGNED_METER] when it
    is not given. *)
Definition make_inference_meter (now : Z)
    (consumer_agent_id provider_agent_id model_name : string) (tokens start_ms end_ms
       rate_micros_per_1k_tokens : Z)
    (request_hash response_hash provider_private_key attestation_method : string)
    (session_id : option string) : result AMR :=
  quantity ← (if 1000 <=? tokens then floordiv tokens 1000 else Ok 1);
  make_amr hash_bytes sign now consumer_agent_id provider_agent_id "INFERENCE"
    model_name quantity "tokens_1k" start_ms end_ms attestation_method
    rate_micros_per_1k_tokens request_hash response_hash provider_private_key
    None None None None None None session_id None.
End Inference.

End Meter.

(** * Properties *)

Module PyFacts.

Lemma bind_Ok {A B} (a : A) (f : A → result B) : (Ok a ≫= f) = f a.
Proof. done. Qed.

Lemma bind_Raise {A B} e (f : A → result B) : (Raise e ≫= f) = Raise e.
Proof. done. Qed.


Section Sorted.
Context {A : Type} (le : A → A → bool).

Lemma insert_sorted_Permutation x l : insert_sorted le x l ≡ₚ x :: l.
Proof.
  induction l as [|y l IH]; simpl; [done|].
  destruct (le x y); [done|]. rewrite IH. apply Permutation_swap.
Qed.

Lemma sorted_Permutation l : sorted le l ≡ₚ l.
Proof.
  induction l as [|x l IH]; simpl; [done|].
  unfold sorted in *. simpl. by rewrite insert_sorted_Permutation, IH.
Qed.

Lemma sorted_length l : length (sorted le l) = length l.
Proof. by rewrite sorted_Permutation. Qed.

Lemma elem_of_sorted x l : x ∈ sorted le l ↔ x ∈ l.
Proof. by rewrite sorted_Permutation. Qed.

Lemma sorted_NoDup l : NoDup l → NoDup (sorted le l).
Proof. by rewrite sorted_Permutation. Qed.

Hypothesis le_total : ∀ x y, le x y = true ∨ le y x = true.

Lemma HdRel_insert_sorted a x l :
  le a x → HdRel le a l → HdRel le a (insert_sorted le x l).
Proof.
  intros Hax Hal. destruct l as [|y l]; simpl; [by constructor|].
  destruct (le x y); constructor; [done|]. by inversion Hal.
Qed.

Lemma Sorted_insert_sorted x l : Sorted le l → Sorted le (insert_sorted le x l).
Proof.
  induction 1 as [|y l Hl IH Hhd]; simpl; [by repeat constructor|].
  destruct (le x y) eqn:Hxy.
  - constructor; [by constructor|]. constructor. by rewrite Hxy.
  - constructor; [done|]. apply HdRel_insert_sorted; [|done].
    destruct (le_total x y) as [H|H]; [congruence|by rewrite H].
Qed.

Lemma Sorted_sorted l : Sorted le (sorted le l).
Proof.
  induction l as [|x l IH]; [constructor|]. by apply Sorted_insert_sorted.
Qed.
End Sorted.

Lemma Sorted_weaken {A} (R1 R2 : A → A → Prop) l :
  (∀ a b, R1 a b → R2 a b) → Sorted R1 l → Sorted R2 l.
Proof.
  intros HR. induction 1 as [|x l Hl IH Hhd]; constructor; [done|].
  destruct Hhd; constructor; auto.
Qed.

Section StronglySorted.
Context {A : Type} (key : A → Z).

Lemma StronglySorted_sorted_by l :
  StronglySorted (λ a b, key a ≤ key b) (sorted_by Z.leb key l).
Proof.
  apply Sorted_StronglySorted; [intros a b c; lia|].
  eapply Sorted_weaken; [|apply (Sorted_sorted (λ a b, key a <=? key b))].
  - intros a b Hab. apply Is_true_true in Hab. lia.
  - intros a b. lia.
Qed.
End StronglySorted.

Lemma sorted_by_Permutation {A K} (le : K → K → bool) (key : A → K) l :
  sorted_by le key l ≡ₚ l.
Proof. apply sorted_Permutation. Qed.

Lemma string_leb_total s1 s2 : String.leb s1 s2 = true ∨ String.leb s2 s1 = true.
Proof. apply String.leb_total. Qed.

Lemma Sorted_sorted_strings l : Sorted String.le (sorted String.leb l).
Proof. apply (Sorted_sorted String.leb), string_leb_total. Qed.

(** Sorting strings forgets the order they came in. *)
Lemma sorted_strings_Permutation l1 l2 :
  l1 ≡ₚ l2 → sorted String.leb l1 = sorted String.leb l2.
Proof.
  intros Hl. apply (Sorted_unique String.le); try apply Sorted_sorted_strings.
  by rewrite !sorted_Permutation.
Qed.

Lemma Z_leb_total (x y : Z) : (x <=? y) = true ∨ (y <=? x) = true.
Proof. lia. Qed.

Section ForEach.
Context {A B : Type} (f : A → result B).

Lemma for_each_cons x l :
  for_each f (x :: l) = y ← f x; ys ← for_each f l; Ok (y :: ys).
Proof. done. Qed.

Lemma for_each_Ok l ys :
  for_each f l = Ok ys ↔ Forall2 (λ x y, f x = Ok y) l ys.
Proof.
  revert ys. induction l as [|x l IH]; intros ys; simpl.
  - split; [by intros [= <-]; constructor|by inversion 1].
  - destruct (f x) as [y|e] eqn:Hx; simpl.
    + destruct (for_each f l) as [zs|e] eqn:Hl; simpl.
      * split.
        -- intros [= <-]. constructor; [done|]. by apply IH.
        -- inversion 1 as [|???? Hy Hzs]; simplify_eq. apply IH in Hzs. congruence.
      * split; [done|]. inversion 1 as [|???? Hy Hzs]; simplify_eq.
        apply IH in Hzs. done.
    + split; [done|]. inversion 1; congruence.
Qed.

Lemma for_each_Raise l e :
  for_each f l = Raise e → ∃ x, x ∈ l ∧ f x = Raise e.
Proof.
  induction l as [|x l IH]; simpl; [done|].
  destruct (f x) as [y|e'] eqn:Hx; simpl.
  - destruct (for_each f l) as [zs|e'] eqn:Hl; simpl; [done|].
    intros [= <-]. destruct IH as (x' & ? & ?); [done|].
    exists x'. split; [by right|done].
  - intros [= <-]. exists x. split; [by left|done].
Qed.

Lemma for_each_all_ok l :
  (∀ x, x ∈ l → ∃ y, f x = Ok y) → ∃ ys, for_each f l = Ok ys.
Proof.
  intros Hl. destruct (for_each f l) as [ys|e] eqn:Hf; [by eexists|].
  apply for_each_Raise in Hf as (x & Hx & Hfx).
  destruct (Hl x Hx) as [y Hy]. congruence.
Qed.

Lemma for_each_some_raise l x e :
  x ∈ l → f x = Raise e → ∃ e', for_each f l = Raise e'.
Proof.
  intros Hx Hfx. destruct (for_each f l) as [ys|e'] eqn:Hf; [|by eexists].
  apply for_each_Ok in Hf.
  apply list_elem_of_lookup in Hx as [i Hi].
  destruct (Forall2_lookup_l _ _ _ _ _ Hf Hi) as (y & _ & Hy). congruence.
Qed.

Lemma for_each_length l ys : for_each f l = Ok ys → length ys = length l.
Proof. intros H%for_each_Ok. by apply Forall2_length in H. Qed.
End ForEach.

Lemma for_each_Permutation_Ok {A B} (f : A → result B) l1 l2 :
  l1 ≡ₚ l2 → ∀ ys1, for_each f l1 = Ok ys1 →
  ∃ ys2, for_each f l2 = Ok ys2 ∧ ys1 ≡ₚ ys2.
Proof.
  induction 1 as [|x l1 l2 _ IH|x y l|l1 l2 l3 _ IH1 _ IH2]; intros ys1.
  - intros [= <-]. by exists [].
  - rewrite !for_each_cons. destruct (f x) as [y|]; [|done]. rewrite !bind_Ok.
    destruct (for_each f l1) as [zs|] eqn:E; [|done]. rewrite bind_Ok. intros [= <-].
    destruct (IH zs eq_refl) as (zs' & -> & Hzs). exists (y :: zs').
    split; [done|]. by constructor.
  - rewrite !for_each_cons. destruct (f y) as [y'|]; [|done].
    destruct (f x) as [x'|]; [|done]. rewrite !bind_Ok.
    destruct (for_each f l) as [zs|] eqn:E; [|done]. rewrite !bind_Ok. intros [= <-].
    exists (x' :: y' :: zs). split; [done|]. apply Permutation_swap.
  - intros H1. destruct (IH1 _ H1) as (ys2 & H2 & Hp12).
    destruct (IH2 _ H2) as (ys3 & H3 & Hp23). exists ys3. split; [done|]. by etrans.
Qed.

Lemma for_each_keyed {A B} (f : A → result B) l ys :
  for_each f l = Ok ys → for_each (λ x, y ← f x; Ok (y, x)) l = Ok (zip ys l).
Proof.
  revert ys. induction l as [|x l IH]; intros ys.
  - by intros [= <-].
  - rewrite !for_each_cons. destruct (f x) as [y|]; [|done]. rewrite !bind_Ok.
    destruct (for_each f l) as [zs|] eqn:E; [|done]. rewrite bind_Ok. intros [= <-].
    by rewrite (IH zs eq_refl), bind_Ok.
Qed.

Lemma for_each_ext {A B} (f g : A → result B) l :
  (∀ x, x ∈ l → f x = g x) → for_each f l = for_each g l.
Proof.
  induction l as [|x l IH]; intros Hfg; simpl; [done|].
  rewrite Hfg by left. rewrite IH; [done|]. intros y Hy. apply Hfg. by right.
Qed.

Lemma for_each_fmap {A B C} (f : B → result C) (g : A → B) l :
  for_each f (g <$> l) = for_each (λ x, f (g x)) l.
Proof.
  induction l as [|x l IH]; [done|]. by rewrite fmap_cons, !for_each_cons, IH.
Qed.

Lemma for_each_total {A B} (f : A → B) l :
  for_each (λ x, Ok (f x)) l = Ok (f <$> l).
Proof. induction l as [|x l IH]; simpl; [done|]. by rewrite IH. Qed.

Lemma foldl_add_acc (a : Z) l : foldl Z.add a l = a + sum l.
Proof.
  unfold sum. revert a. induction l as [|x l IH]; intros a; simpl; [lia|].
  rewrite (IH (a + x)), (IH (0 + x)). lia.
Qed.

Lemma sum_nil : sum [] = 0.
Proof. done. Qed.

Lemma sum_cons x l : sum (x :: l) = x + sum l.
Proof. unfold sum at 1. simpl. by rewrite foldl_add_acc. Qed.

Lemma sum_app l1 l2 : sum (l1 ++ l2) = sum l1 + sum l2.
Proof.
  induction l1 as [|x l1 IH]; simpl; [by rewrite sum_nil|]. rewrite !sum_cons, IH. lia.
Qed.

Lemma sum_Permutation l1 l2 : l1 ≡ₚ l2 → sum l1 = sum l2.
Proof.
  induction 1 as [|x l1 l2 _ IH|x y l|l1 l2 l3 _ IH1 _ IH2];
    rewrite ?sum_cons; lia.
Qed.

Lemma sum_nonneg l : Forall (λ x, 0 ≤ x) l → 0 ≤ sum l.
Proof. induction 1 as [|x l Hx _ IH]; [done|]. rewrite sum_cons. lia. Qed.

Lemma floordiv_Ok a b : b ≠ 0 → floordiv a b = Ok (a `div` b).
Proof. intros Hb. unfold floordiv. by destruct (Z.eqb_spec b 0). Qed.

End PyFacts.

Module CanonicalFacts.
Import Canonical PyFacts.

Lemma dict_get_fmap {V W} (g : V → W) k (d : list (string * V)) :
  dict_get k ((λ kv, (kv.1, g kv.2)) <$> d) = g <$> dict_get k d.
Proof.
  induction d as [|[k' v] d IH]; simpl; [done|]. by destruct (String.eqb k k').
Qed.

Lemma dict_get_Some {V} k (v : V) d : dict_get k d = Some v → (k, v) ∈ d.
Proof.
  induction d as [|[k' v'] d IH]; simpl; [done|].
  destruct (String.eqb_spec k k') as [->|Hne].
  - intros [= ->]. by left.
  - intros H. right. by apply IH.
Qed.

Lemma dict_get_NoDup {V} k (v : V) d :
  NoDup (d.*1) → (k, v) ∈ d → dict_get k d = Some v.
Proof.
  induction d as [|[k' v'] d IH]; simpl; [by inversion 2|].
  intros [Hk' Hd]%NoDup_cons [[= -> ->]|Hin]%elem_of_cons.
  - by rewrite String.eqb_refl.
  - destruct (String.eqb_spec k k') as [->|Hne]; [|by apply IH].
    destruct Hk'. apply list_elem_of_fmap. by exists (k', v).
Qed.

Lemma dict_get_is_Some {V} k (d : list (string * V)) :
  k ∈ d.*1 → is_Some (dict_get k d).
Proof.
  induction d as [|[k' v'] d IH]; simpl; [by inversion 1|].
  intros [->|Hin]%elem_of_cons.
  - rewrite String.eqb_refl. by eexists.
  - destruct (String.eqb k k'); [by eexists|by apply IH].
Qed.

Lemma dict_get_Permutation {V} k (d1 d2 : list (string * V)) :
  NoDup (d1.*1) → d1 ≡ₚ d2 → dict_get k d1 = dict_get k d2.
Proof.
  intros Hnd Hp.
  assert (NoDup (d2.*1)) as Hnd2 by (by rewrite <-Hp).
  destruct (dict_get k d1) as [v|] eqn:H1.
  - symmetry. apply dict_get_NoDup; [done|]. rewrite <-Hp. by apply dict_get_Some.
  - destruct (dict_get k d2) as [v|] eqn:H2; [|done].
    apply dict_get_Some in H2. rewrite <-Hp in H2.
    apply dict_get_NoDup in H2; [congruence|done].
Qed.

Lemma canonicalize_dict d :
  canonicalize (VDict d) =
    pairs ← for_each (render_pair d) (sorted String.leb (d.*1));
    Ok ("{" +:+ join "," pairs +:+ "}").
Proof.
  simpl. f_equal. apply for_each_ext. intros k _. unfold render_pair.
  rewrite (dict_get_fmap canonicalize). by destruct (dict_get k d).
Qed.

Lemma canonicalize_list l :
  canonicalize (VList l) =
    elements ← for_each canonicalize l; Ok ("[" +:+ join "," elements +:+ "]").
Proof. done. Qed.

(** The codec is total on the canonical domain. *)
Lemma canonicalize_total v : in_domain v = true → ∃ s, canonicalize v = Ok s.
Proof.
  induction v as [| | | | |l IH|d IH|] using value_ind; simpl; intros Hdom;
    try done; try (by eexists).
  - rewrite Hdom. by eexists.
  - rewrite Forall_forall in IH. rewrite forallb_forall in Hdom.
    assert (∃ ys, for_each canonicalize l = Ok ys) as [ys ->].
    { apply for_each_all_ok. intros x Hx. apply IH; [done|].
      by apply Hdom, list_elem_of_In. }
    by eexists.
  - change (∃ s, canonicalize (VDict d) = Ok s). rewrite canonicalize_dict.
    rewrite Forall_forall in IH. rewrite forallb_forall in Hdom.
    assert (∃ ys, for_each (render_pair d) (sorted String.leb (d.*1)) = Ok ys)
      as [ys ->]; [|by eexists].
    apply for_each_all_ok. intros k Hk%elem_of_sorted. unfold render_pair.
    destruct (dict_get_is_Some k d Hk) as [v Hv]. rewrite Hv.
    apply dict_get_Some in Hv.
    assert (∃ s, canonicalize v = Ok s) as [s ->]; [|by eexists].
    apply (IH (k, v) Hv). by apply (Hdom (k, v)), list_elem_of_In.
Qed.

Lemma forallb_false_elem {A} (f : A → bool) l :
  forallb f l = false → ∃ x, x ∈ l ∧ f x = false.
Proof.
  induction l as [|x l IH]; simpl; [done|].
  destruct (f x) eqn:Hx; simpl.
  - intros (y & ? & ?)%IH. exists y. split; [by right|done].
  - intros _. exists x. split; [by left|done].
Qed.

(** Outside the domain the codec raises. *)
Lemma canonicalize_rejects v :
  distinct_keys v = true → in_domain v = false → ∃ e, canonicalize v = Raise e.
Proof.
  induction v as [| | | | |l IH|d IH|] using value_ind; simpl; intros Hwf Hdom;
    try done; try (by eexists).
  - rewrite Hdom. by eexists.
  - rewrite Forall_forall in IH. rewrite forallb_forall in Hwf.
    apply forallb_false_elem in Hdom as (x & Hx & Hxd).
    assert (∃ e, canonicalize x = Raise e) as [e He].
    { apply IH; [done| |done]. by apply Hwf, list_elem_of_In. }
    destruct (for_each_some_raise canonicalize l x e Hx He) as [e' ->]. by eexists.
  - apply andb_prop in Hwf as [Hnd%bool_decide_eq_true Hwf].
    rewrite Forall_forall in IH. rewrite forallb_forall in Hwf.
    apply forallb_false_elem in Hdom as ([k v] & Hkv & Hkd).
    assert (∃ e, canonicalize v = Raise e) as [e He].
    { apply (IH (k, v)); [done| |done]. by apply (Hwf (k, v)), list_elem_of_In. }
    change (∃ e, canonicalize (VDict d) = Raise e). rewrite canonicalize_dict.
    assert (∃ e', for_each (render_pair d) (sorted String.leb (d.*1)) = Raise e')
      as [e' ->]; [|by eexists].
    apply (for_each_some_raise _ _ k e).
    + apply elem_of_sorted, list_elem_of_fmap. by exists (k, v).
    + unfold render_pair. rewrite (dict_get_NoDup k v d Hnd Hkv). by rewrite He.
Qed.

Lemma in_domain_dict_del k d d' :
  dict_del k d = Ok d' → in_domain (VDict d) = true → in_domain (VDict d') = true.
Proof.
  unfold dict_del. destruct (existsb _ d); [|done]. intros [= <-]. simpl.
  rewrite !forallb_forall. intros Hd kv [Hkv _]%filter_In. by apply Hd.
Qed.

Lemma json_shaped_dict_del k d d' :
  dict_del k d = Ok d' → json_shaped (VDict d) = true → json_shaped (VDict d') = true.
Proof.
  unfold dict_del. destruct (existsb _ d); [|done]. intros [= <-]. simpl.
  rewrite !forallb_forall. intros Hd kv [Hkv _]%filter_In. by apply Hd.
Qed.

(** On JSON-shaped values the only complaint is about the integer range. *)
Lemma canonicalize_Raise_range v e :
  json_shaped v = true → canonicalize v = Raise e →
  e = ValueError "Number outside safe integer range".
Proof.
  revert e. induction v as [| |n| | |l IH|d IH|] using value_ind; intros e Hjs; try done.
  - simpl. destruct (safe_integer n); [done|]. by intros [= <-].
  - rewrite canonicalize_list.
    destruct (for_each canonicalize l) as [ys|e'] eqn:Hl; [done|].
    rewrite bind_Raise. intros [= ->].
    apply for_each_Raise in Hl as (x & Hx & Hxe).
    rewrite Forall_forall in IH. apply (IH x Hx); [|done].
    simpl in Hjs. rewrite forallb_forall in Hjs. by apply Hjs, list_elem_of_In.
  - rewrite canonicalize_dict.
    destruct (for_each (render_pair d) _) as [ys|e'] eqn:Hd; [done|].
    rewrite bind_Raise. intros [= ->].
    apply for_each_Raise in Hd as (k & Hk%elem_of_sorted & Hke).
    unfold render_pair in Hke. destruct (dict_get_is_Some k d Hk) as [v Hv].
    rewrite Hv in Hke. apply dict_get_Some in Hv.
    destruct (canonicalize v) as [s|e'] eqn:Hcv; [done|]. injection Hke as ->.
    rewrite Forall_forall in IH. apply (IH (k, v) Hv); [|done].
    simpl in Hjs. rewrite forallb_forall in Hjs. by apply (Hjs (k, v)), list_elem_of_In.
Qed.

(** *** [str(n)] writes the shortest base-10 numeral of [n] *)

Lemma string_app_cons c (s t : string) : String c s +:+ t = String c (s +:+ t).
Proof. done. Qed.

Lemma string_app_nil_l (t : string) : "" +:+ t = t.
Proof. done. Qed.

Lemma string_app_assoc (s1 s2 s3 : string) : (s1 +:+ s2) +:+ s3 = s1 +:+ (s2 +:+ s3).
Proof.
  induction s1 as [|c s1 IH]; [done|]. by rewrite !string_app_cons, IH.
Qed.

Lemma string_length_app (s1 s2 : string) :
  String.length (s1 +:+ s2) = (String.length s1 + String.length s2)%nat.
Proof.
  induction s1 as [|c s1 IH]; [done|]. rewrite string_app_cons. simpl. by rewrite IH.
Qed.

Lemma pretty_N_go_app x s : pretty_N_go x s = digits x +:+ s.
Proof.
  unfold digits. revert s. induction (N.lt_wf_0 x) as [x _ IH]; intros s.
  destruct (decide (x = 0%N)) as [->|Hx]; [by rewrite !pretty_N_go_0|].
  assert (x `div` 10 < x)%N as Hlt by (apply N.div_lt; lia).
  rewrite !(pretty_N_go_step x) by lia.
  rewrite (IH _ Hlt (String _ s)), (IH _ Hlt (String _ "")).
  by rewrite string_app_assoc.
Qed.

Lemma digits_step x :
  (0 < x)%N → digits x = digits (x `div` 10) +:+ String (pretty_N_char (x `mod` 10)) "".
Proof. intros Hx. unfold digits at 1. by rewrite pretty_N_go_step, pretty_N_go_app. Qed.

Lemma digits_value_app acc s1 s2 :
  digits_value acc (s1 +:+ s2) = a ← digits_value acc s1; digits_value a s2.
Proof.
  revert acc. induction s1 as [|c s1 IH]; intros acc; [done|].
  rewrite string_app_cons. simpl.
  destruct (digit_value c); simpl; [apply IH|done].
Qed.

Lemma digit_value_char d : (d < 10)%N → digit_value (pretty_N_char d) = Some (Z.of_N d).
Proof.
  intros Hd.
  assert (d = 0 ∨ d = 1 ∨ d = 2 ∨ d = 3 ∨ d = 4 ∨ d = 5 ∨ d = 6 ∨ d = 7 ∨ d = 8 ∨ d = 9)%N
    as Hcases by lia.
  repeat (destruct Hcases as [->|Hcases]; [done|]). by subst.
Qed.

Lemma digit_value_bound c d : digit_value c = Some d → 0 ≤ d ≤ 9.
Proof.
  unfold digit_value. destruct (_ && _) eqn:E; [|done]. intros [= <-]. lia.
Qed.

Lemma digits_value_digits x : digits_value 0 (digits x) = Some (Z.of_N x).
Proof.
  induction (N.lt_wf_0 x) as [x _ IH].
  destruct (decide (x = 0%N)) as [->|Hx]; [done|].
  rewrite digits_step, digits_value_app by lia.
  rewrite (IH (x `div` 10)%N) by (apply N.div_lt; lia). simpl.
  rewrite digit_value_char by (apply N.mod_lt; lia). simpl. f_equal.
  rewrite (N.div_mod x 10) at 3 by lia. lia.
Qed.

Lemma digits_value_bounds s acc v :
  0 ≤ acc → digits_value acc s = Some v →
  acc * 10 ^ Z.of_nat (String.length s) ≤ v < (acc + 1) * 10 ^ Z.of_nat (String.length s).
Proof.
  revert acc. induction s as [|c s IH]; intros acc Hacc; simpl String.length.
  - intros [= <-]. simpl. lia.
  - simpl. destruct (digit_value c) as [d|] eqn:Hd; simpl; [|done].
    apply digit_value_bound in Hd. intros Hv. apply IH in Hv; [|lia].
    rewrite Nat2Z.inj_succ, Z.pow_succ_r by lia.
    assert (0 < 10 ^ Z.of_nat (String.length s)) by (apply Z.pow_pos_nonneg; lia).
    nia.
Qed.

Lemma digits_nonempty x : (0 < x)%N → digits x ≠ "".
Proof.
  intros Hx Heq. pose proof (digits_value_digits x) as H.
  rewrite Heq in H. simpl in H. injection H. lia.
Qed.

Lemma digits_length_lower x :
  (0 < x)%N → 10 ^ (Z.of_nat (String.length (digits x)) - 1) ≤ Z.of_N x.
Proof.
  induction (N.lt_wf_0 x) as [x _ IH]. intros Hx.
  rewrite digits_step, string_length_app by done. simpl String.length.
  replace (Z.of_nat (String.length (digits (x `div` 10)) + 1) - 1)
    with (Z.of_nat (String.length (digits (x `div` 10)))) by lia.
  destruct (decide (x `div` 10 = 0)%N) as [Hq|Hq].
  - rewrite Hq. simpl. lia.
  - assert (x `div` 10 < x)%N as Hlt by (apply N.div_lt; lia).
    assert (0 < x `div` 10)%N as Hpos by (by apply N.neq_0_lt_0).
    specialize (IH (x `div` 10)%N Hlt Hpos).
    assert (String.length (digits (x `div` 10)) ≠ 0%nat) as Hlen.
    { intros Hl. apply (digits_nonempty (x `div` 10)%N); [lia|].
      by destruct (digits (x `div` 10)). }
    replace (Z.of_nat (String.length (digits (x `div` 10))))
      with (Z.succ (Z.of_nat (String.length (digits (x `div` 10))) - 1)) by lia.
    rewrite Z.pow_succ_r by lia.
    assert (x = 10 * (x `div` 10) + x `mod` 10)%N as Hdm by (apply N.div_mod; lia).
    apply (f_equal Z.of_N) in Hdm. rewrite N2Z.inj_add, N2Z.inj_mul in Hdm.
    pose proof (N2Z.is_nonneg (x `mod` 10)).
    generalize dependent (Z.of_N (x `div` 10)). generalize dependent (Z.of_N (x `mod` 10)).
    intros. lia.
Qed.

Lemma digits_value_minus acc s : digits_value acc (String "-" s) = None.
Proof. done. Qed.

Lemma str_int_pos p : str_int (Z.pos p) = digits (N.pos p).
Proof. done. Qed.

Lemma str_int_neg p : str_int (Z.neg p) = String "-" (digits (N.pos p)).
Proof. done. Qed.

(** Reading [str(n)] back gives [n]. *)
Lemma decimal_value_str_int n : decimal_value (str_int n) = Some n.
Proof.
  destruct n as [|p|p]; [done|..].
  - rewrite str_int_pos. pose proof (digits_value_digits (N.pos p)) as Hv.
    pose proof (digits_nonempty (N.pos p) ltac:(lia)) as Hne.
    destruct (digits (N.pos p)) as [|c s] eqn:E; [done|].
    unfold decimal_value.
    destruct (Ascii.eqb_spec c "-") as [->|Hc]; [by rewrite digits_value_minus in Hv|].
    rewrite Hv. 
    destruct c as [[] [] [] [] [] [] [] []]; try done.
  - rewrite str_int_neg. pose proof (digits_value_digits (N.pos p)) as Hv.
    pose proof (digits_nonempty (N.pos p) ltac:(lia)) as Hne.
    unfold decimal_value. destruct (digits (N.pos p)) as [|c s] eqn:E; [done|].
    by rewrite Hv.
Qed.

(** No base-10 numeral of [n] is shorter than [str(n)]. *)
Lemma str_int_shortest n s :
  decimal_value s = Some n → (String.length (str_int n) ≤ String.length s)%nat.
Proof.
  intros Hs.
  assert (∀ s' v, digits_value 0 s' = Some (Z.pos v) →
            (String.length (digits (N.pos v)) ≤ String.length s')%nat) as Hpos.
  { intros s' v Hv. apply digits_value_bounds in Hv; [|done].
    pose proof (digits_length_lower (N.pos v) ltac:(lia)) as Hlow.
    apply Nat2Z.inj_le.
    destruct (decide (Z.of_nat (String.length (digits (N.pos v))) - 1
                        < Z.of_nat (String.length s'))) as [|Hge]; [lia|].
    assert (10 ^ Z.of_nat (String.length s')
              ≤ 10 ^ (Z.of_nat (String.length (digits (N.pos v))) - 1))
      by (apply Z.pow_le_mono_r; lia).
    lia. }
  assert (∀ s' v, digits_value 0 s' = Some v → 0 ≤ v) as Hnonneg.
  { intros s' v Hv. apply digits_value_bounds in Hv; lia. }
  destruct s as [|c s]; [done|].
  destruct (Ascii.eqb_spec c "-") as [->|Hc].
  - unfold decimal_value in Hs. destruct s as [|c' s'] eqn:E; [done|].
    rewrite <-E in *. destruct (digits_value 0 s) as [v|] eqn:Hv; [|done].
    simpl in Hs. injection Hs as <-. pose proof (Hnonneg _ _ Hv).
    destruct v as [|v|v]; [|..|lia].
    + simpl. subst s. simpl. lia.
    + change (- Z.pos v) with (Z.neg v). rewrite str_int_neg. simpl.
      apply le_n_S. by apply Hpos.
  - assert (digits_value 0 (String c s) = Some n) as Hv.
    { revert Hs. unfold decimal_value.
      destruct c as [[] [] [] [] [] [] [] []]; try done. }
    pose proof (Hnonneg _ _ Hv). destruct n as [|v|v]; [|..|lia].
    + simpl. lia.
    + rewrite str_int_pos. by apply Hpos.
Qed.

(** *** Maps are written with their keys sorted *)

Lemma string_ltb_leb_ne s1 s2 : String.leb s1 s2 = true → s1 ≠ s2 → String.ltb s1 s2 = true.
Proof.
  unfold String.leb, String.ltb. intros Hle Hne.
  destruct (String.compare s1 s2) eqn:E; try done.
  by apply String.compare_eq_iff in E.
Qed.

Lemma ascending_sorted l : NoDup l → ascending (sorted String.leb l).
Proof.
  intros Hnd%(sorted_NoDup String.leb). pose proof (Sorted_sorted_strings l) as Hs.
  unfold ascending. induction Hs as [|x l' Hs IH Hhd]; [constructor|].
  apply NoDup_cons in Hnd as [Hx Hnd]. constructor; [by apply IH|].
  destruct Hhd as [|y l'' Hxy]; constructor.
  apply string_ltb_leb_ne; [by apply Is_true_true|]. intros ->. apply Hx. by left.
Qed.

Lemma canonicalize_dict_in_domain d :
  NoDup (d.*1) → (∀ k v, (k, v) ∈ d → in_domain v = true) →
  ∃ kvs : list (string * string),
    canonicalize (VDict d) =
      Ok ("{" +:+ join "," ((λ kv, escape_string kv.1 +:+ ":" +:+ kv.2) <$> kvs) +:+ "}")
    ∧ ascending (kvs.*1)
    ∧ ∀ k s, (k, s) ∈ kvs ↔ ∃ v, (k, v) ∈ d ∧ canonicalize v = Ok s.
Proof.
  intros Hnd Hdom.
  exists ((λ k, (k, rendered_value d k)) <$> sorted String.leb (d.*1)).
  assert (∀ k v, (k, v) ∈ d → canonicalize v = Ok (rendered_value d k)) as Hval.
  { intros k v Hkv. unfold rendered_value. rewrite (dict_get_NoDup k v d Hnd Hkv).
    destruct (canonicalize_total v (Hdom k v Hkv)) as [s ->]. done. }
  split; [|split].
  - rewrite canonicalize_dict.
    rewrite (for_each_ext _ (λ k, Ok (escape_string k +:+ ":" +:+ rendered_value d k))).
    + rewrite for_each_total. simpl. by rewrite <-list_fmap_compose.
    + intros k Hk%elem_of_sorted. unfold render_pair.
      destruct (dict_get_is_Some k d Hk) as [v Hv]. rewrite Hv.
      apply dict_get_Some in Hv. by rewrite (Hval k v Hv).
  - rewrite <-list_fmap_compose. simpl. rewrite list_fmap_id. by apply ascending_sorted.
  - intros k s. rewrite list_elem_of_fmap. split.
    + intros (k' & [= -> ->] & Hk%elem_of_sorted).
      destruct (dict_get_is_Some k' d Hk) as [v Hv]. apply dict_get_Some in Hv.
      exists v. split; [done|]. by apply Hval.
    + intros (v & Hkv & Hs). exists k. rewrite (Hval k v Hkv) in Hs.
      injection Hs as <-. split; [done|]. apply elem_of_sorted, list_elem_of_fmap.
      by exists (k, v).
Qed.

Lemma canonicalize_dict_Permutation d1 d2 :
  NoDup (d1.*1) → d1 ≡ₚ d2 → canonicalize (VDict d1) = canonicalize (VDict d2).
Proof.
  intros Hnd Hp. rewrite !canonicalize_dict.
  rewrite (sorted_strings_Permutation (d1.*1) (d2.*1)) by (by rewrite Hp).
  rewrite (for_each_ext (render_pair d1) (render_pair d2)); [done|].
  intros k _. unfold render_pair. by rewrite (dict_get_Permutation k d1 d2).
Qed.

(** C1. For a string-keyed map whose values are in the canonical domain,
    [canonicalize] writes [{], the pairs [key:value] joined by commas and
    [}], nothing else in between, with the keys in strictly ascending
    code-point order and every entry of the map written once; the output is
    therefore the same for every order of insertion.  The maps [{b:1,a:2}]
    and [{a:2,b:1}] both give [{"a":2,"b":1}], and [{"b": 2, "a": [1, 2, 3]}]
    gives [{"a":[1,2,3],"b":2}]. *)
Theorem canonicalize_map_sorted_keys :
  (∀ d, NoDup (d.*1) → (∀ k v, (k, v) ∈ d → in_domain v = true) →
     ∃ kvs : list (string * string),
       canonicalize (VDict d) =
         Ok ("{" +:+ join "," ((λ kv, escape_string kv.1 +:+ ":" +:+ kv.2) <$> kvs) +:+ "}")
       ∧ ascending (kvs.*1)
       ∧ ∀ k s, (k, s) ∈ kvs ↔ ∃ v, (k, v) ∈ d ∧ canonicalize v = Ok s)
  ∧ (∀ d1 d2, NoDup (d1.*1) → d1 ≡ₚ d2 →
       canonicalize (VDict d1) = canonicalize (VDict d2))
  ∧ canonicalize (VDict [("b", VInt 1); ("a", VInt 2)])
      = Ok ("{" +:+ quoted "a" +:+ ":2," +:+ quoted "b" +:+ ":1}")
  ∧ canonicalize (VDict [("a", VInt 2); ("b", VInt 1)])
      = Ok ("{" +:+ quoted "a" +:+ ":2," +:+ quoted "b" +:+ ":1}")
  ∧ canonicalize (VDict [("b", VInt 2); ("a", VList [VInt 1; VInt 2; VInt 3])])
      = Ok ("{" +:+ quoted "a" +:+ ":[1,2,3]," +:+ quoted "b" +:+ ":2}").
Proof.
  split; [exact canonicalize_dict_in_domain|].
  split; [exact canonicalize_dict_Permutation|].
  repeat split; vm_compute; reflexivity.
Qed.

Lemma canonicalize_map_sorted_keys_witness :
  canonicalize (VDict [("z", VNone); ("k", VBool true); ("m", VStr "v")])
  = canonicalize (VDict [("m", VStr "v"); ("z", VNone); ("k", VBool true)]).
Proof.
  destruct canonicalize_map_sorted_keys as (_ & Hperm & _).
  apply Hperm.
  - apply (bool_decide_unpack _). vm_compute. exact I.
  - symmetry. apply (Permutation_cons_append [("z", VNone); ("k", VBool true)]).
Defined.

(** *** Keys that are not strings *)

(** On the values whose maps are keyed by strings, [canonicalize_object] is
    [canonicalize]. *)
Lemma canonicalize_object_of v : canonicalize_object (object_of v) = canonicalize v.
Proof.
  induction v as [| | | | |l IH|d IH|] using value_ind; try done.
  - change (canonicalize_object (object_of (VList l)))
      with (elements ← for_each canonicalize_object (object_of <$> l);
            Ok ("[" +:+ join "," elements +:+ "]")).
    rewrite canonicalize_list, for_each_fmap. f_equal.
    apply for_each_ext. intros x Hx. rewrite Forall_forall in IH. by apply IH.
  - change (canonicalize_object (object_of (VDict d)))
      with (let e := (λ kv : string * value, (kv.1, object_of kv.2)) <$> d in
            let rendered := (λ kv, (kv.1, canonicalize_object kv.2)) <$> e in
            pairs ← for_each (λ k,
                 match dict_get k rendered with
                 | Some r => s ← r; Ok (escape_string k +:+ ":" +:+ s)
                 | None => Raise (KeyError k)
                 end) (sorted String.leb (e.*1));
            Ok ("{" +:+ join "," pairs +:+ "}")).
    cbv zeta. change (canonicalize (VDict d))
      with (let rendered := (λ kv, (kv.1, canonicalize kv.2)) <$> d in
            pairs ← for_each (λ k,
                 match dict_get k rendered with
                 | Some r => s ← r; Ok (escape_string k +:+ ":" +:+ s)
                 | None => Raise (KeyError k)
                 end) (sorted String.leb (d.*1));
            Ok ("{" +:+ join "," pairs +:+ "}")).
    cbv zeta. rewrite <-!list_fmap_compose.
    assert ((λ kv : string * object, (kv.1, canonicalize_object kv.2))
              ∘ (λ kv : string * value, (kv.1, object_of kv.2)) <$> d
            = (λ kv, (kv.1, canonicalize kv.2)) <$> d) as ->.
    { apply Forall_fmap_ext_1. eapply Forall_impl; [exact IH|].
      intros [k v] Hv. simpl in *. by rewrite Hv. }
    assert (fst ∘ (λ kv : string * value, (kv.1, object_of kv.2)) <$> d = d.*1) as ->.
    { apply list_fmap_ext. by intros _ [k v] _. }
    done.
Qed.

Lemma object_in_domain_of v : object_in_domain (object_of v) = in_domain v.
Proof.
  induction v as [| | | | |l IH|d IH|] using value_ind; try done.
  - cbn [object_of object_in_domain in_domain].
    induction IH as [|x l Hx _ IHl]; [done|].
    rewrite fmap_cons. cbn [forallb]. by rewrite Hx, IHl.
  - cbn [object_of object_in_domain in_domain].
    induction IH as [|[k v] d Hv _ IHd]; [done|].
    rewrite fmap_cons. cbn [forallb fst snd] in *. by rewrite Hv, IHd.
Qed.

(** C8, as stated, fails: the [dict] [{('a', 'b'): 1}], whose key is a tuple,
    is outside the canonical domain, and [canonicalize] returns for it what
    it returns for [{'ab': 1}]; likewise for the empty tuple. *)
Lemma canonicalize_accepts_tuple_key :
  object_in_domain (OTupleDict [(["a"; "b"], OInt 1)]) = false
  ∧ canonicalize_object (OTupleDict [(["a"; "b"], OInt 1)])
    = Ok ("{" +:+ quoted "ab" +:+ ":1}")
  ∧ canonicalize_object (ODict [("ab", OInt 1)]) = Ok ("{" +:+ quoted "ab" +:+ ":1}")
  ∧ canonicalize_object (OTupleDict [([], OInt 1)]) = Ok ("{" +:+ quoted "" +:+ ":1}").
Proof. vm_compute. done. Qed.

(** C8, amended. [canonicalize] raises for every float, for every integer
    outside [-(2^53 - 1), 2^53 - 1] and for every value outside the canonical
    domain whose maps are keyed by strings (a [value]: the keys of a map are
    not looked at); for an integer [n] inside the range it returns [str(n)],
    which is a base-10 numeral of [n] and as short as any base-10 numeral of
    [n].  The float [1.5] is rejected. *)
Theorem canonicalize_rejects_outside_domain :
  (∀ x, canonicalize (VFloat x) = Raise (ValueError "Floats forbidden in canonical JSON"))
  ∧ (∀ n, ¬ (- (2 ^ 53 - 1) ≤ n ≤ 2 ^ 53 - 1) →
       canonicalize (VInt n) = Raise (ValueError "Number outside safe integer range"))
  ∧ (∀ v, distinct_keys v = true → in_domain v = false → ∃ e, canonicalize v = Raise e)
  ∧ (∀ n, - (2 ^ 53 - 1) ≤ n ≤ 2 ^ 53 - 1 →
       canonicalize (VInt n) = Ok (str_int n)
       ∧ decimal_value (str_int n) = Some n
       ∧ ∀ s, decimal_value s = Some n →
           (String.length (str_int n) ≤ String.length s)%nat)
  ∧ canonicalize (VFloat float_1_5)
      = Raise (ValueError "Floats forbidden in canonical JSON").
Proof.
  split; [done|]. split; [|split; [exact canonicalize_rejects|split; [|done]]].
  - intros n Hn. simpl. unfold safe_integer.
    destruct (_ && _) eqn:E; [|done]. apply andb_prop in E as [?%Z.leb_le ?%Z.leb_le]. lia.
  - intros n Hn. split; [|split].
    + simpl. unfold safe_integer.
      destruct (_ && _) eqn:E; [done|]. apply andb_false_iff in E as [?%Z.leb_gt|?%Z.leb_gt]; lia.
    + apply decimal_value_str_int.
    + intros s. apply str_int_shortest.
Qed.

Lemma canonicalize_rejects_outside_domain_witness :
  canonicalize (VInt (2 ^ 53)) = Raise (ValueError "Number outside safe integer range")
  ∧ (∃ e, canonicalize (VDict [("a", VInt 1); ("b", VList [VOther "tuple"])]) = Raise e)
  ∧ canonicalize (VInt (-42)) = Ok "-42"
  ∧ (String.length (str_int 7) ≤ String.length "007")%nat.
Proof.
  destruct canonicalize_rejects_outside_domain as (_ & Hout & Hdom & Hin & _).
  split; [apply Hout; lia|]. split; [apply Hdom; reflexivity|].
  split; [apply (Hin (-42)); lia|]. apply (Hin 7); [lia|reflexivity].
Defined.

End CanonicalFacts.

(** ** Binary64: when [int((a / b) * 10000)] returns *)

Module FloatFacts.
Import PyFloat PyFacts.

Lemma fexp_eq e : fexp prec emax e = Z.max (e - 53) (-1074).
Proof. reflexivity. Qed.

Lemma digits2_pos_size p : digits2_pos p = Pos.size p.
Proof. induction p as [p IH|p IH|]; simpl; by rewrite ?IH. Qed.

Lemma Zdigits2_log2 m : 0 < m → Zdigits2 m = Z.succ (Z.log2 m).
Proof.
  destruct m as [|p|p]; try lia. intros _.
  destruct p as [p|p|]; simpl; rewrite ?digits2_pos_size; lia.
Qed.

Lemma Zdigits2_nonneg m : 0 ≤ Zdigits2 m.
Proof. destruct m; simpl; lia. Qed.

Lemma Zdigits2_pos m : 0 < m → 1 ≤ Zdigits2 m.
Proof. intros Hm. rewrite Zdigits2_log2 by done. pose proof (Z.log2_nonneg m). lia. Qed.

Lemma Zdigits2_le m k : 0 ≤ m → 0 ≤ k → m < 2 ^ k → Zdigits2 m ≤ k.
Proof.
  intros Hm Hk Hlt. destruct (decide (m = 0)) as [->|Hm0]; [done|].
  rewrite Zdigits2_log2 by lia. apply Z.log2_lt_pow2 in Hlt; lia.
Qed.

Lemma Zdigits2_gt m : 0 ≤ m → m < 2 ^ Zdigits2 m.
Proof.
  intros Hm. destruct (decide (m = 0)) as [->|Hm0]; [done|].
  rewrite Zdigits2_log2 by lia. apply Z.log2_spec. lia.
Qed.

Lemma Zdigits2_shiftr m n :
  0 ≤ m → 0 ≤ n → Zdigits2 (Z.shiftr m n) ≤ Z.max 0 (Zdigits2 m - n).
Proof.
  intros Hm Hn. destruct (decide (Z.shiftr m n = 0)) as [->|Hne]; [simpl; lia|].
  assert (0 ≤ Z.shiftr m n) by (by apply Z.shiftr_nonneg).
  assert (0 < m) as Hpos.
  { destruct (decide (m = 0)) as [->|]; [|lia]. by rewrite Z.shiftr_0_l in Hne. }
  rewrite !Zdigits2_log2 by lia. rewrite Z.log2_shiftr by done.
  assert (¬ Z.log2 m < n).
  { intros Hlt. apply Hne, Z.shiftr_eq_0; lia. }
  lia.
Qed.

Lemma Zdigits2_succ m : 0 ≤ m → Zdigits2 (m + 1) ≤ Zdigits2 m + 1.
Proof.
  intros Hm. destruct (decide (m = 0)) as [->|Hm0]; [simpl; lia|].
  rewrite !Zdigits2_log2 by lia. pose proof (Z.log2_succ_le m). unfold Z.succ in *. lia.
Qed.

Lemma Zdigits2_mul a b : 0 < a → 0 < b → Zdigits2 (a * b) ≤ Zdigits2 a + Zdigits2 b.
Proof.
  intros Ha Hb. rewrite !Zdigits2_log2 by lia.
  pose proof (Z.log2_mul_above a b). lia.
Qed.

Lemma shr_m_of_loc m l : shr_m (shr_record_of_loc m l) = m.
Proof. by destruct l as [|[]]. Qed.

Lemma shr_1_m mrs : 0 ≤ shr_m mrs → shr_m (shr_1 mrs) = Z.shiftr (shr_m mrs) 1.
Proof.
  destruct mrs as [m r s]. simpl. intros Hm.
  destruct m as [|[p|p|]|p]; try done; lia.
Qed.

Lemma iter_shr_1_m n mrs :
  0 ≤ shr_m mrs → shr_m (SpecFloat.iter_pos shr_1 n mrs) = Z.shiftr (shr_m mrs) (Z.pos n).
Proof.
  revert mrs. induction n as [n IH|n IH|]; intros mrs Hm; simpl SpecFloat.iter_pos.
  - assert (0 ≤ shr_m (shr_1 mrs)).
    { rewrite shr_1_m by done. by apply Z.shiftr_nonneg. }
    assert (0 ≤ shr_m (SpecFloat.iter_pos shr_1 n (shr_1 mrs))).
    { rewrite IH by done. by apply Z.shiftr_nonneg. }
    rewrite !IH, shr_1_m, !Z.shiftr_shiftr by (done || lia). f_equal. lia.
  - assert (0 ≤ shr_m (SpecFloat.iter_pos shr_1 n mrs)).
    { rewrite IH by done. by apply Z.shiftr_nonneg. }
    rewrite !IH, !Z.shiftr_shiftr by (done || lia). f_equal. lia.
  - by apply shr_1_m.
Qed.

Lemma shr_fexp_spec m e l :
  0 ≤ m →
  ∃ mrs' e', shr_fexp prec emax m e l = (mrs', e')
    ∧ e' = Z.max e (fexp prec emax (Zdigits2 m + e))
    ∧ shr_m mrs' = Z.shiftr m (e' - e).
Proof.
  intros Hm. unfold shr_fexp, shr.
  destruct (fexp prec emax (Zdigits2 m + e) - e) as [|n|n] eqn:Hn.
  - eexists _, _. split; [done|]. rewrite shr_m_of_loc.
    split; [lia|]. by rewrite Z.sub_diag, Z.shiftr_0_r.
  - eexists _, _. split; [done|].
    rewrite iter_shr_1_m by (by rewrite shr_m_of_loc). rewrite shr_m_of_loc.
    split; [lia|]. f_equal. lia.
  - eexists _, _. split; [done|]. rewrite shr_m_of_loc.
    split; [lia|]. by rewrite Z.sub_diag, Z.shiftr_0_r.
Qed.

(** Shifting to the exponent [fexp] keeps the magnitude bound. *)
Lemma shr_fexp_bound K m e l :
  -1074 ≤ K → 0 ≤ m → Zdigits2 m + e ≤ K →
  ∃ mrs' e', shr_fexp prec emax m e l = (mrs', e')
    ∧ 0 ≤ shr_m mrs' ∧ Zdigits2 (shr_m mrs') + e' ≤ K
    ∧ e' = Z.max e (fexp prec emax (Zdigits2 m + e)).
Proof.
  intros HK Hm HD. destruct (shr_fexp_spec m e l Hm) as (mrs' & e' & Heq & He' & Hm').
  exists mrs', e'. split; [done|]. rewrite Hm'.
  assert (0 ≤ e' - e) by lia.
  split; [by apply Z.shiftr_nonneg|]. split; [|done].
  pose proof (Zdigits2_shiftr m (e' - e) Hm ltac:(done)).
  pose proof (Zdigits2_nonneg m). rewrite fexp_eq in He'. lia.
Qed.

Lemma round_nearest_even_bound m l :
  0 ≤ m → 0 ≤ round_nearest_even m l ∧ Zdigits2 (round_nearest_even m l) ≤ Zdigits2 m + 1.
Proof.
  intros Hm. pose proof (Zdigits2_succ m Hm).
  unfold round_nearest_even. destruct l as [|[]]; try destruct (Z.even m); lia.
Qed.

Lemma binary_round_aux_below K s m e l :
  -1074 ≤ K → K ≤ 1023 → 0 ≤ m → Zdigits2 m + e ≤ K → e ≤ 971 →
  below (K + 1) (binary_round_aux prec emax s m e l).
Proof.
  intros HK1 HK2 Hm HD He. unfold binary_round_aux.
  destruct (shr_fexp_bound K m e l) as (mrs1 & e1 & -> & Hm1 & HD1 & He1); [done..|].
  destruct (round_nearest_even_bound (shr_m mrs1) (loc_of_shr_record mrs1) Hm1)
    as [Hr Hrd].
  destruct (shr_fexp_bound (K + 1) (round_nearest_even (shr_m mrs1) (loc_of_shr_record mrs1))
              e1 loc_Exact) as (mrs2 & e2 & -> & Hm2 & HD2 & He2); [lia|done|lia|].
  destruct (shr_m mrs2) as [|m2|m2] eqn:Hm2e; [done| |lia].
  assert (e2 ≤ 971) as He2'.
  { rewrite fexp_eq in He1, He2. pose proof (Zdigits2_nonneg m). lia. }
  destruct (Z.leb_spec e2 (emax - prec)) as [_|Hgt]; [|unfold emax, prec in Hgt; lia].
  simpl. simpl in HD2. lia.
Qed.

Lemma float_of_int_10000 :
  float_of_int 10000 = Ok (S754_finite false 5497558138880000 (-39)).
Proof. reflexivity. Qed.

Lemma int_of_float_below K x : below K x → ∃ r, int_of_float x = Ok r.
Proof. destruct x; simpl; try done; by eexists. Qed.

Lemma SFmul_10000_below K x :
  K ≤ 1009 → -1074 ≤ K → below K x →
  below (K + 15) (SFmul prec emax x (S754_finite false 5497558138880000 (-39))).
Proof.
  intros HK HK' Hx. destruct x as [s|s| |s m e]; try done. destruct Hx as [HD He].
  simpl SFmul. replace (K + 15) with (K + 14 + 1) by lia.
  apply (binary_round_aux_below (K + 14)); [lia|lia|lia| |lia].
  pose proof (Zdigits2_mul (Z.pos m) 5497558138880000 ltac:(lia) ltac:(lia)) as Hmul.
  simpl in Hmul. simpl. lia.
Qed.

Lemma SFdiv_ints_below (a b : positive) sa sb :
  Z.pos a < 2 ^ 1000 * Z.pos b →
  below 1001 (SFdiv prec emax (S754_finite sa a 0) (S754_finite sb b 0)).
Proof.
  intros Hab. unfold SFdiv, SFdiv_core_binary.
  set (e' := Z.min _ _).
  assert (e' ≤ 0) as He' by (unfold e'; lia).
  assert (-1074 ≤ e') as He'min by (unfold e'; rewrite fexp_eq; lia).
  replace (0 - 0 - e') with (- e') by lia.
  set (m' := match - e' with Z.pos _ => Z.shiftl (Z.pos a) (- e') | 0 => Z.pos a | _ => 0 end).
  assert (m' = Z.pos a * 2 ^ (- e')) as Hm'.
  { unfold m'. destruct (- e') as [|n|n] eqn:E; [simpl; lia| |lia].
    rewrite Z.shiftl_mul_pow2; lia. }
  assert (0 < 2 ^ (- e')) as Hpow by (apply Z.pow_pos_nonneg; lia).
  pose proof (Z.div_eucl_eq m' (Z.pos b) ltac:(lia)) as Heucl.
  pose proof (Z.mod_pos_bound m' (Z.pos b) ltac:(lia)) as Hmod.
  unfold Z.modulo in Hmod.
  destruct (Z.div_eucl m' (Z.pos b)) as [q r].
  assert (0 ≤ q) as Hq by nia.
  apply (binary_round_aux_below 1000); [lia|lia|done| |lia].
  assert (q < 2 ^ (1000 - e')) as Hqlt.
  { replace (1000 - e') with (1000 + - e') by lia. rewrite Z.pow_add_r by lia. nia. }
  pose proof (Zdigits2_le q (1000 - e') Hq ltac:(lia) Hqlt). lia.
Qed.

(** [int((a / b) * 10000)] returns as soon as [|a| < 2^1000 * |b|]. *)
Lemma int_ratio_times_10000_returns a b :
  b ≠ 0 → Z.abs a < 2 ^ 1000 * Z.abs b → ∃ r, int_ratio_times a b 10000 = Ok r.
Proof.
  intros Hb Hab. unfold int_ratio_times, mul_int. rewrite float_of_int_10000.
  assert (∃ q, truediv a b = Ok q ∧ below 1001 q) as (q & -> & Hq).
  { unfold truediv. destruct a as [|a|a], b as [|b|b]; try done;
      try (eexists; split; [done|done]).
    all: match goal with
         | |- context [SFdiv prec emax (S754_finite ?sa ?ma 0) (S754_finite ?sb ?mb 0)] =>
             pose proof (SFdiv_ints_below ma mb sa sb) as Hbelow
         end.
    all: simpl Z.abs in *; simpl Z.to_pos in *; specialize (Hbelow Hab).
    all: destruct (SFdiv _ _ _ _) eqn:E; try done; simpl; eexists; split; done. }
  rewrite !bind_Ok.
  apply (int_of_float_below 1016), (SFmul_10000_below 1001); [lia|lia|done].
Qed.

End FloatFacts.

Module MbsFacts.
Import Canonical Mbs PyFacts.

Lemma compute_solvency_ratio_value assets liabilities :
  compute_solvency_ratio assets liabilities =
    Ok (if sum (liability_amount <$> liabilities) =? 0 then 999999
        else (sum (asset_amount <$> assets) * 10000)
               `div` sum (liability_amount <$> liabilities)).
Proof.
  unfold compute_solvency_ratio.
  destruct (Z.eqb_spec (sum (liability_amount <$> liabilities)) 0); [done|].
  by apply floordiv_Ok.
Qed.

(** C7. With [A] the total of the assets and [L] the total of the
    liabilities, [compute_solvency_ratio] returns the sentinel 999999 when
    [L = 0] and the floor of [A * 10000 / L] otherwise (for amounts that are
    not negative, the integer [r] with [r * L ≤ A * 10000 < (r + 1) * L]);
    [verify_mbs] answers [valid = false] for every balance sheet whose
    embedded [solvency_ratio] is not that value; assets of 1_000_000 against
    liabilities of 250_000 give 40000. *)
Theorem solvency_ratio_checked :
  (∀ assets liabilities,
     let A := sum (asset_amount <$> assets) in
     let L := sum (liability_amount <$> liabilities) in
     (L = 0 → compute_solvency_ratio assets liabilities = Ok 999999)
     ∧ (L ≠ 0 → compute_solvency_ratio assets liabilities = Ok ((A * 10000) `div` L))
     ∧ (Forall (λ a, 0 ≤ asset_amount a) assets →
        Forall (λ l, 0 ≤ liability_amount l) liabilities → L ≠ 0 →
        ∃ r, compute_solvency_ratio assets liabilities = Ok r
             ∧ r * L ≤ A * 10000 < (r + 1) * L))
  ∧ (∀ hash_bytes verify mbs public_key,
       Ok (solvency_ratio mbs) ≠ compute_solvency_ratio (assets mbs) (liabilities mbs) →
       ∃ msg, verify_mbs hash_bytes verify mbs public_key = Ok (false, Some msg))
  ∧ compute_solvency_ratio [ {| asset_type := "usdc"; asset_amount := 1000000 |} ]
                           [ {| liability_type := "owed"; liability_amount := 250000 |} ]
      = Ok 40000.
Proof.
  split; [|split; [|done]].
  - intros assets liabilities A L. rewrite compute_solvency_ratio_value. fold A L.
    split; [|split].
    + intros ->. done.
    + intros HL. by destruct (Z.eqb_spec L 0).
    + intros _ Hl HL. destruct (Z.eqb_spec L 0) as [|_]; [done|].
      assert (0 ≤ L) as HL0.
      { apply sum_nonneg, Forall_fmap. by eapply Forall_impl. }
      eexists. split; [done|].
      pose proof (Z.mul_div_le (A * 10000) L ltac:(lia)).
      pose proof (Z.mul_succ_div_gt (A * 10000) L ltac:(lia)). lia.
  - intros hash_bytes verify mbs public_key Hne. unfold verify_mbs.
    destruct (negb _); [by eexists|].
    destruct (existsb _ (assets mbs)); [by eexists|].
    destruct (existsb _ (liabilities mbs)); [by eexists|].
    destruct (_ <? 0); [by eexists|].
    destruct (compute_solvency_ratio _ _) as [r|e] eqn:Hr; simpl.
    + destruct (Z.eqb_spec (solvency_ratio mbs) r) as [Heq|_]; [congruence|]. by eexists.
    + by rewrite compute_solvency_ratio_value in Hr.
Qed.

Lemma solvency_ratio_checked_witness :
  (∃ r, compute_solvency_ratio
          [ {| asset_type := "usdc"; asset_amount := 7 |} ]
          [ {| liability_type := "owed"; liability_amount := 3 |} ] = Ok r
        ∧ r * 3 ≤ 7 * 10000 < (r + 1) * 3)
  ∧ ∃ msg, verify_mbs (λ s, s) (λ _ _ _, true)
             {| mbs_version := "0.1"; agent_id := "a1";
                assets := [ {| asset_type := "usdc"; asset_amount := 7 |} ];
                liabilities := [ {| liability_type := "owed"; liability_amount := 3 |} ];
                burn_rate_usd_micros_per_s := 1; solvency_ratio := 23334;
                timestamp_ms := 1; signature_ed25519 := "00" |} "a1"
           = Ok (false, Some msg).
Proof.
  destruct solvency_ratio_checked as (Hratio & Hverify & _). split.
  - apply (Hratio [ {| asset_type := "usdc"; asset_amount := 7 |} ]
                  [ {| liability_type := "owed"; liability_amount := 3 |} ]).
    + repeat constructor; simpl; lia.
    + repeat constructor; simpl; lia.
    + vm_compute. discriminate.
  - apply Hverify. vm_compute. discriminate.
Defined.

End MbsFacts.

Module AmrFacts.
Import Amr PyFacts.

Lemma foldl_aggregate_step st amrs :
  st_total_quantity (foldl aggregate_step st amrs)
    = st_total_quantity st + sum ((λ a, quantity (metering a)) <$> amrs)
  ∧ st_total_micros (foldl aggregate_step st amrs)
    = st_total_micros st + sum ((λ a, total_micros (pricing a)) <$> amrs)
  ∧ st_total_confidence (foldl aggregate_step st amrs)
    = st_total_confidence st + sum ((λ a, confidence_bps (attestation a)) <$> amrs).
Proof.
  revert st. induction amrs as [|a amrs IH]; intros st.
  - simpl. rewrite !sum_nil. lia.
  - cbn [foldl]. rewrite !fmap_cons, !sum_cons.
    destruct (IH (aggregate_step st a)) as (-> & -> & ->).
    unfold aggregate_step. cbn [st_total_quantity st_total_micros st_total_confidence].
    lia.
Qed.

Lemma foldl_aggregate_initial amrs :
  st_total_quantity (foldl aggregate_step initial amrs)
    = sum ((λ a, quantity (metering a)) <$> amrs)
  ∧ st_total_micros (foldl aggregate_step initial amrs)
    = sum ((λ a, total_micros (pricing a)) <$> amrs)
  ∧ st_total_confidence (foldl aggregate_step initial amrs)
    = sum ((λ a, confidence_bps (attestation a)) <$> amrs).
Proof.
  destruct (foldl_aggregate_step initial amrs) as (-> & -> & ->).
  unfold initial. cbn [st_total_quantity st_total_micros st_total_confidence]. lia.
Qed.

Lemma aggregate_amrs_cons a amrs :
  aggregate_amrs (a :: amrs) =
    avg ← floordiv (st_total_confidence (foldl aggregate_step initial (a :: amrs)))
                   (Z.of_nat (length (a :: amrs)));
    Ok {| agg_total_quantity := st_total_quantity (foldl aggregate_step initial (a :: amrs));
          agg_total_micros := st_total_micros (foldl aggregate_step initial (a :: amrs));
          by_resource_class := st_by_resource_class (foldl aggregate_step initial (a :: amrs));
          avg_confidence_bps := avg |}.
Proof. done. Qed.

Lemma aggregate_amrs_nonempty amrs :
  amrs ≠ [] →
  ∃ r, aggregate_amrs amrs = Ok r
    ∧ agg_total_quantity r = sum ((λ a, quantity (metering a)) <$> amrs)
    ∧ agg_total_micros r = sum ((λ a, total_micros (pricing a)) <$> amrs)
    ∧ let n := Z.of_nat (length amrs) in
      let total := sum ((λ a, confidence_bps (attestation a)) <$> amrs) in
      avg_confidence_bps r = total `div` n
      ∧ avg_confidence_bps r * n ≤ total < (avg_confidence_bps r + 1) * n.
Proof.
  intros Hamrs. destruct amrs as [|a amrs']; [done|].
  rewrite aggregate_amrs_cons.
  destruct (foldl_aggregate_initial (a :: amrs')) as (-> & -> & ->).
  assert (0 < Z.of_nat (length (a :: amrs'))) as Hn by (simpl; lia).
  rewrite floordiv_Ok, bind_Ok by lia.
  eexists. split; [done|].
  cbn [agg_total_quantity agg_total_micros avg_confidence_bps].
  repeat split; try done.
  - rewrite Z.mul_comm. apply Z.mul_div_le. lia.
  - rewrite Z.mul_comm. apply Z.mul_succ_div_gt. lia.
Qed.

(** C10. [aggregate_amrs] returns for every list of records.  For the empty
    list the totals are 0, [by_resource_class] is empty and
    [avg_confidence_bps] is 0; for a list that is not empty the totals are
    the sums over the records and [avg_confidence_bps] is the floor of the
    mean of the [confidence_bps] values. *)
Theorem aggregate_amrs_total :
  (∀ amrs, ∃ r, aggregate_amrs amrs = Ok r)
  ∧ aggregate_amrs [] = Ok {| agg_total_quantity := 0; agg_total_micros := 0;
                              by_resource_class := ∅; avg_confidence_bps := 0 |}
  ∧ (∀ amrs, amrs ≠ [] →
       ∃ r, aggregate_amrs amrs = Ok r
         ∧ agg_total_quantity r = sum ((λ a, quantity (metering a)) <$> amrs)
         ∧ agg_total_micros r = sum ((λ a, total_micros (pricing a)) <$> amrs)
         ∧ let n := Z.of_nat (length amrs) in
           let total := sum ((λ a, confidence_bps (attestation a)) <$> amrs) in
           avg_confidence_bps r = total `div` n
           ∧ avg_confidence_bps r * n ≤ total < (avg_confidence_bps r + 1) * n).
Proof.
  split; [|split; [done|exact aggregate_amrs_nonempty]].
  intros [|a amrs]; [by eexists|].
  destruct (aggregate_amrs_nonempty (a :: amrs)) as (r & Hr & _); [done|]. by exists r.
Qed.

Lemma aggregate_amrs_total_witness :
  ∃ r, aggregate_amrs
         [ {| amr_version := "0.1"; record_id := "r"; consumer_agent_id := "c";
              provider_agent_id := "p"; resource_class := "COMPUTE";
              resource_subtype := "gpu_h100";
              metering := {| quantity := 3; unit := "gpu_seconds"; start_ms := 0;
                             end_ms := 5; duration_ms := 5; breakdown := None |};
              attestation := {| att_method := "TEE"; confidence_bps := 9999;
                                tee_quote := None; tee_type := None; enclave_hash := None;
                                meter_id := None; meter_pubkey := None;
                                meter_signature := None; oracle_id := None;
                                oracle_pubkey := None; oracle_signature := None |};
              pricing := {| rate_micros_per_unit := 1000; total_micros := 3000;
                            currency := "USD" |};
              context := {| request_hash := "q"; response_hash := "s"; session_id := None;
                            parent_amr_id := None |};
              timestamp_ms := 1; amr_hash := "r"; provider_signature := "00";
              consumer_signature := None |} ] = Ok r
       ∧ avg_confidence_bps r = 9999.
Proof.
  destruct aggregate_amrs_total as (_ & _ & Hne).
  edestruct Hne as (r & Hr & _ & _ & Havg & _); [|exists r; split; [exact Hr|exact Havg]].
  discriminate.
Defined.

End AmrFacts.

Module DbpFacts.
Import Canonical PyFloat Dbp PyFacts FloatFacts CanonicalFacts.

Lemma recovery_returns receives amount :
  0 ≤ receives ≤ amount → ∃ r, recovery receives amount = Ok r.
Proof.
  intros Hr. unfold recovery. destruct (Z.ltb_spec 0 amount); [|by eexists].
  apply int_ratio_times_10000_returns; [lia|]. nia.
Qed.

Lemma priority_loop_walk cs remaining :
  nonneg_amounts cs → 0 ≤ remaining →
  ∃ ds, priority_loop remaining cs = Ok ds
    ∧ paid ds = walk_paid (spec_priority_walk remaining cs).
Proof.
  intros Hcs. revert remaining.
  induction Hcs as [|c cs Hc Hcs IH]; intros remaining Hrem.
  - by exists [].
  - cbn [priority_loop spec_priority_walk].
    destruct (recovery_returns (Z.min (amount_micros c) remaining) (amount_micros c))
      as [r ->]; [lia|].
    destruct (IH (remaining - Z.min (amount_micros c) remaining)) as (ds & -> & Hds); [lia|].
    rewrite !bind_Ok. eexists. split; [done|].
    unfold paid, walk_paid in *. rewrite !fmap_cons. cbn [fst snd creditor_id receives_micros].
    by rewrite Hds.
Qed.

Lemma walk_receives_bound cs remaining c r :
  nonneg_amounts cs → 0 ≤ remaining →
  (c, r) ∈ spec_priority_walk remaining cs → 0 ≤ r ≤ remaining ∧ r ≤ amount_micros c.
Proof.
  intros Hcs. revert remaining.
  induction Hcs as [|c0 cs Hc0 Hcs IH]; intros remaining Hrem; simpl; [by inversion 1|].
  intros [[= -> ->]|Hin]%elem_of_cons; [lia|].
  apply IH in Hin; lia.
Qed.

Lemma walk_creditor cs remaining c r :
  (c, r) ∈ spec_priority_walk remaining cs → c ∈ cs.
Proof.
  revert remaining. induction cs as [|c0 cs IH]; intros remaining; simpl; [by inversion 1|].
  intros [[= -> ->]|Hin]%elem_of_cons; [by left|]. right. by eapply IH.
Qed.

(** In the walk over creditors sorted by priority, a creditor with a
    strictly larger priority number receives something only when every
    creditor before it in priority was paid in full. *)
Lemma walk_in_order cs remaining c rc d rd :
  StronglySorted (λ a b, priority a ≤ priority b) cs →
  nonneg_amounts cs → 0 ≤ remaining →
  (c, rc) ∈ spec_priority_walk remaining cs →
  (d, rd) ∈ spec_priority_walk remaining cs →
  priority c < priority d → 0 < rd → rc = amount_micros c.
Proof.
  intros Hs. revert remaining.
  induction Hs as [|c0 cs Hs IH Hhd]; intros remaining Hcs Hrem; simpl; [by inversion 1|].
  apply Forall_cons in Hcs as [Hc0 Hcs].
  intros [[= -> ->]|Hc]%elem_of_cons [[= -> ->]|Hd]%elem_of_cons Hlt Hrd.
  - lia.
  - apply walk_receives_bound in Hd; [|done|lia]. lia.
  - apply walk_creditor in Hc. rewrite Forall_forall in Hhd.
    specialize (Hhd c Hc). lia.
  - apply (IH (remaining - Z.min (amount_micros c0) remaining)); (done || lia).
Qed.

Lemma sum_zero_nonneg l : Forall (λ x, 0 ≤ x) l → sum l = 0 → Forall (λ x, x = 0) l.
Proof.
  induction 1 as [|x l Hx Hl IH]; [done|]. rewrite sum_cons. intros Hs.
  pose proof (sum_nonneg l Hl). constructor; [lia|]. apply IH. lia.
Qed.

Lemma walk_all_zero cs remaining :
  Forall (λ c, amount_micros c = 0) cs → 0 ≤ remaining →
  walk_paid (spec_priority_walk remaining cs) = (λ c, (agent_id c, 0)) <$> cs.
Proof.
  intros Hcs. revert remaining.
  induction Hcs as [|c cs Hc Hcs IH]; intros remaining Hrem; [done|].
  cbn [spec_priority_walk]. unfold walk_paid in *. rewrite !fmap_cons.
  cbn [fst snd]. rewrite Hc, Z.min_l, Z.sub_0_r by lia. f_equal. by apply IH.
Qed.

Lemma compute_distributions_nonempty creditors total_assets method :
  creditors ≠ [] →
  compute_distributions creditors total_assets method =
    if sum (amount_micros <$> creditors) =? 0
    then Ok ((λ c, {| creditor_id := agent_id c; receives_micros := 0;
                      recovery_bps := 0 |}) <$> creditors)
    else if String.eqb method "PRO_RATA"
    then pro_rata creditors (sum (amount_micros <$> creditors)) total_assets
    else if String.eqb method "PRIORITY"
    then priority_loop total_assets (sorted_by Z.leb priority creditors)
    else pro_rata creditors (sum (amount_micros <$> creditors)) total_assets.
Proof. by destruct creditors. Qed.

Lemma compute_distributions_priority creditors total_assets :
  nonneg_amounts creditors → 0 ≤ total_assets →
  ∃ ds, compute_distributions creditors total_assets "PRIORITY" = Ok ds
    ∧ paid ds ≡ₚ walk_paid (spec_priority_walk total_assets
                               (sorted_by Z.leb priority creditors))
    ∧ (sum (amount_micros <$> creditors) ≠ 0 →
       paid ds = walk_paid (spec_priority_walk total_assets
                              (sorted_by Z.leb priority creditors))).
Proof.
  intros Hcs HT.
  destruct (decide (creditors = [])) as [->|Hne]; [by exists []|].
  rewrite compute_distributions_nonempty by done.
  assert (nonneg_amounts (sorted_by Z.leb priority creditors)) as Hsorted.
  { unfold nonneg_amounts. by rewrite sorted_by_Permutation. }
  destruct (Z.eqb_spec (sum (amount_micros <$> creditors)) 0) as [Hzero|Hnz].
  - eexists. split; [done|]. split; [|done].
    rewrite walk_all_zero; [|..|done].
    + unfold paid. rewrite <-list_fmap_compose.
      apply (fmap_Permutation (λ c, (agent_id c, 0))). symmetry.
      apply sorted_by_Permutation.
    + rewrite sorted_by_Permutation.
      apply sum_zero_nonneg in Hzero; [|by apply Forall_fmap].
      by apply Forall_fmap in Hzero.
  - change (String.eqb "PRIORITY" "PRO_RATA") with false.
    change (String.eqb "PRIORITY" "PRIORITY") with true. cbv iota.
    destruct (priority_loop_walk (sorted_by Z.leb priority creditors) total_assets)
      as (ds & -> & Hds); [done..|].
    exists ds. rewrite Hds. done.
Qed.

(** C5. With method [PRIORITY], amounts owed and total assets that are not
    negative, [compute_distributions] returns, and what each creditor
    receives is what the walk of the specification gives: the creditors
    sorted by [priority] ascending, each receiving [min(c.amount, remaining)]
    with [remaining] decremented (the same pairs, and in the same order when
    something is owed).  In that walk a creditor [d] with a strictly larger
    priority number than [c] receives something only if [c] was paid in
    full.  For X (owed 400, priority 1) and Y (owed 600, priority 2) with
    assets of 500, X receives 400 at 10000 bps, Y receives 100 at 1666 bps
    and [make_dbp] records a recovery rate of 5000 bps. *)
Theorem priority_pays_in_order :
  (∀ creditors total_assets,
     nonneg_amounts creditors → 0 ≤ total_assets →
     let walk := spec_priority_walk total_assets (sorted_by Z.leb priority creditors) in
     (∃ ds, compute_distributions creditors total_assets "PRIORITY" = Ok ds
        ∧ paid ds ≡ₚ walk_paid walk
        ∧ (sum (amount_micros <$> creditors) ≠ 0 → paid ds = walk_paid walk))
     ∧ (∀ c rc d rd, (c, rc) ∈ walk → (d, rd) ∈ walk →
          priority c < priority d → 0 < rd → rc = amount_micros c))
  ∧ (let X := {| agent_id := "X"; amount_micros := 400; priority := 1;
                 collateralized := false |} in
     let Y := {| agent_id := "Y"; amount_micros := 600; priority := 2;
                 collateralized := false |} in
     compute_distributions [X; Y] 500 "PRIORITY"
       = Ok [ {| creditor_id := "X"; receives_micros := 400; recovery_bps := 10000 |};
              {| creditor_id := "Y"; receives_micros := 100; recovery_bps := 1666 |} ]
     ∧ recovery_rate_bps <$>
         make_dbp (λ s, s) (λ _ _, Ok "00") 1 "D" "VOLUNTARY" "TIMEOUT" "ref" [X; Y]
           [ {| asset_type := "usdc"; value_micros := 500; liquid := true |} ]
           "PRIORITY" "arbiter" "key"
       = Ok 5000).
Proof.
  split.
  - intros creditors total_assets Hcs HT walk. split.
    + by apply compute_distributions_priority.
    + intros c rc d rd. apply walk_in_order; [|by unfold nonneg_amounts;
        rewrite sorted_by_Permutation|done].
      apply StronglySorted_sorted_by.
  - split; vm_compute; reflexivity.
Qed.

Lemma priority_pays_in_order_witness :
  ∃ ds, compute_distributions
          [ {| agent_id := "b"; amount_micros := 30; priority := 2; collateralized := false |};
            {| agent_id := "a"; amount_micros := 20; priority := 1; collateralized := true |} ]
          40 "PRIORITY" = Ok ds
    ∧ paid ds = [("a", 20); ("b", 20)].
Proof.
  destruct priority_pays_in_order as [Hwalk _].
  edestruct Hwalk as [(ds & Hds & _ & Heq) _];
    [| |exists ds; split; [exact Hds|apply Heq]].
  - repeat constructor; simpl; lia.
  - lia.
  - vm_compute. discriminate.
Defined.

(** C4. [PRO_RATA] computes [int((c.amount / total_owed) * total_assets)]
    and [int((receives / c.amount) * 10000)] in binary64.  On X owed 400 and
    Y owed 600 with assets of 500 this gives X 200 at 5000 bps and Y 300 at
    5000 bps, with a recovery rate of 5000 bps, as the exact floors do.  On X
    owed 1 and Y owed 48 with assets of 49 the code gives X nothing, where
    the floor of [1 * 49 / 49] is 1; on one creditor owed 100 with assets of
    57 the code gives 5699 bps, where the floor of [57 * 10000 / 100] is
    5700. *)
Theorem pro_rata_is_not_exact_floor :
  (let X := {| agent_id := "X"; amount_micros := 400; priority := 1;
               collateralized := false |} in
   let Y := {| agent_id := "Y"; amount_micros := 600; priority := 2;
               collateralized := false |} in
   compute_distributions [X; Y] 500 "PRO_RATA"
     = Ok [ {| creditor_id := "X"; receives_micros := 200; recovery_bps := 5000 |};
            {| creditor_id := "Y"; receives_micros := 300; recovery_bps := 5000 |} ]
   ∧ recovery_rate_bps <$>
       make_dbp (λ s, s) (λ _ _, Ok "00") 1 "D" "VOLUNTARY" "TIMEOUT" "ref" [X; Y]
         [ {| asset_type := "usdc"; value_micros := 500; liquid := true |} ]
         "PRO_RATA" "arbiter" "key"
     = Ok 5000)
  ∧ (let X := {| agent_id := "X"; amount_micros := 1; priority := 1;
                 collateralized := false |} in
     let Y := {| agent_id := "Y"; amount_micros := 48; priority := 1;
                 collateralized := false |} in
     compute_distributions [X; Y] 49 "PRO_RATA"
       = Ok [ {| creditor_id := "X"; receives_micros := 0; recovery_bps := 0 |};
              {| creditor_id := "Y"; receives_micros := 48; recovery_bps := 10000 |} ]
     ∧ (amount_micros X * 49) `div` sum (amount_micros <$> [X; Y]) = 1)
  ∧ (let X := {| agent_id := "X"; amount_micros := 100; priority := 1;
                 collateralized := false |} in
     compute_distributions [X] 57 "PRO_RATA"
       = Ok [ {| creditor_id := "X"; receives_micros := 57; recovery_bps := 5699 |} ]
     ∧ (57 * 10000) `div` amount_micros X = 5700).
Proof. repeat split; vm_compute; reflexivity. Qed.

(** *** [resolve_default] *)

Section Resolve.
Variable hash_bytes : string → string.
Variable verify : string → string → string → bool.

Lemma get_dbp_content_Ok dbp :
  canonical_dbp dbp →
  ∃ content bytes, get_dbp_content dbp = Ok content
    ∧ canonicalize_bytes (VDict content) = Ok bytes.
Proof.
  intros Hdom. unfold get_dbp_content.
  destruct (dict_del "default_id" (to_dict dbp)) as [d1|] eqn:H1; [|done].
  rewrite bind_Ok.
  destruct (dict_del "dbp_hash" d1) as [d2|] eqn:H2;
    [|by injection H1 as <-].
  rewrite bind_Ok.
  destruct (dict_del "signature_ed25519" d2) as [d3|] eqn:H3;
    [|by injection H1 as <-; injection H2 as <-].
  apply (in_domain_dict_del _ _ _ H1), (in_domain_dict_del _ _ _ H2),
    (in_domain_dict_del _ _ _ H3) in Hdom.
  destruct (canonicalize_total _ Hdom) as [bytes Hbytes]. by exists d3, bytes.
Qed.

Lemma canonical_dbp_total_assets dbp :
  canonical_dbp dbp → total_value_micros (assets_snapshot dbp) ≤ 2 ^ 53 - 1.
Proof.
  unfold canonical_dbp. cbn [in_domain to_dict forallb snd].
  rewrite !andb_true_iff. unfold safe_integer. rewrite !andb_true_iff.
  intros H. decompose [and] H. lia.
Qed.

Lemma recovery_rate_returns total_distributed total_owed :
  0 ≤ total_distributed < 2 ^ 1000 →
  ∃ expected, recovery_rate total_distributed total_owed = Ok expected
    ∧ (total_owed ≤ 0 → expected = 0).
Proof.
  intros Htd. unfold recovery_rate. destruct (Z.ltb_spec 0 total_owed); [|by eexists].
  destruct (int_ratio_times_10000_returns total_distributed total_owed) as [r ->];
    [lia|nia|]. exists r. split; [done|lia].
Qed.

Lemma resolve_default_spec dbp arbiter_public_key :
  canonical_dbp dbp →
  Forall (λ d, 0 ≤ receives_micros d) (distributions (liquidation_plan dbp)) →
  let total_distributed := sum (receives_micros <$> distributions (liquidation_plan dbp)) in
  let total_owed := total_owed_micros (obligations_snapshot dbp) in
  let total_assets := total_value_micros (assets_snapshot dbp) in
  ∃ content bytes,
    get_dbp_content dbp = Ok content
    ∧ canonicalize_bytes (VDict content) = Ok bytes
    ∧ (verify (hash_bytes bytes) (signature_ed25519 dbp) arbiter_public_key = false →
       resolve_default hash_bytes verify dbp arbiter_public_key
         = Ok (invalid "Invalid arbiter signature"))
    ∧ (verify (hash_bytes bytes) (signature_ed25519 dbp) arbiter_public_key = true →
       (total_assets < total_distributed →
        resolve_default hash_bytes verify dbp arbiter_public_key
          = Ok (invalid "Distributions exceed available assets"))
       ∧ (total_distributed ≤ total_assets →
          ∃ expected,
            recovery_rate total_distributed total_owed = Ok expected
            ∧ (total_owed ≤ 0 → expected = 0)
            ∧ (recovery_rate_bps dbp ≠ expected →
               resolve_default hash_bytes verify dbp arbiter_public_key
                 = Ok (invalid ("Recovery rate mismatch: expected " +:+ str_int expected
                                +:+ ", got " +:+ str_int (recovery_rate_bps dbp))))
            ∧ (recovery_rate_bps dbp = expected →
               resolve_default hash_bytes verify dbp arbiter_public_key
                 = Ok {| valid := true;
                         res_distributions := distributions (liquidation_plan dbp);
                         res_recovery_rate_bps := recovery_rate_bps dbp;
                         error := None |}))).
Proof.
  intros Hdom Hrecv td to ta.
  destruct (get_dbp_content_Ok dbp Hdom) as (content & bytes & Hcontent & Hbytes).
  exists content, bytes. split; [done|]. split; [done|].
  unfold resolve_default. rewrite Hcontent, bind_Ok, Hbytes, bind_Ok.
  fold td to ta. split.
  { by intros ->. }
  intros ->. cbn [negb]. split.
  { intros Hlt. by destruct (Z.ltb_spec ta td); [|lia]. }
  intros Hle. destruct (Z.ltb_spec ta td) as [|_]; [lia|].
  destruct (recovery_rate_returns td to) as (expected & Hexp & Hzero).
  { pose proof (canonical_dbp_total_assets dbp Hdom). fold ta in H.
    assert (0 ≤ td) by (apply sum_nonneg; by apply Forall_fmap).
    assert (2 ^ 53 < 2 ^ 1000) by (by apply Z.pow_lt_mono_r). lia. }
  exists expected. rewrite Hexp, bind_Ok. split; [done|]. split; [done|].
  split; intros Hrate.
  - by destruct (Z.eqb_spec (recovery_rate_bps dbp) expected).
  - by destruct (Z.eqb_spec (recovery_rate_bps dbp) expected).
Qed.
End Resolve.

(** C6, as stated, fails: for a DBP whose signature verifies, whose
    distributions (600) exceed the sum of the asset values of its snapshot
    (500) but not the embedded [total_value_micros] (1000), [resolve_default]
    answers [valid = true]. *)
Lemma resolve_default_trusts_embedded_total :
  sum (value_micros <$> assets (assets_snapshot overdrawn_dbp))
    < sum (receives_micros <$> distributions (liquidation_plan overdrawn_dbp))
  ∧ resolve_default (λ s, s) (λ _ _ _, true) overdrawn_dbp "arb"
    = Ok {| valid := true;
            res_distributions := distributions (liquidation_plan overdrawn_dbp);
            res_recovery_rate_bps := 6000;
            error := None |}.
Proof. split; vm_compute; reflexivity. Qed.

(** The recomputed rate is a binary64 result: with distributions of 57
    against 100 owed, [resolve_default] expects 5699 and turns down the DBP
    that embeds the exact floor 5700. *)
Lemma resolve_default_expects_binary64_rate :
  (57 * 10000) `div` 100 = 5700
  ∧ resolve_default (λ s, s) (λ _ _ _, true) exact_rate_dbp "arb"
    = Ok (invalid "Recovery rate mismatch: expected 5699, got 5700").
Proof. split; vm_compute; reflexivity. Qed.

(** C6, amended. For a DBP whose dictionary is in the canonical domain and
    whose distributions are not negative, [resolve_default] returns:
    [valid = false], "Invalid arbiter signature", when the signature over the
    hash of the canonical content fails; otherwise [valid = false],
    "Distributions exceed available assets", when the sum of
    [receives_micros] exceeds the embedded [total_value_micros]; otherwise
    [valid = false], "Recovery rate mismatch", when the embedded
    [recovery_rate_bps] differs from the value the function recomputes from
    that sum and the embedded [total_owed_micros] (which is 0 when
    [total_owed_micros] is not positive); otherwise [valid = true] with the
    embedded distributions and [recovery_rate_bps]. *)
Theorem resolve_default_checks hash_bytes verify dbp arbiter_public_key :
  canonical_dbp dbp →
  Forall (λ d, 0 ≤ receives_micros d) (distributions (liquidation_plan dbp)) →
  let total_distributed := sum (receives_micros <$> distributions (liquidation_plan dbp)) in
  let total_owed := total_owed_micros (obligations_snapshot dbp) in
  let total_assets := total_value_micros (assets_snapshot dbp) in
  ∃ content bytes,
    get_dbp_content dbp = Ok content
    ∧ canonicalize_bytes (VDict content) = Ok bytes
    ∧ (verify (hash_bytes bytes) (signature_ed25519 dbp) arbiter_public_key = false →
       resolve_default hash_bytes verify dbp arbiter_public_key
         = Ok (invalid "Invalid arbiter signature"))
    ∧ (verify (hash_bytes bytes) (signature_ed25519 dbp) arbiter_public_key = true →
       (total_assets < total_distributed →
        resolve_default hash_bytes verify dbp arbiter_public_key
          = Ok (invalid "Distributions exceed available assets"))
       ∧ (total_distributed ≤ total_assets →
          ∃ expected,
            recovery_rate total_distributed total_owed = Ok expected
            ∧ (total_owed ≤ 0 → expected = 0)
            ∧ (recovery_rate_bps dbp ≠ expected →
               resolve_default hash_bytes verify dbp arbiter_public_key
                 = Ok (invalid ("Recovery rate mismatch: expected " +:+ str_int expected
                                +:+ ", got " +:+ str_int (recovery_rate_bps dbp))))
            ∧ (recovery_rate_bps dbp = expected →
               resolve_default hash_bytes verify dbp arbiter_public_key
                 = Ok {| valid := true;
                         res_distributions := distributions (liquidation_plan dbp);
                         res_recovery_rate_bps := recovery_rate_bps dbp;
                         error := None |}))).
Proof. apply resolve_default_spec. Qed.

Lemma resolve_default_checks_witness :
  resolve_default (λ s, s) (λ _ _ _, false) overdrawn_dbp "arb"
  = Ok (invalid "Invalid arbiter signature").
Proof.
  destruct (resolve_default_checks (λ s, s) (λ _ _ _, false) overdrawn_dbp "arb")
    as (content & bytes & _ & _ & Hsig & _).
  - reflexivity.
  - repeat constructor; simpl; lia.
  - apply Hsig. reflexivity.
Defined.

End DbpFacts.

Module NettingFacts.
Import Canonical Msr Netting PyFacts CanonicalFacts.

(** *** Flow keys and [split] *)

Lemma count_char_app c s1 s2 :
  count_char c (s1 +:+ s2) = (count_char c s1 + count_char c s2)%nat.
Proof.
  induction s1 as [|c' s1 IH]; [done|]. rewrite string_app_cons. simpl. rewrite IH. lia.
Qed.

Lemma count_char_flow_key a b :
  count_char "|" (flow_key a b) = (count_char "|" a + 1 + count_char "|" b)%nat.
Proof. unfold flow_key. rewrite !count_char_app. simpl. lia. Qed.

Lemma split_nonempty sep s : split sep s ≠ [].
Proof.
  destruct s as [|c s]; simpl; [done|].
  destruct (Ascii.eqb c sep); [done|]. by destruct (split sep s).
Qed.

Lemma split_length sep s : length (split sep s) = S (count_char sep s).
Proof.
  induction s as [|c s IH]; simpl; [done|].
  destruct (Ascii.eqb c sep); simpl; [by rewrite IH|].
  pose proof (split_nonempty sep s). destruct (split sep s); [done|]. by simpl in *.
Qed.

Lemma split_free sep s : count_char sep s = 0%nat → split sep s = [s].
Proof.
  induction s as [|c s IH]; simpl; [done|].
  destruct (Ascii.eqb c sep); simpl; [done|]. intros Hs. by rewrite IH.
Qed.

Lemma split_app_sep sep s1 s2 :
  count_char sep s1 = 0%nat →
  split sep (s1 +:+ String sep s2) = s1 :: split sep s2.
Proof.
  induction s1 as [|c s1 IH]; intros Hs1.
  - rewrite string_app_nil_l. simpl. by rewrite Ascii.eqb_refl.
  - rewrite string_app_cons. simpl in *.
    destruct (Ascii.eqb c sep); [done|]. by rewrite IH.
Qed.

Lemma split_flow_key a b :
  pipe_free a → pipe_free b → split "|" (flow_key a b) = [a; b].
Proof.
  intros Ha Hb. unfold flow_key.
  change ("|" +:+ b) with (String "|" b). rewrite split_app_sep by done.
  by rewrite split_free.
Qed.

Lemma flow_key_inj a b a' b' :
  pipe_free a → pipe_free b → pipe_free a' → pipe_free b' →
  flow_key a b = flow_key a' b' → a = a' ∧ b = b'.
Proof.
  intros Ha Hb Ha' Hb' Heq. apply (f_equal (split "|")) in Heq.
  rewrite !split_flow_key in Heq by done. by injection Heq.
Qed.

Lemma unpack2_Ok l p : unpack2 l = Ok p ↔ l = [p.1; p.2].
Proof.
  destruct p as [a b]. destruct l as [|x [|y [|z l]]]; simpl; split; try done.
  - by intros [= -> ->].
  - by intros [= -> ->].
Qed.

Lemma unpack2_flow_key a b :
  pipe_free a → pipe_free b → unpack2 (split "|" (flow_key a b)) = Ok (a, b).
Proof. intros Ha Hb. by rewrite split_flow_key. Qed.

(** A flow key splits in two exactly when both identifiers are free of the
    separator. *)
Lemma unpack2_flow_key_Ok a b p :
  unpack2 (split "|" (flow_key a b)) = Ok p → pipe_free a ∧ pipe_free b.
Proof.
  intros Hp%unpack2_Ok. apply (f_equal length) in Hp.
  rewrite split_length, count_char_flow_key in Hp. simpl in Hp.
  unfold pipe_free. lia.
Qed.

Lemma unpack2_flow_key_Raise a b :
  ¬ (pipe_free a ∧ pipe_free b) →
  unpack2 (split "|" (flow_key a b))
    = Raise (ValueError "too many values to unpack (expected 2)").
Proof.
  intros Hab. pose proof (split_length "|" (flow_key a b)) as Hlen.
  rewrite count_char_flow_key in Hlen. unfold pipe_free in Hab.
  destruct (split "|" (flow_key a b)) as [|x [|y [|z l]]]; simpl in *; try done; lia.
Qed.

Lemma pair_key_eq a b :
  pair_key a b = if String.leb a b then flow_key a b else flow_key b a.
Proof. unfold pair_key, sorted. simpl. by destruct (String.leb a b). Qed.

Lemma pair_key_sym a b : pair_key a b = pair_key b a.
Proof.
  rewrite !pair_key_eq.
  destruct (String.leb a b) eqn:Hab, (String.leb b a) eqn:Hba; try done.
  - by rewrite (String.leb_antisym a b).
  - destruct (String.leb_total a b); congruence.
Qed.

Lemma pair_key_inj a b a' b' :
  pipe_free a → pipe_free b → pipe_free a' → pipe_free b' →
  pair_key a b = pair_key a' b' → (a' = a ∧ b' = b) ∨ (a' = b ∧ b' = a).
Proof.
  intros Ha Hb Ha' Hb'. rewrite !pair_key_eq.
  destruct (String.leb a b), (String.leb a' b');
    intros [-> ->]%flow_key_inj; auto.
Qed.

(** *** The balance matrix *)

Lemma get0_insert (m : gmap string Z) k k' v :
  get0 (<[k := v]> m) k' = if decide (k = k') then v else get0 m k'.
Proof. unfold get0. rewrite lookup_insert. by destruct (decide (k = k')). Qed.

Lemma add_receipt_comm st x y :
  add_receipt (add_receipt st x) y = add_receipt (add_receipt st y) x.
Proof.
  destruct st as [m t]. unfold add_receipt. fold (receipt_key x) (receipt_key y).
  f_equal; [|lia]. rewrite !get0_insert.
  destruct (decide (receipt_key x = receipt_key y)) as [Heq|Hne].
  - rewrite Heq. rewrite decide_True by done. rewrite !insert_insert_eq. f_equal. lia.
  - destruct (decide (receipt_key y = receipt_key x)); [congruence|].
    by apply insert_insert_ne.
Qed.

Lemma foldl_Permutation {A B} (f : A → B → A) l1 l2 :
  (∀ a x y, f (f a x) y = f (f a y) x) → l1 ≡ₚ l2 → ∀ a, foldl f a l1 = foldl f a l2.
Proof.
  intros Hf. induction 1 as [|x l1 l2 _ IH|x y l|l1 l2 l3 _ IH1 _ IH2]; intros a; simpl.
  - done.
  - apply IH.
  - by rewrite Hf.
  - by rewrite IH1.
Qed.

Lemma foldl_add_receipt_Permutation l1 l2 st :
  l1 ≡ₚ l2 → foldl add_receipt st l1 = foldl add_receipt st l2.
Proof. intros Hl. by apply foldl_Permutation; [apply add_receipt_comm|]. Qed.

Lemma add_participants_comm s x y :
  add_participants (add_participants s x) y = add_participants (add_participants s y) x.
Proof. unfold add_participants. set_solver. Qed.

Lemma foldl_add_participants_Permutation l1 l2 s :
  l1 ≡ₚ l2 → foldl add_participants s l1 = foldl add_participants s l2.
Proof. intros Hl. by apply foldl_Permutation; [apply add_participants_comm|]. Qed.

Lemma elem_of_foldl_add_participants s rs x :
  x ∈ foldl add_participants s rs ↔
    x ∈ s ∨ ∃ r, r ∈ rs ∧ (x = payer_agent_id r ∨ x = payee_agent_id r).
Proof.
  revert s. induction rs as [|r rs IH]; intros s; simpl.
  - split; [by left|]. intros [?|(r & Hr & _)]; [done|]. by inversion Hr.
  - rewrite IH. unfold add_participants. split.
    + intros [Hx|(r' & Hr' & Hx)].
      * apply elem_of_union in Hx as [Hx|Hx%elem_of_singleton].
        -- apply elem_of_union in Hx as [Hx|Hx%elem_of_singleton]; [by left|].
           right. exists r. split; [by left|by left].
        -- right. exists r. split; [by left|by right].
      * right. exists r'. split; [by right|done].
    + intros [Hx|(r' & [->|Hr']%elem_of_cons & Hx)].
      * left. set_solver.
      * left. set_solver.
      * right. by exists r'.
Qed.

Lemma foldl_add_receipt_total st rs :
  (foldl add_receipt st rs).2 = st.2 + sum (price_usd_micros <$> rs).
Proof.
  revert st. induction rs as [|r rs IH]; intros [m t].
  - simpl. rewrite sum_nil. lia.
  - cbn [foldl]. rewrite IH, fmap_cons, sum_cons. simpl. lia.
Qed.

Lemma foldl_add_receipt_get0 st rs k :
  get0 (foldl add_receipt st rs).1 k
    = get0 st.1 k + sum (price_usd_micros <$> filter (λ r, receipt_key r = k) rs).
Proof.
  revert st. induction rs as [|r rs IH]; intros [m t].
  - simpl. rewrite sum_nil. lia.
  - cbn [foldl]. rewrite IH. unfold add_receipt at 1. fold (receipt_key r).
    cbn [fst]. rewrite get0_insert, filter_cons.
    destruct (decide (receipt_key r = k)) as [->|Hne].
    + rewrite fmap_cons, sum_cons. lia.
    + lia.
Qed.

Lemma foldl_add_receipt_dom st rs k :
  k ∈ dom (foldl add_receipt st rs).1 ↔ k ∈ dom st.1 ∨ ∃ r, r ∈ rs ∧ receipt_key r = k.
Proof.
  revert st. induction rs as [|r rs IH]; intros [m t].
  - simpl. split; [by left|]. intros [?|(r & Hr & _)]; [done|]. by inversion Hr.
  - cbn [foldl]. rewrite IH. unfold add_receipt at 1. fold (receipt_key r).
    cbn [fst]. rewrite dom_insert_L. split.
    + intros [[->%elem_of_singleton|Hk]%elem_of_union|(r' & Hr' & Hk)].
      * right. exists r. split; [by left|done].
      * by left.
      * right. exists r'. split; [by right|done].
    + intros [Hk|(r' & [->|Hr']%elem_of_cons & Hk)].
      * left. set_solver.
      * left. set_solver.
      * right. by exists r'.
Qed.

(** The balance of a flow key is the gross flow. *)
Lemma balances_gross_flow rs a b :
  Forall pipe_free_ids rs → pipe_free a → pipe_free b →
  get0 (foldl add_receipt (∅, 0) rs).1 (flow_key a b) = gross_flow rs a b.
Proof.
  intros Hrs Ha Hb. rewrite foldl_add_receipt_get0. unfold get0 at 1.
  cbn [fst]. rewrite lookup_empty. cbn [default]. rewrite Z.add_0_l. unfold gross_flow.
  assert (filter (λ r, receipt_key r = flow_key a b) rs
          = filter (λ r, payer_agent_id r = a ∧ payee_agent_id r = b) rs) as ->; [|done].
  induction Hrs as [|r rs [Hr1 Hr2] Hrs IH]; [done|].
  rewrite !filter_cons, IH.
  destruct (decide (receipt_key r = flow_key a b)) as [Heq|Hne].
  - apply flow_key_inj in Heq as [-> ->]; [|done..]. by rewrite decide_True.
  - rewrite decide_False; [done|]. intros [<- <-]. by apply Hne.
Qed.

Lemma gross_flow_nonzero rs a b :
  gross_flow rs a b ≠ 0 → ∃ r, r ∈ rs ∧ payer_agent_id r = a ∧ payee_agent_id r = b.
Proof.
  unfold gross_flow. intros Hne.
  destruct (filter _ rs) as [|r l] eqn:E; [done|].
  assert (r ∈ filter (λ r, payer_agent_id r = a ∧ payee_agent_id r = b) rs) as Hr
    by (rewrite E; by left).
  apply list_elem_of_filter in Hr as [[? ?] ?]. by exists r.
Qed.

Lemma gross_flow_Permutation rs1 rs2 a b :
  rs1 ≡ₚ rs2 → gross_flow rs1 a b = gross_flow rs2 a b.
Proof. intros Hp. unfold gross_flow. apply sum_Permutation. by rewrite Hp. Qed.

Lemma balances_dom rs k :
  Forall pipe_free_ids rs →
  k ∈ dom (foldl add_receipt (∅, 0) rs).1 →
  ∃ a b, pipe_free a ∧ pipe_free b ∧ k = flow_key a b
         ∧ ∃ r, r ∈ rs ∧ payer_agent_id r = a ∧ payee_agent_id r = b.
Proof.
  intros Hrs [Hk|(r & Hr & <-)]%foldl_add_receipt_dom; [set_solver|].
  rewrite Forall_forall in Hrs. destruct (Hrs r Hr) as [? ?].
  exists (payer_agent_id r), (payee_agent_id r). repeat split; try done. by exists r.
Qed.

(** *** The keys of a dictionary, sorted *)

Lemma elem_of_sorted_keys (m : gmap string Z) k : k ∈ sorted_keys m ↔ k ∈ dom m.
Proof.
  unfold sorted_keys. rewrite elem_of_sorted, elem_of_dom, list_elem_of_fmap. split.
  - intros ([k' v] & -> & Hkv%elem_of_map_to_list). by exists v.
  - intros [v Hv]. exists (k, v). split; [done|]. by apply elem_of_map_to_list.
Qed.

Lemma NoDup_sorted_keys (m : gmap string Z) : NoDup (sorted_keys m).
Proof. apply sorted_NoDup, NoDup_fst_map_to_list. Qed.

Lemma get0_nonzero (m : gmap string Z) k : get0 m k ≠ 0 → k ∈ dom m.
Proof. unfold get0. rewrite elem_of_dom. by destruct (m !! k). Qed.

(** *** Step 4: netting the bilateral pairs *)

Section NetPairs.
Variable balances : gmap string Z.

#[local] Abbreviation flow := (Netting.flow balances).
#[local] Abbreviation net_inv := (Netting.net_inv balances).

Lemma net_inv_empty : net_inv ∅ (∅, ∅).
Proof.
  split; simpl.
  - intros pk. split; [set_solver|]. intros (a & b & _ & _ & H & _). set_solver.
  - intros k v. rewrite lookup_empty. split; [done|].
    intros (a & b & _ & _ & _ & H & _). set_solver.
Qed.

Lemma processed_insert (seen processed : gset string) a b :
  pipe_free a → pipe_free b →
  (∀ pk, pk ∈ processed ↔
     ∃ a b, pipe_free a ∧ pipe_free b ∧ flow_key a b ∈ seen ∧ pk = pair_key a b) →
  ∀ pk, pk ∈ processed ∪ {[pair_key a b]} ↔
    ∃ a' b', pipe_free a' ∧ pipe_free b' ∧ flow_key a' b' ∈ {[flow_key a b]} ∪ seen
             ∧ pk = pair_key a' b'.
Proof.
  intros Ha Hb Hp pk. rewrite elem_of_union, elem_of_singleton, Hp. split.
  - intros [(a' & b' & ? & ? & ? & ?)| ->].
    + exists a', b'. repeat split; try done. set_solver.
    + exists a, b. repeat split; try done. set_solver.
  - intros (a' & b' & Ha' & Hb' & [Hk%elem_of_singleton|Hk]%elem_of_union & ->).
    + apply flow_key_inj in Hk as [-> ->]; [|done..]. by right.
    + left. by exists a', b'.
Qed.

Lemma net_insert (net : gmap string Z) (processed : gset string) a b :
  pipe_free a → pipe_free b → pair_key a b ∉ processed → flow b a < flow a b →
  (∀ k v, net !! k = Some v ↔
     ∃ a b, pipe_free a ∧ pipe_free b ∧ k = flow_key a b ∧ pair_key a b ∈ processed
            ∧ flow b a < flow a b ∧ v = flow a b - flow b a) →
  ∀ k v, <[flow_key a b := flow a b - flow b a]> net !! k = Some v ↔
    ∃ a' b', pipe_free a' ∧ pipe_free b' ∧ k = flow_key a' b'
             ∧ pair_key a' b' ∈ processed ∪ {[pair_key a b]}
             ∧ flow b' a' < flow a' b' ∧ v = flow a' b' - flow b' a'.
Proof.
  intros Ha Hb Hnew Hlt Hnet k v.
  destruct (decide (k = flow_key a b)) as [->|Hk].
  - rewrite lookup_insert_eq. split.
    + intros [= <-]. exists a, b. repeat split; try done. set_solver.
    + intros (a' & b' & Ha' & Hb' & Heq & _ & _ & ->).
      apply flow_key_inj in Heq as [<- <-]; done.
  - rewrite lookup_insert_ne by done. rewrite Hnet. split.
    + intros (a' & b' & ? & ? & ? & ? & ? & ?). exists a', b'.
      repeat split; try done. set_solver.
    + intros (a' & b' & Ha' & Hb' & -> & [Hp|Hp%elem_of_singleton]%elem_of_union & Hlt' & ->).
      * by exists a', b'.
      * symmetry in Hp. apply pair_key_inj in Hp as [[-> ->]|[-> ->]]; [done|lia|done..].
Qed.

Lemma net_keep (net : gmap string Z) (processed : gset string) a b :
  pipe_free a → pipe_free b → flow a b = flow b a →
  (∀ k v, net !! k = Some v ↔
     ∃ a b, pipe_free a ∧ pipe_free b ∧ k = flow_key a b ∧ pair_key a b ∈ processed
            ∧ flow b a < flow a b ∧ v = flow a b - flow b a) →
  ∀ k v, net !! k = Some v ↔
    ∃ a' b', pipe_free a' ∧ pipe_free b' ∧ k = flow_key a' b'
             ∧ pair_key a' b' ∈ processed ∪ {[pair_key a b]}
             ∧ flow b' a' < flow a' b' ∧ v = flow a' b' - flow b' a'.
Proof.
  intros Ha Hb Heq Hnet k v. rewrite Hnet. split.
  - intros (a' & b' & ? & ? & ? & ? & ? & ?). exists a', b'.
    repeat split; try done. set_solver.
  - intros (a' & b' & Ha' & Hb' & -> & [Hp|Hp%elem_of_singleton]%elem_of_union & Hlt' & ->).
    + by exists a', b'.
    + symmetry in Hp. apply pair_key_inj in Hp as [[-> ->]|[-> ->]]; [lia|lia|done..].
Qed.

Lemma net_pair_step seen st a b :
  pipe_free a → pipe_free b → net_inv seen st →
  ∃ st', net_pair balances st (flow_key a b) = Ok st'
         ∧ net_inv ({[flow_key a b]} ∪ seen) st'.
Proof.
  intros Ha Hb [Hproc Hnet]. destruct st as [net processed]. simpl in Hproc, Hnet.
  unfold net_pair. rewrite unpack2_flow_key, bind_Ok by done.
  fold (pair_key a b). fold (flow a b) (flow b a).
  destruct (decide (pair_key a b ∈ processed)) as [Hin|Hnew].
  - eexists. split; [done|]. split; simpl; [|done].
    intros pk. rewrite Hproc. split.
    + intros (a' & b' & ? & ? & ? & ?). exists a', b'. repeat split; try done. set_solver.
    + intros (a' & b' & Ha' & Hb' & [Hk%elem_of_singleton|Hk]%elem_of_union & ->).
      * apply flow_key_inj in Hk as [-> ->]; [|done..]. by apply Hproc.
      * by exists a', b'.
  - pose proof (processed_insert seen processed a b Ha Hb Hproc) as Hproc'.
    destruct (Z.ltb_spec (flow b a) (flow a b)) as [Hlt|Hge].
    { eexists. split; [done|]. split; simpl; [done|]. by apply net_insert. }
    destruct (Z.ltb_spec (flow a b) (flow b a)) as [Hlt|Hge'].
    { eexists. split; [done|]. split; simpl; [done|].
      rewrite (pair_key_sym a b). apply net_insert; try done.
      by rewrite (pair_key_sym b a). }
    eexists. split; [done|]. split; simpl; [done|]. apply net_keep; (done || lia).
Qed.

Lemma net_pairs_loop ks seen st :
  Forall is_flow_key ks → net_inv seen st →
  ∃ st', for_loop (net_pair balances) st ks = Ok st'
         ∧ net_inv (list_to_set ks ∪ seen) st'.
Proof.
  intros Hks. revert seen st.
  induction Hks as [|k ks (a & b & Ha & Hb & ->) Hks IH]; intros seen st Hinv.
  - exists st. split; [done|]. by rewrite list_to_set_nil, (left_id_L ∅ (∪)).
  - destruct (net_pair_step seen st a b Ha Hb Hinv) as (st1 & Hst1 & Hinv1).
    destruct (IH _ _ Hinv1) as (st' & Hst' & Hinv').
    exists st'. split.
    + simpl. by rewrite Hst1, bind_Ok.
    + rewrite list_to_set_cons.
      replace ({[flow_key a b]} ∪ list_to_set ks ∪ seen)
        with (list_to_set ks ∪ ({[flow_key a b]} ∪ seen)) by set_solver.
      done.
Qed.

(** After the loop over all the keys of [balances], [net_balances] holds,
    for every ordered pair whose flow exceeds the reverse flow, the
    difference, and nothing else. *)
Lemma net_pairs_all :
  (∀ k, k ∈ dom balances → is_flow_key k) →
  ∃ net processed,
    for_loop (net_pair balances) (∅, ∅) (sorted_keys balances) = Ok (net, processed)
    ∧ ∀ k v, net !! k = Some v ↔
        ∃ a b, pipe_free a ∧ pipe_free b ∧ k = flow_key a b
               ∧ flow b a < flow a b ∧ v = flow a b - flow b a.
Proof.
  intros Hdom.
  destruct (net_pairs_loop (sorted_keys balances) ∅ (∅, ∅)) as ([net processed] & Hloop & Hproc & Hnet).
  { apply Forall_forall. intros k Hk%elem_of_sorted_keys. by apply Hdom. }
  { apply net_inv_empty. }
  exists net, processed. split; [done|]. simpl in Hproc, Hnet.
  intros k v. rewrite Hnet. split.
  - intros (a & b & ? & ? & ? & _ & ? & ?). by exists a, b.
  - intros (a & b & Ha & Hb & -> & Hlt & ->). exists a, b. repeat split; try done.
    apply Hproc.
    destruct (decide (flow a b = 0)) as [Hz|Hnz].
    + exists b, a. repeat split; try done; [|apply pair_key_sym].
      apply elem_of_union_l, elem_of_list_to_set, elem_of_sorted_keys, get0_nonzero.
      fold (flow b a). lia.
    + exists a, b. repeat split; try done.
      apply elem_of_union_l, elem_of_list_to_set, elem_of_sorted_keys, get0_nonzero.
      by fold (flow a b).
Qed.
End NetPairs.

(** *** Step 5: the obligations *)

Lemma to_obligation_flow_key (net : gmap string Z) a b v :
  pipe_free a → pipe_free b → net !! flow_key a b = Some v →
  to_obligation net (flow_key a b)
    = Ok {| from_agent := a; to_agent := b; amount_usd_micros := v |}.
Proof.
  intros Ha Hb Hv. unfold to_obligation.
  by rewrite unpack2_flow_key, bind_Ok, Hv.
Qed.

Lemma obligations_of_keys (net : gmap string Z) ks :
  Forall (λ k, is_flow_key k ∧ is_Some (net !! k)) ks →
  ∃ obs, for_each (to_obligation net) ks = Ok obs
    ∧ obligation_key <$> obs = ks
    ∧ Forall (λ o, pipe_free (from_agent o) ∧ pipe_free (to_agent o)
                   ∧ net !! obligation_key o = Some (amount_usd_micros o)) obs.
Proof.
  induction 1 as [|k ks [(a & b & Ha & Hb & ->) [v Hv]] _ (obs & Hobs & Hkeys & Hall)].
  - by exists [].
  - exists ({| from_agent := a; to_agent := b; amount_usd_micros := v |} :: obs).
    rewrite for_each_cons, (to_obligation_flow_key net a b v), bind_Ok, Hobs, bind_Ok
      by done.
    split; [done|]. split; [by rewrite fmap_cons, Hkeys|]. by constructor.
Qed.

Lemma obligations_of_net (net : gmap string Z) :
  (∀ k, k ∈ dom net → is_flow_key k) →
  ∃ obs, for_each (to_obligation net) (sorted_keys net) = Ok obs
    ∧ obligation_key <$> obs = sorted_keys net
    ∧ ∀ a b v, {| from_agent := a; to_agent := b; amount_usd_micros := v |} ∈ obs ↔
        pipe_free a ∧ pipe_free b ∧ net !! flow_key a b = Some v.
Proof.
  intros Hdom.
  destruct (obligations_of_keys net (sorted_keys net)) as (obs & Hobs & Hkeys & Hall).
  { apply Forall_forall. intros k Hk%elem_of_sorted_keys.
    split; [by apply Hdom|by apply elem_of_dom]. }
  exists obs. split; [done|]. split; [done|]. intros a b v.
  rewrite Forall_forall in Hall. split.
  - intros Ho. by apply Hall in Ho.
  - intros (Ha & Hb & Hv).
    assert (flow_key a b ∈ obligation_key <$> obs) as Hin.
    { rewrite Hkeys. apply elem_of_sorted_keys, elem_of_dom. by exists v. }
    apply list_elem_of_fmap in Hin as ([a' b' v'] & Hk & Ho).
    destruct (Hall _ Ho) as (Ha' & Hb' & Hv'). unfold obligation_key in Hk, Hv'.
    simpl in *. apply flow_key_inj in Hk as [-> ->]; [|done..]. congruence.
Qed.

(** *** Steps 2 to 5 together *)

Lemma net_sorted_Permutation l1 l2 hs : l1 ≡ₚ l2 → net_sorted l1 hs = net_sorted l2 hs.
Proof.
  intros Hl. unfold net_sorted.
  by rewrite (foldl_add_receipt_Permutation l1 l2), (foldl_add_participants_Permutation l1 l2).
Qed.

Lemma net_sorted_spec rs hs :
  Forall pipe_free_ids rs →
  ∃ r, net_sorted rs hs = Ok r
    ∧ (∀ a b x, {| from_agent := a; to_agent := b; amount_usd_micros := x |} ∈ obligations r ↔
         gross_flow rs b a < gross_flow rs a b ∧ x = gross_flow rs a b - gross_flow rs b a)
    ∧ NoDup (obligations r)
    ∧ Sorted String.le (obligation_key <$> obligations r)
    ∧ ascending (participants r)
    ∧ (∀ x, x ∈ participants r ↔
         ∃ m, m ∈ rs ∧ (x = payer_agent_id m ∨ x = payee_agent_id m))
    ∧ receipt_hashes r = hs
    ∧ total_volume r = sum (price_usd_micros <$> rs).
Proof.
  intros Hrs. unfold net_sorted.
  pose proof (foldl_add_receipt_total (∅, 0) rs) as Htotal.
  pose proof (balances_gross_flow rs) as Hgross.
  pose proof (balances_dom rs) as Hdom.
  destruct (foldl add_receipt (∅, 0) rs) as [balances total]. simpl in Htotal, Hgross, Hdom.
  destruct (net_pairs_all balances) as (net & processed & -> & Hnet).
  { intros k Hk. destruct (Hdom k Hrs Hk) as (a & b & ? & ? & ? & _). by exists a, b. }
  rewrite bind_Ok.
  destruct (obligations_of_net net) as (obs & -> & Hkeys & Hobs).
  { intros k [v Hv]%elem_of_dom. apply Hnet in Hv as (a & b & ? & ? & ? & _).
    by exists a, b. }
  rewrite bind_Ok. eexists. split; [done|]. simpl.
  assert (∀ a b, gross_flow rs a b ≠ 0 → pipe_free a ∧ pipe_free b) as Hfree.
  { intros a b (m & Hm & <- & <-)%gross_flow_nonzero.
    rewrite Forall_forall in Hrs. by apply Hrs. }
  split; [|split; [|split; [|split; [|split; [|split]]]]].
  - intros a b x. rewrite Hobs, Hnet. unfold flow. split.
    + intros (Ha & Hb & a' & b' & Ha' & Hb' & Hk & Hlt & ->).
      apply flow_key_inj in Hk as [<- <-]; [|done..].
      by rewrite !Hgross in * by done.
    + intros [Hlt ->].
      assert (pipe_free a ∧ pipe_free b) as [Ha Hb].
      { destruct (decide (gross_flow rs a b = 0)); [|by apply Hfree].
        apply and_comm, Hfree. lia. }
      split; [done|]. split; [done|]. exists a, b.
      by rewrite !Hgross by done.
  - apply (NoDup_fmap_1 obligation_key). rewrite Hkeys. apply NoDup_sorted_keys.
  - rewrite Hkeys. apply Sorted_sorted_strings.
  - apply ascending_sorted, NoDup_elements.
  - intros x. rewrite elem_of_sorted, elem_of_elements, elem_of_foldl_add_participants.
    split; [|by right]. intros [?|?]; [set_solver|done].
  - done.
  - rewrite Htotal. lia.
Qed.

Lemma for_loop_Ok_elem {S A} (body : S → A → result S) l st st' x :
  for_loop body st l = Ok st' → x ∈ l → ∃ st1 st2, body st1 x = Ok st2.
Proof.
  revert st. induction l as [|y l IH]; intros st; simpl; [by inversion 2|].
  destruct (body st y) as [st1|] eqn:Hy; [|done]. rewrite bind_Ok.
  intros Hl [->|Hx]%elem_of_cons; [by exists st, st1|]. by eapply IH.
Qed.

(** [net_sorted] returns only when no identifier holds the separator. *)
Lemma net_sorted_Ok_pipe_free rs hs r :
  net_sorted rs hs = Ok r → Forall pipe_free_ids rs.
Proof.
  unfold net_sorted. intros Hr. apply Forall_forall. intros m Hm.
  pose proof (foldl_add_receipt_dom (∅, 0) rs (receipt_key m)) as Hdom.
  destruct (foldl add_receipt (∅, 0) rs) as [balances total]. simpl in Hdom.
  destruct (for_loop (net_pair balances) (∅, ∅) (sorted_keys balances))
    as [st'|] eqn:Hloop; [|done].
  assert (receipt_key m ∈ sorted_keys balances) as Hin.
  { apply elem_of_sorted_keys, Hdom. right. by exists m. }
  destruct (for_loop_Ok_elem _ _ _ _ _ Hloop Hin) as ([net processed] & st2 & Hbody).
  unfold net_pair in Hbody.
  destruct (unpack2 (split "|" (receipt_key m))) as [p|] eqn:Hp; [|done].
  by apply unpack2_flow_key_Ok in Hp.
Qed.

(** *** The hashes of the receipts *)

Section Hashes.
Variable hash_bytes : string → string.

Lemma msr_data_Ok m :
  ∃ data, dict_del "signature_ed25519" (to_dict m) = Ok data
    ∧ json_shaped (VDict data) = true
    ∧ (msr_in_range m → in_domain (VDict data) = true).
Proof.
  destruct (dict_del "signature_ed25519" (to_dict m)) as [data|] eqn:Hdel; [|done].
  exists data. split; [done|]. split.
  - apply (json_shaped_dict_del _ _ _ Hdel). by destruct m as [? ? ? ? ? ? ? ? ? ? ? ? [] ?].
  - apply (in_domain_dict_del _ _ _ Hdel).
Qed.

Lemma get_msr_hash_in_range m :
  msr_in_range m → ∃ h, get_msr_hash hash_bytes m = Ok h.
Proof.
  intros Hm. unfold get_msr_hash.
  destruct (msr_data_Ok m) as (data & -> & _ & Hdom). rewrite bind_Ok.
  unfold canonicalize_bytes. destruct (canonicalize_total _ (Hdom Hm)) as [s ->].
  by eexists.
Qed.

Lemma get_msr_hash_Raise m e :
  get_msr_hash hash_bytes m = Raise e →
  e = ValueError "Number outside safe integer range".
Proof.
  unfold get_msr_hash.
  destruct (msr_data_Ok m) as (data & -> & Hjs & _). rewrite bind_Ok.
  unfold canonicalize_bytes.
  destruct (canonicalize (VDict data)) as [s|e'] eqn:Hc; [done|].
  rewrite bind_Raise. intros [= <-]. by apply (canonicalize_Raise_range _ _ Hjs).
Qed.

Lemma msr_in_range_iff m :
  msr_in_range m ↔
    safe_integer (units m) = true ∧ safe_integer (price_usd_micros m) = true
    ∧ safe_integer (timestamp_ms m) = true.
Proof.
  unfold msr_in_range. destruct m as [? ? ? ? u ? p t ? ? ? ? [] ?]; simpl;
    rewrite ?andb_true_r, !andb_true_iff; tauto.
Qed.

Lemma get_msr_hash_Ok_in_range m h :
  get_msr_hash hash_bytes m = Ok h → msr_in_range m.
Proof.
  unfold get_msr_hash, canonicalize_bytes.
  destruct (dict_del "signature_ed25519" (to_dict m)) as [data|] eqn:Hdel; [|done].
  rewrite bind_Ok. intros Hh.
  assert (in_domain (VDict data) = true) as Hdom.
  { destruct (in_domain (VDict data)) eqn:Hdom; [done|].
    destruct (canonicalize_rejects (VDict data)) as [e He]; [|done|by rewrite He in Hh].
    destruct m as [? ? ? ? u ? p t ? ? ? ? [] ?]; injection Hdel as <-; reflexivity. }
  apply msr_in_range_iff.
  destruct m as [? ? ? ? u ? p t ? ? ? ? [] ?]; injection Hdel as <-; simpl in *;
    rewrite ?andb_true_r, !andb_true_iff in Hdom; tauto.
Qed.

Lemma net_receipts_unfold rs :
  net_receipts hash_bytes rs =
    hashes ← for_each (get_msr_hash hash_bytes) rs;
    keyed ← for_each (λ r, h ← get_msr_hash hash_bytes r; Ok (h, r)) rs;
    net_sorted ((sorted_by String.leb fst keyed).*2) (sorted String.leb hashes).
Proof. done. Qed.

Lemma sorted_receipts_Permutation (hs : list string) (rs : list MSR) :
  length hs = length rs → (sorted_by String.leb fst (zip hs rs)).*2 ≡ₚ rs.
Proof.
  intros Hlen. rewrite sorted_by_Permutation. rewrite snd_zip; [done|lia].
Qed.

(** [net_receipts] is [net_sorted] on the receipts themselves, once the
    hashes are there. *)
Lemma net_receipts_hashed rs hs :
  for_each (get_msr_hash hash_bytes) rs = Ok hs →
  net_receipts hash_bytes rs = net_sorted rs (sorted String.leb hs).
Proof.
  intros Hhs. rewrite net_receipts_unfold, Hhs, bind_Ok.
  rewrite (for_each_keyed _ _ _ Hhs), bind_Ok.
  apply net_sorted_Permutation, sorted_receipts_Permutation.
  by apply for_each_length in Hhs.
Qed.

Lemma net_receipts_Raise rs e :
  for_each (get_msr_hash hash_bytes) rs = Raise e →
  net_receipts hash_bytes rs = Raise (ValueError "Number outside safe integer range").
Proof.
  intros Hhs. rewrite net_receipts_unfold, Hhs, bind_Raise.
  apply for_each_Raise in Hhs as (m & _ & Hm). by rewrite (get_msr_hash_Raise m e).
Qed.

Lemma net_receipts_Permutation rs1 rs2 :
  rs1 ≡ₚ rs2 → net_receipts hash_bytes rs1 = net_receipts hash_bytes rs2.
Proof.
  intros Hp.
  destruct (for_each (get_msr_hash hash_bytes) rs1) as [hs1|e1] eqn:H1.
  - destruct (for_each_Permutation_Ok _ _ _ Hp _ H1) as (hs2 & H2 & Hhs).
    rewrite (net_receipts_hashed rs1 hs1 H1), (net_receipts_hashed rs2 hs2 H2).
    rewrite (sorted_strings_Permutation hs1 hs2 Hhs).
    by apply net_sorted_Permutation.
  - destruct (for_each (get_msr_hash hash_bytes) rs2) as [hs2|e2] eqn:H2.
    + symmetry in Hp.
      destruct (for_each_Permutation_Ok _ _ _ Hp _ H2) as (hs1 & H1' & _). congruence.
    + by rewrite (net_receipts_Raise rs1 e1 H1), (net_receipts_Raise rs2 e2 H2).
Qed.

Lemma net_receipts_Ok rs r :
  net_receipts hash_bytes rs = Ok r →
  ∃ hs, for_each (get_msr_hash hash_bytes) rs = Ok hs
        ∧ net_sorted rs (sorted String.leb hs) = Ok r.
Proof.
  intros Hr. destruct (for_each (get_msr_hash hash_bytes) rs) as [hs|e] eqn:Hhs.
  - exists hs. split; [done|]. by rewrite <-(net_receipts_hashed rs hs Hhs).
  - by rewrite (net_receipts_Raise rs e Hhs) in Hr.
Qed.
End Hashes.

(** *** The claims about netting *)

Lemma net_receipts_returns hash_bytes rs :
  Forall msr_in_range rs → Forall pipe_free_ids rs →
  ∃ hs r, for_each (get_msr_hash hash_bytes) rs = Ok hs
    ∧ net_receipts hash_bytes rs = Ok r
    ∧ net_sorted rs (sorted String.leb hs) = Ok r.
Proof.
  intros Hrange Hfree.
  destruct (for_each_all_ok (get_msr_hash hash_bytes) rs) as [hs Hhs].
  { intros m Hm. rewrite Forall_forall in Hrange. by apply get_msr_hash_in_range, Hrange. }
  destruct (net_sorted_spec rs (sorted String.leb hs) Hfree) as (r & Hr & _).
  exists hs, r. by rewrite (net_receipts_hashed hash_bytes rs hs Hhs).
Qed.

(** [net_receipts] returns exactly on the receipts with safe integers and
    identifiers free of the separator. *)
Lemma net_receipts_returns_iff hash_bytes rs :
  (∃ r, net_receipts hash_bytes rs = Ok r) ↔
    Forall msr_in_range rs ∧ Forall pipe_free_ids rs.
Proof.
  split.
  - intros [r Hr]. apply net_receipts_Ok in Hr as (hs & Hhs & Hr). split.
    + apply for_each_Ok in Hhs. apply Forall_forall. intros m Hm.
      apply list_elem_of_lookup in Hm as [i Hi].
      destruct (Forall2_lookup_l _ _ _ _ _ Hhs Hi) as (h & _ & Hh).
      by apply (get_msr_hash_Ok_in_range hash_bytes m h).
    + by apply (net_sorted_Ok_pipe_free _ _ _ Hr).
  - intros [Hrange Hfree].
    destruct (net_receipts_returns hash_bytes rs Hrange Hfree) as (_ & r & _ & Hr & _).
    by exists r.
Qed.

(** C2, as stated, fails: a receipt whose payer identifier holds the
    separator [|] makes [net_receipts] raise, so that nothing is emitted. *)
Lemma net_receipts_raises_on_separator :
  net_receipts (λ s, s) [ receipt "A|B" "C" 100 ]
  = Raise (ValueError "too many values to unpack (expected 2)").
Proof. vm_compute. reflexivity. Qed.

(** C2, amended. For every list of receipts whose integers are safe
    integers and whose payer and payee identifiers do not hold the separator
    [|], [net_receipts] returns, and with [x] the gross flow from [a] to [b]
    and [y] the gross flow from [b] to [a]: the obligation from [a] to [b] of
    amount [x - y] is in the result exactly when [x > y] (so none between [a]
    and [b] when [x = y]), no obligation is listed twice and the obligations
    are sorted by their key; [participants] is the strictly ascending list of
    all payers and payees; [total_volume] is the sum of the prices.  For the
    receipts (A→B,100), (B→A,30), (A→C,50), (C→A,50) the obligations are
    [[A→B 70]], the participants [[A; B; C]] and the total volume 230. *)
Theorem net_receipts_bilateral :
  (∀ hash_bytes receipts,
     Forall msr_in_range receipts → Forall pipe_free_ids receipts →
     ∃ r, net_receipts hash_bytes receipts = Ok r
       ∧ (∀ a b x,
            {| from_agent := a; to_agent := b; amount_usd_micros := x |} ∈ obligations r ↔
            gross_flow receipts b a < gross_flow receipts a b
            ∧ x = gross_flow receipts a b - gross_flow receipts b a)
       ∧ NoDup (obligations r)
       ∧ Sorted String.le (obligation_key <$> obligations r)
       ∧ ascending (participants r)
       ∧ (∀ x, x ∈ participants r ↔
            ∃ m, m ∈ receipts ∧ (x = payer_agent_id m ∨ x = payee_agent_id m))
       ∧ total_volume r = sum (price_usd_micros <$> receipts))
  ∧ (∀ hash_bytes,
       ∃ r, net_receipts hash_bytes example_receipts = Ok r
         ∧ obligations r = [ {| from_agent := "A"; to_agent := "B";
                                amount_usd_micros := 70 |} ]
         ∧ participants r = ["A"; "B"; "C"]
         ∧ total_volume r = 230).
Proof.
  split.
  - intros hash_bytes receipts Hrange Hfree.
    destruct (net_receipts_returns hash_bytes receipts Hrange Hfree) as (hs & r & _ & Hr & Hs).
    destruct (net_sorted_spec receipts (sorted String.leb hs) Hfree)
      as (r' & Hr' & Hobs & Hnd & Hsorted & Hasc & Hpart & _ & Htotal).
    assert (r' = r) as -> by congruence. by exists r.
  - intros hash_bytes.
    destruct (net_receipts_returns hash_bytes example_receipts) as (hs & r & _ & Hr & Hs).
    { repeat constructor. }
    { repeat constructor. }
    exists r. split; [done|]. revert Hs. generalize (sorted String.leb hs). intros hs'.
    vm_compute. by intros [= <-].
Qed.

Lemma net_receipts_bilateral_witness :
  ∃ r, net_receipts (λ s, s) [ receipt "a1" "b2" 5; receipt "b2" "a1" 7 ] = Ok r
    ∧ total_volume r = 12.
Proof.
  destruct net_receipts_bilateral as [Hnet _].
  destruct (Hnet (λ s, s) [ receipt "a1" "b2" 5; receipt "b2" "a1" 7 ])
    as (r & Hr & _ & _ & _ & _ & _ & Htotal).
  - repeat constructor.
  - repeat constructor.
  - exists r. split; [exact Hr|exact Htotal].
Defined.

(** C3. For a list of receipts and any permutation of it, [net_receipts]
    gives the same result: the same obligations, the same participants, the
    same receipt hashes and the same total volume (and the same exception
    when it raises). *)
Theorem net_receipts_permutation_invariant hash_bytes (receipts permuted : list MSR) :
  receipts ≡ₚ permuted →
  net_receipts hash_bytes permuted = net_receipts hash_bytes receipts
  ∧ ∀ r, net_receipts hash_bytes receipts = Ok r →
      ∃ r', net_receipts hash_bytes permuted = Ok r'
        ∧ obligations r' = obligations r
        ∧ participants r' = participants r
        ∧ receipt_hashes r' = receipt_hashes r
        ∧ total_volume r' = total_volume r.
Proof.
  intros Hp. rewrite (net_receipts_Permutation hash_bytes receipts permuted Hp).
  split; [done|]. intros r Hr. by exists r.
Qed.

Lemma net_receipts_permutation_invariant_witness :
  net_receipts (λ s, s) [ receipt "B" "A" 30; receipt "A" "B" 100 ]
  = net_receipts (λ s, s) [ receipt "A" "B" 100; receipt "B" "A" 30 ].
Proof.
  apply (net_receipts_permutation_invariant (λ s, s)
           [ receipt "A" "B" 100; receipt "B" "A" 30 ]
           [ receipt "B" "A" 30; receipt "A" "B" 100 ]).
  apply Permutation_swap.
Defined.

Lemma verify_obligations_None ps obs :
  Forall (well_formed_obligation ps) obs → verify_obligations ps obs = None.
Proof.
  induction 1 as [|o obs (Hfrom & Hto & Hne & Hpos) _ IH]; [done|]. simpl.
  rewrite !bool_decide_eq_true_2 by done. simpl.
  destruct (String.eqb_spec (from_agent o) (to_agent o)); [done|].
  by destruct (Z.leb_spec (amount_usd_micros o) 0); [lia|].
Qed.

Lemma net_receipts_well_formed hash_bytes rs r :
  net_receipts hash_bytes rs = Ok r →
  Forall (well_formed_obligation (participants r)) (obligations r).
Proof.
  intros (hs & _ & Hr)%net_receipts_Ok.
  pose proof (net_sorted_Ok_pipe_free _ _ _ Hr) as Hfree.
  destruct (net_sorted_spec rs (sorted String.leb hs) Hfree)
    as (r' & Hr' & Hobs & _ & _ & _ & Hpart & _).
  assert (r' = r) as -> by congruence.
  apply Forall_forall. intros [a b x] [Hlt ->]%Hobs. unfold well_formed_obligation. simpl.
  assert (∃ m, m ∈ rs ∧ ((payer_agent_id m = a ∧ payee_agent_id m = b)
                         ∨ (payer_agent_id m = b ∧ payee_agent_id m = a)))
    as (m & Hm & Hab).
  { destruct (decide (gross_flow rs a b = 0)) as [Hz|Hnz].
    - destruct (gross_flow_nonzero rs b a) as (m & ? & ? & ?); [lia|]. exists m. auto.
    - destruct (gross_flow_nonzero rs a b Hnz) as (m & ? & ? & ?). exists m. auto. }
  repeat split.
  - apply Hpart. exists m. split; [done|]. destruct Hab as [[<- _]|[_ <-]]; auto.
  - apply Hpart. exists m. split; [done|]. destruct Hab as [[_ <-]|[<- _]]; auto.
  - intros ->. lia.
  - lia.
Qed.

(** C9. Whatever the receipts (a payer equal to its payee, a price of zero,
    no check at all), every obligation that [net_receipts] returns has two
    different endpoints, a positive amount, and both endpoints in the
    returned participants; so every IAN that [make_ian] builds passes the
    checks [verify_ian] runs on each obligation.  On receipts with a
    self-payment and a free receipt the result is there and has one
    obligation. *)
Theorem net_obligations_well_formed :
  (∀ hash_bytes receipts r,
     net_receipts hash_bytes receipts = Ok r →
     Forall (well_formed_obligation (participants r)) (obligations r))
  ∧ (∀ hash_bytes sign epoch_id receipts kernel_private_key ian,
       make_ian hash_bytes sign epoch_id receipts kernel_private_key = Ok ian →
       Forall (well_formed_obligation (ian_participants ian)) (net_obligations ian)
       ∧ verify_obligations (ian_participants ian) (net_obligations ian) = None)
  ∧ (∃ r, net_receipts (λ s, s)
            [ receipt "A" "A" 5; receipt "B" "C" 0; receipt "C" "B" 7 ] = Ok r
          ∧ obligations r = [ {| from_agent := "C"; to_agent := "B";
                                 amount_usd_micros := 7 |} ]
          ∧ participants r = ["A"; "B"; "C"]).
Proof.
  split; [exact net_receipts_well_formed|]. split.
  - intros hash_bytes sign epoch_id receipts key ian. unfold make_ian.
    destruct (net_receipts hash_bytes receipts) as [r|] eqn:Hr; [|done]. rewrite bind_Ok.
    destruct (compute_netting_hash _ _ _ _) as [h|]; [|done]. rewrite bind_Ok.
    destruct (canonicalize_bytes _) as [bytes|]; [|done]. rewrite bind_Ok.
    destruct (sign _ _) as [sig|]; [|done]. rewrite bind_Ok. intros [= <-]. simpl.
    pose proof (net_receipts_well_formed _ _ _ Hr) as Hwf.
    split; [done|]. by apply verify_obligations_None.
  - eexists. split; [vm_compute; reflexivity|]. split; reflexivity.
Qed.

Lemma net_obligations_well_formed_witness :
  Forall (well_formed_obligation ["A"; "B"])
    [ {| from_agent := "A"; to_agent := "B"; amount_usd_micros := 70 |} ].
Proof.
  destruct net_obligations_well_formed as [Hnet _].
  apply (Hnet (λ s, s) [ receipt "A" "B" 100; receipt "B" "A" 30 ]
           {| obligations := [ {| from_agent := "A"; to_agent := "B";
                                  amount_usd_micros := 70 |} ];
              participants := ["A"; "B"];
              receipt_hashes :=
                sorted String.leb
                  (match for_each (get_msr_hash (λ s, s))
                           [ receipt "A" "B" 100; receipt "B" "A" 30 ] with
                   | Ok hs => hs
                   | Raise _ => []
                   end);
              total_volume := 130 |}).
  vm_compute. reflexivity.
Defined.

End NettingFacts.

(** * Further properties *)

(** ** Lists: sums, and sorting again *)

Module ListFacts.
Import PyFacts.

Lemma sum_fmap_add {A} (f g : A → Z) l :
  sum ((λ x, f x + g x) <$> l) = sum (f <$> l) + sum (g <$> l).
Proof.
  induction l as [|x l IH]; [done|]. rewrite !fmap_cons, !sum_cons, IH. lia.
Qed.

Lemma sum_fmap_sub {A} (f g : A → Z) l :
  sum ((λ x, f x - g x) <$> l) = sum (f <$> l) - sum (g <$> l).
Proof.
  induction l as [|x l IH]; [done|]. rewrite !fmap_cons, !sum_cons, IH. lia.
Qed.

Lemma sum_fmap_ext {A} (f g : A → Z) l :
  (∀ x, x ∈ l → f x = g x) → sum (f <$> l) = sum (g <$> l).
Proof.
  intros H. induction l as [|x l IH]; [done|]. rewrite !fmap_cons, !sum_cons.
  rewrite (H x) by left. rewrite IH; [done|]. intros y Hy. apply H. by right.
Qed.

Lemma sum_fmap_le {A} (f g : A → Z) l :
  (∀ x, x ∈ l → f x ≤ g x) → sum (f <$> l) ≤ sum (g <$> l).
Proof.
  intros H. induction l as [|x l IH]; [done|]. rewrite !fmap_cons, !sum_cons.
  pose proof (H x ltac:(left)).
  assert (sum (f <$> l) ≤ sum (g <$> l)); [|lia].
  apply IH. intros y Hy. apply H. by right.
Qed.

Lemma sum_fmap_zero {A} (l : list A) : sum ((λ _, 0) <$> l) = 0.
Proof. induction l as [|x l IH]; [done|]. by rewrite fmap_cons, sum_cons, IH. Qed.

(** The sum of [v] at [y] and [0] elsewhere, over a list without
    duplicates that holds [y]. *)
Lemma sum_indicator (keys : list string) y v :
  NoDup keys → y ∈ keys →
  sum ((λ k, if decide (y = k) then v else 0) <$> keys) = v.
Proof.
  induction 1 as [|k keys Hk Hnd IH]; [by inversion 1|].
  rewrite fmap_cons, sum_cons. intros [->|Hy]%elem_of_cons.
  - rewrite decide_True by done.
    rewrite (sum_fmap_ext _ (λ _, 0)), sum_fmap_zero; [lia|].
    intros k' Hk'. rewrite decide_False; [done|]. by intros <-.
  - rewrite decide_False by (by intros ->). rewrite IH by done. lia.
Qed.

(** A sum is the sum of its groups. *)
Lemma sum_group {A} (key : A → string) (w : A → Z) (keys : list string) (l : list A) :
  NoDup keys → (∀ x, x ∈ l → key x ∈ keys) →
  sum (w <$> l) = sum ((λ k, sum (w <$> filter (λ x, key x = k) l)) <$> keys).
Proof.
  intros Hnd. induction l as [|x l IH]; intros Hl.
  - simpl. by rewrite sum_fmap_zero.
  - rewrite fmap_cons, sum_cons, IH by (intros y Hy; apply Hl; by right).
    rewrite <-(sum_indicator keys (key x) (w x) Hnd) at 1 by (apply Hl; by left).
    rewrite <-sum_fmap_add. apply sum_fmap_ext. intros k _.
    rewrite filter_cons. destruct (decide (key x = k)); [|lia].
    by rewrite fmap_cons, sum_cons.
Qed.

Lemma NoDup_singleton_all {A} (o : A) l :
  NoDup l → o ∈ l → (∀ x, x ∈ l → x = o) → l = [o].
Proof.
  intros Hnd Ho Hall. destruct l as [|x [|y l]]; [by inversion Ho|..].
  - by rewrite (Hall x) by left.
  - apply NoDup_cons in Hnd as [Hx _]. destruct Hx.
    rewrite (Hall x), (Hall y); [left|by right; left|by left].
Qed.

Lemma for_each_Forall {A B} (f : A → result B) (P : B → Prop) l ys :
  for_each f l = Ok ys → Forall (λ x, ∀ y, f x = Ok y → P y) l → Forall P ys.
Proof.
  intros Hf%for_each_Ok. induction Hf as [|x y l ys Hxy _ IH]; [done|].
  intros [Hx Hl]%Forall_cons. constructor; [by apply Hx|by apply IH].
Qed.

Section SortedAgain.
Context {A : Type} (le : A → A → bool).
Hypothesis le_total : ∀ x y, le x y = true ∨ le y x = true.

Lemma insert_sorted_head x l : HdRel le x l → insert_sorted le x l = x :: l.
Proof.
  destruct 1 as [|y l Hy]; [done|]. simpl. apply Is_true_true in Hy. by rewrite Hy.
Qed.

Lemma sorted_of_Sorted l : Sorted le l → sorted le l = l.
Proof.
  induction 1 as [|x l Hl IH Hx]; [done|].
  unfold sorted in *. simpl. rewrite IH. by apply insert_sorted_head.
Qed.

Lemma sorted_idemp l : sorted le (sorted le l) = sorted le l.
Proof. by apply sorted_of_Sorted, Sorted_sorted. Qed.
End SortedAgain.

Lemma sorted_strings_idemp l : sorted String.leb (sorted String.leb l) = sorted String.leb l.
Proof. apply sorted_idemp. intros x y. apply string_leb_total. Qed.

Lemma sorted_by_idemp {A} (key : A → string) l :
  sorted_by String.leb key (sorted_by String.leb key l) = sorted_by String.leb key l.
Proof. apply sorted_idemp. intros x y. apply string_leb_total. Qed.

(** [sorted] is stable: the elements of one key keep their order. *)
Section Stable.
Context {A : Type} (key : A → Z).

Lemma filter_insert_sorted p x l :
  filter (λ a, key a = p) (insert_sorted (λ a b, key a <=? key b) x l)
  = filter (λ a, key a = p) (x :: l).
Proof.
  induction l as [|y l IH]; [done|]. simpl.
  destruct (Z.leb_spec (key x) (key y)) as [Hle|Hlt]; [done|].
  rewrite (filter_cons _ y), IH, !filter_cons.
  repeat case_decide; (done || lia).
Qed.

Lemma filter_sorted_by p l :
  filter (λ a, key a = p) (sorted_by Z.leb key l) = filter (λ a, key a = p) l.
Proof.
  induction l as [|x l IH]; [done|].
  unfold sorted_by, sorted in *. simpl. rewrite filter_insert_sorted, !filter_cons, IH.
  done.
Qed.
End Stable.

(** The keys of the signature scheme of the examples go together. *)
Lemma toy_keys k h sg : Toy.sign h k = Ok sg → Toy.verify h sg k = true.
Proof. intros [= <-]. apply String.eqb_refl. Qed.

End ListFacts.

(** ** Canonical JSON: what the output says about the value *)

Module EncodingFacts.
Import Canonical PyFacts CanonicalFacts ListFacts.

(** *** Strings *)

Lemma unescape_head_escape_char c rest :
  unescape_head (escape_char c +:+ rest) = Some (c, rest).
Proof. by destruct c as [[] [] [] [] [] [] [] []]. Qed.

Lemma escape_body_app_inj s1 s2 r1 r2 :
  escape_body s1 +:+ r1 = escape_body s2 +:+ r2 → s1 = s2 ∧ r1 = r2.
Proof.
  revert s2. induction s1 as [|c1 s1 IH]; intros [|c2 s2]; simpl;
    rewrite ?string_app_assoc, ?string_app_cons, ?string_app_nil_l; intros Heq.
  - by injection Heq as ->.
  - apply (f_equal unescape_head) in Heq.
    by rewrite unescape_head_escape_char in Heq.
  - apply (f_equal unescape_head) in Heq.
    by rewrite unescape_head_escape_char in Heq.
  - apply (f_equal unescape_head) in Heq.
    rewrite !unescape_head_escape_char in Heq. injection Heq as -> Heq.
    destruct (IH _ Heq) as [-> ->]. done.
Qed.

Lemma escape_string_app_inj s1 s2 r1 r2 :
  escape_string s1 +:+ r1 = escape_string s2 +:+ r2 → s1 = s2 ∧ r1 = r2.
Proof.
  unfold escape_string. rewrite !string_app_cons. intros [= Heq].
  by apply escape_body_app_inj.
Qed.



(** *** No control character *)

Lemma no_control_app s1 s2 : no_control (s1 +:+ s2) = no_control s1 && no_control s2.
Proof.
  induction s1 as [|c s1 IH]; [done|]. rewrite string_app_cons. simpl.
  by rewrite IH, andb_assoc.
Qed.

Lemma no_control_escape_char c : no_control (escape_char c) = true.
Proof. by destruct c as [[] [] [] [] [] [] [] []]. Qed.

Lemma no_control_escape_string s : no_control (escape_string s) = true.
Proof.
  unfold escape_string. simpl. induction s as [|c s IH]; [done|]. simpl.
  by rewrite no_control_app, no_control_escape_char.
Qed.

Lemma no_control_digits x : no_control (digits x) = true.
Proof.
  induction (N.lt_wf_0 x) as [x _ IH].
  destruct (decide (x = 0%N)) as [->|Hx]; [done|].
  rewrite digits_step, no_control_app by lia.
  rewrite IH by (apply N.div_lt; lia). simpl.
  unfold pretty_N_char. by repeat case_match.
Qed.

Lemma no_control_str_int n : no_control (str_int n) = true.
Proof.
  destruct n as [|p|p]; [done|..].
  - by rewrite str_int_pos, no_control_digits.
  - rewrite str_int_neg. simpl. by rewrite no_control_digits.
Qed.

Lemma no_control_join sep l :
  no_control sep = true → Forall (λ s, no_control s = true) l →
  no_control (join sep l) = true.
Proof.
  intros Hsep. induction 1 as [|s l Hs Hl IH]; [done|].
  unfold join in *. simpl. destruct l as [|s' l']; [done|].
  rewrite !no_control_app, Hs, Hsep. simpl. exact IH.
Qed.

Lemma canonicalize_no_control v s : canonicalize v = Ok s → no_control s = true.
Proof.
  revert s. induction v as [|b|n|x|t|l IH|d IH|t] using value_ind; intros s.
  - by intros [= <-].
  - intros [= <-]. by destruct b.
  - simpl. destruct (safe_integer n); [|done]. intros [= <-]. apply no_control_str_int.
  - done.
  - intros [= <-]. apply no_control_escape_string.
  - rewrite canonicalize_list.
    destruct (for_each canonicalize l) as [els|] eqn:Hels; [|done].
    rewrite bind_Ok. intros [= <-].
    rewrite !no_control_app, no_control_join; [done..|].
    by apply (for_each_Forall _ _ _ _ Hels).
  - rewrite canonicalize_dict.
    destruct (for_each (render_pair d) _) as [pairs|] eqn:Hpairs; [|done].
    rewrite bind_Ok. intros [= <-].
    rewrite !no_control_app, no_control_join; [done..|].
    apply (for_each_Forall _ _ _ _ Hpairs), Forall_forall.
    intros k _ p. unfold render_pair.
    destruct (dict_get k d) as [v|] eqn:Hk; [|done].
    destruct (canonicalize v) as [sv|] eqn:Hv; [|done]. rewrite bind_Ok.
    intros [= <-]. rewrite !no_control_app, no_control_escape_string. simpl.
    apply dict_get_Some in Hk. rewrite Forall_forall in IH.
    by apply (IH (k, v) Hk).
  - done.
Qed.



(** *** The output determines the value *)

Lemma numeral_app s1 s2 : numeral (s1 +:+ s2) = numeral s1 && numeral s2.
Proof.
  induction s1 as [|c s1 IH]; [done|]. rewrite string_app_cons. simpl.
  by rewrite IH, andb_assoc.
Qed.

Lemma numeral_digits x : numeral (digits x) = true.
Proof.
  induction (N.lt_wf_0 x) as [x _ IH].
  destruct (decide (x = 0%N)) as [->|Hx]; [done|].
  rewrite digits_step, numeral_app by lia.
  rewrite IH by (apply N.div_lt; lia). simpl.
  unfold pretty_N_char. by repeat case_match.
Qed.

Lemma numeral_str_int n : numeral (str_int n) = true.
Proof.
  destruct n as [|p|p]; [done|..].
  - by rewrite str_int_pos, numeral_digits.
  - rewrite str_int_neg. simpl. by rewrite numeral_digits.
Qed.

Lemma str_int_nonempty n : str_int n ≠ "".
Proof.
  destruct n as [|p|p]; [done|..].
  - rewrite str_int_pos. apply digits_nonempty. lia.
  - by rewrite str_int_neg.
Qed.

Lemma numeral_app_inj d1 d2 r1 r2 :
  numeral d1 = true → numeral d2 = true → delimited r1 → delimited r2 →
  d1 +:+ r1 = d2 +:+ r2 → d1 = d2 ∧ r1 = r2.
Proof.
  revert d2. induction d1 as [|c1 d1 IH]; intros [|c2 d2] H1 H2 Hr1 Hr2;
    rewrite ?string_app_cons, ?string_app_nil_l; intros Heq.
  - done.
  - simpl in H2. apply andb_prop in H2 as [Hc%bool_decide_eq_true _].
    subst r1. simpl in Hr1. congruence.
  - simpl in H1. apply andb_prop in H1 as [Hc%bool_decide_eq_true _].
    subst r2. simpl in Hr2. congruence.
  - simpl in H1, H2. apply andb_prop in H1 as [_ H1]. apply andb_prop in H2 as [_ H2].
    injection Heq as -> Heq. destruct (IH d2 H1 H2 Hr1 Hr2 Heq) as [-> ->]. done.
Qed.

Lemma str_int_inj n1 n2 : str_int n1 = str_int n2 → n1 = n2.
Proof.
  intros Heq. apply (f_equal decimal_value) in Heq.
  rewrite !decimal_value_str_int in Heq. congruence.
Qed.

Lemma join_items_after close item items r :
  join "," (item :: items) +:+ String close r = item +:+ items_after close items r.
Proof.
  revert item. induction items as [|item' items IH]; intros item; [done|].
  change (join "," (item :: item' :: items))
    with (item +:+ "," +:+ join "," (item' :: items)).
  rewrite !string_app_assoc, IH. done.
Qed.

Lemma canonicalize_head v s :
  canonicalize v = Ok s → ∃ c s', s = String c s' ∧ head_tag c = Some (tag v).
Proof.
  destruct v as [|b|n|x|t|l|d|t]; simpl.
  - intros [= <-]. by eexists _, _.
  - intros [= <-]. destruct b; by eexists _, _.
  - destruct (safe_integer n); [|done]. intros [= <-].
    pose proof (numeral_str_int n) as Hnum. pose proof (str_int_nonempty n) as Hne.
    destruct (str_int n) as [|c s']; [done|]. simpl in Hnum.
    apply andb_prop in Hnum as [Hc%bool_decide_eq_true _]. by eexists _, _.
  - done.
  - intros [= <-]. by eexists _, _.
  - destruct (for_each canonicalize l); [|done]. rewrite bind_Ok. intros [= <-].
    by eexists _, _.
  - destruct (for_each _ _); [|done]. rewrite bind_Ok. intros [= <-]. by eexists _, _.
  - done.
Qed.

Lemma delimited_items_after close items r :
  head_tag close = None → delimited (items_after close items r).
Proof. intros Hc. by destruct items. Qed.

Lemma items_after_inj close l1 :
  head_tag close = None → close ≠ ","%char → Forall separable l1 →
  ∀ l2 items1 items2 r1 r2,
    for_each canonicalize l1 = Ok items1 → for_each canonicalize l2 = Ok items2 →
    items_after close items1 r1 = items_after close items2 r2 →
    normalize <$> l1 = normalize <$> l2 ∧ r1 = r2.
Proof.
  intros Hclose Hcomma. induction 1 as [|x1 l1 Hx1 _ IH]; intros [|x2 l2] items1 items2 r1 r2.
  - intros [= <-] [= <-]. simpl. by intros [= ->].
  - intros [= <-]. rewrite for_each_cons.
    destruct (canonicalize x2); [|done]. rewrite bind_Ok.
    destruct (for_each canonicalize l2); [|done]. rewrite bind_Ok. intros [= <-].
    simpl. rewrite string_app_cons. by intros [= -> _].
  - rewrite for_each_cons.
    destruct (canonicalize x1); [|done]. rewrite bind_Ok.
    destruct (for_each canonicalize l1); [|done]. rewrite bind_Ok.
    intros [= <-] [= <-]. simpl. rewrite string_app_cons. by intros [= <- _].
  - rewrite !for_each_cons.
    destruct (canonicalize x1) as [s1|] eqn:H1; [|done]. rewrite bind_Ok.
    destruct (for_each canonicalize l1) as [ss1|] eqn:Hl1; [|done]. rewrite bind_Ok.
    intros [= <-].
    destruct (canonicalize x2) as [s2|] eqn:H2; [|done]. rewrite bind_Ok.
    destruct (for_each canonicalize l2) as [ss2|] eqn:Hl2; [|done]. rewrite bind_Ok.
    intros [= <-] Heq. simpl in Heq. rewrite !string_app_cons, !string_app_nil_l in Heq.
    injection Heq as Heq.
    destruct (Hx1 x2 s1 s2 _ _ H1 H2 (delimited_items_after _ _ _ Hclose)
                (delimited_items_after _ _ _ Hclose) Heq) as [Hn Hrest].
    destruct (IH l2 ss1 ss2 r1 r2 eq_refl Hl2 Hrest) as [Hl ->].
    by rewrite !fmap_cons, Hn, Hl.
Qed.

Lemma render_pair_Ok d k p :
  render_pair d k = Ok p →
  ∃ v s, dict_get k d = Some v ∧ canonicalize v = Ok s
         ∧ p = escape_string k +:+ ":" +:+ s.
Proof.
  unfold render_pair. destruct (dict_get k d) as [v|]; [|done].
  destruct (canonicalize v) as [s|] eqn:Hs; [|done]. rewrite bind_Ok. intros [= <-].
  by exists v, s.
Qed.

Lemma pairs_after_inj close d1 d2 :
  head_tag close = None → close ≠ ","%char →
  Forall (λ kv, separable kv.2) d1 →
  ∀ ks1 ks2 ps1 ps2 r1 r2,
    for_each (render_pair d1) ks1 = Ok ps1 → for_each (render_pair d2) ks2 = Ok ps2 →
    items_after close ps1 r1 = items_after close ps2 r2 →
    ks1 = ks2
    ∧ Forall (λ k, normalize <$> dict_get k d1 = normalize <$> dict_get k d2) ks1
    ∧ r1 = r2.
Proof.
  intros Hclose Hcomma Hd1.
  induction ks1 as [|k1 ks1 IH]; intros [|k2 ks2] ps1 ps2 r1 r2.
  - intros [= <-] [= <-]. simpl. by intros [= ->].
  - intros [= <-]. rewrite for_each_cons.
    destruct (render_pair d2 k2); [|done]. rewrite bind_Ok.
    destruct (for_each _ ks2); [|done]. rewrite bind_Ok. intros [= <-].
    simpl. rewrite string_app_cons. by intros [= -> _].
  - rewrite for_each_cons.
    destruct (render_pair d1 k1); [|done]. rewrite bind_Ok.
    destruct (for_each _ ks1); [|done]. rewrite bind_Ok.
    intros [= <-] [= <-]. simpl. rewrite string_app_cons. by intros [= <- _].
  - rewrite !for_each_cons.
    destruct (render_pair d1 k1) as [p1|] eqn:H1; [|done]. rewrite bind_Ok.
    destruct (for_each _ ks1) as [ps1'|] eqn:Hl1; [|done]. rewrite bind_Ok.
    intros [= <-].
    destruct (render_pair d2 k2) as [p2|] eqn:H2; [|done]. rewrite bind_Ok.
    destruct (for_each _ ks2) as [ps2'|] eqn:Hl2; [|done]. rewrite bind_Ok.
    intros [= <-] Heq. simpl in Heq.
    rewrite !string_app_cons, !string_app_nil_l in Heq. injection Heq as Heq.
    apply render_pair_Ok in H1 as (v1 & s1 & Hv1 & Hs1 & ->).
    apply render_pair_Ok in H2 as (v2 & s2 & Hv2 & Hs2 & ->).
    rewrite !string_app_assoc in Heq.
    apply escape_string_app_inj in Heq as [-> Heq].
    rewrite !string_app_cons, !string_app_nil_l in Heq. injection Heq as Heq.
    assert (separable v1) as Hsep.
    { rewrite Forall_forall in Hd1. by apply (Hd1 (k2, v1)), dict_get_Some. }
    destruct (Hsep v2 s1 s2 _ _ Hs1 Hs2 (delimited_items_after _ _ _ Hclose)
                (delimited_items_after _ _ _ Hclose) Heq) as [Hn Hrest].
    destruct (IH ks2 ps1' ps2' r1 r2 eq_refl Hl2 Hrest) as (-> & Hks & ->).
    split; [done|]. split; [|done]. constructor; [|done].
    by rewrite Hv1, Hv2; simpl; rewrite Hn.
Qed.

Lemma normalize_dict d :
  normalize (VDict d) =
    VDict ((λ k, (k, default VNone (normalize <$> dict_get k d)))
             <$> sorted String.leb (d.*1)).
Proof.
  simpl. f_equal. apply list_fmap_ext. intros i k _.
  by rewrite (dict_get_fmap normalize).
Qed.

Lemma list_output_app items r :
  ("[" +:+ join "," items +:+ "]") +:+ r
  = String "[" (match items with
                | [] => String "]" r
                | item :: items' => item +:+ items_after "]" items' r
                end).
Proof.
  rewrite (string_app_cons _ "" _), string_app_nil_l, string_app_cons, string_app_assoc.
  destruct items as [|item items]; [done|]. by rewrite <-join_items_after.
Qed.

Lemma dict_output_app pairs r :
  ("{" +:+ join "," pairs +:+ "}") +:+ r
  = String "{" (match pairs with
                | [] => String "}" r
                | p :: pairs' => p +:+ items_after "}" pairs' r
                end).
Proof.
  rewrite (string_app_cons _ "" _), string_app_nil_l, string_app_cons, string_app_assoc.
  destruct pairs as [|p pairs]; [done|]. by rewrite <-join_items_after.
Qed.

Lemma same_tag v1 v2 s1 s2 r1 r2 :
  canonicalize v1 = Ok s1 → canonicalize v2 = Ok s2 → s1 +:+ r1 = s2 +:+ r2 →
  tag v1 = tag v2.
Proof.
  intros (c1 & s1' & -> & Hc1)%canonicalize_head (c2 & s2' & -> & Hc2)%canonicalize_head.
  rewrite !string_app_cons. intros [= -> _]. congruence.
Qed.

Lemma canonicalize_separable v : separable v.
Proof.
  induction v as [|b1|n1|x1|t1|l1 IH|d1 IH|t1] using value_ind;
    intros v2 s1 s2 r1 r2 H1 H2 Hr1 Hr2 Heq.
  all: pose proof (same_tag _ _ _ _ _ _ H1 H2 Heq) as Htag.
  all: destruct v2 as [|b2|n2|x2|t2|l2|d2|t2]; try discriminate Htag; clear Htag.
  - injection H1 as <-. injection H2 as <-.
    rewrite !string_app_cons, !string_app_nil_l in Heq. by injection Heq as ->.
  - injection H1 as <-. injection H2 as <-.
    destruct b1, b2; rewrite !string_app_cons, !string_app_nil_l in Heq;
      try discriminate Heq; by injection Heq as ->.
  - simpl in H1, H2. destruct (safe_integer n1); [|done]. destruct (safe_integer n2); [|done].
    injection H1 as <-. injection H2 as <-.
    apply numeral_app_inj in Heq as [Heq ->]; [|apply numeral_str_int..|done|done].
    by apply str_int_inj in Heq as ->.
  - done.
  - injection H1 as <-. injection H2 as <-.
    by apply escape_string_app_inj in Heq as [-> ->].
  - rewrite canonicalize_list in H1, H2.
    destruct (for_each canonicalize l1) as [items1|] eqn:Hl1; [|done].
    destruct (for_each canonicalize l2) as [items2|] eqn:Hl2; [|done].
    rewrite bind_Ok in H1, H2. injection H1 as <-. injection H2 as <-.
    rewrite !list_output_app in Heq. injection Heq as Heq.
    destruct l1 as [|x1 l1], l2 as [|x2 l2].
    + injection Hl1 as <-. injection Hl2 as <-. by injection Heq as ->.
    + injection Hl1 as <-. rewrite for_each_cons in Hl2.
      destruct (canonicalize x2) as [s2|] eqn:Hx2; [|done]. rewrite bind_Ok in Hl2.
      destruct (for_each canonicalize l2); [|done]. rewrite bind_Ok in Hl2.
      injection Hl2 as <-. destruct (canonicalize_head _ _ Hx2) as (c & s' & -> & Hc).
      rewrite string_app_cons in Heq. by injection Heq as <- _.
    + injection Hl2 as <-. rewrite for_each_cons in Hl1.
      destruct (canonicalize x1) as [s1|] eqn:Hx1; [|done]. rewrite bind_Ok in Hl1.
      destruct (for_each canonicalize l1); [|done]. rewrite bind_Ok in Hl1.
      injection Hl1 as <-. destruct (canonicalize_head _ _ Hx1) as (c & s' & -> & Hc).
      rewrite string_app_cons in Heq. by injection Heq as -> _.
    + rewrite for_each_cons in Hl1, Hl2.
      destruct (canonicalize x1) as [s1|] eqn:Hx1; [|done]. rewrite bind_Ok in Hl1.
      destruct (for_each canonicalize l1) as [ss1|] eqn:Hss1; [|done].
      rewrite bind_Ok in Hl1. injection Hl1 as <-.
      destruct (canonicalize x2) as [s2|] eqn:Hx2; [|done]. rewrite bind_Ok in Hl2.
      destruct (for_each canonicalize l2) as [ss2|] eqn:Hss2; [|done].
      rewrite bind_Ok in Hl2. injection Hl2 as <-.
      apply Forall_cons in IH as [IHx IHl].
      destruct (IHx x2 s1 s2 _ _ Hx1 Hx2 (delimited_items_after "]" _ _ eq_refl)
                  (delimited_items_after "]" _ _ eq_refl) Heq) as [Hn Hrest].
      destruct (items_after_inj "]" l1 eq_refl ltac:(discriminate) IHl l2 ss1 ss2 r1 r2
                  Hss1 Hss2 Hrest) as [Hl ->].
      split; [|done]. cbn [normalize]. by rewrite !fmap_cons, Hn, Hl.
  - rewrite canonicalize_dict in H1, H2.
    destruct (for_each (render_pair d1) _) as [ps1|] eqn:Hl1; [|done].
    destruct (for_each (render_pair d2) _) as [ps2|] eqn:Hl2; [|done].
    rewrite bind_Ok in H1, H2. injection H1 as <-. injection H2 as <-.
    rewrite !dict_output_app in Heq. injection Heq as Heq.
    rewrite !normalize_dict.
    assert (sorted String.leb d1.*1 = sorted String.leb d2.*1
            ∧ Forall (λ k, normalize <$> dict_get k d1 = normalize <$> dict_get k d2)
                (sorted String.leb d1.*1)
            ∧ r1 = r2) as (Hks & Hvs & ->).
    { destruct (sorted String.leb d1.*1) as [|k1 ks1], (sorted String.leb d2.*1) as [|k2 ks2].
      - injection Hl1 as <-. injection Hl2 as <-. by injection Heq as ->.
      - injection Hl1 as <-. rewrite for_each_cons in Hl2.
        destruct (render_pair d2 k2) as [p2|] eqn:Hp2; [|done]. rewrite bind_Ok in Hl2.
        destruct (for_each _ ks2); [|done]. rewrite bind_Ok in Hl2. injection Hl2 as <-.
        apply render_pair_Ok in Hp2 as (v2 & s2 & _ & _ & ->). discriminate Heq.
      - injection Hl2 as <-. rewrite for_each_cons in Hl1.
        destruct (render_pair d1 k1) as [p1|] eqn:Hp1; [|done]. rewrite bind_Ok in Hl1.
        destruct (for_each _ ks1); [|done]. rewrite bind_Ok in Hl1. injection Hl1 as <-.
        apply render_pair_Ok in Hp1 as (v1 & s1 & _ & _ & ->). discriminate Heq.
      - rewrite for_each_cons in Hl1, Hl2.
        destruct (render_pair d1 k1) as [p1|] eqn:Hp1; [|done]. rewrite bind_Ok in Hl1.
        destruct (for_each _ ks1) as [ps1'|] eqn:Hps1; [|done].
        rewrite bind_Ok in Hl1. injection Hl1 as <-.
        destruct (render_pair d2 k2) as [p2|] eqn:Hp2; [|done]. rewrite bind_Ok in Hl2.
        destruct (for_each _ ks2) as [ps2'|] eqn:Hps2; [|done].
        rewrite bind_Ok in Hl2. injection Hl2 as <-.
        apply render_pair_Ok in Hp1 as (v1 & s1 & Hv1 & Hs1 & ->).
        apply render_pair_Ok in Hp2 as (v2 & s2 & Hv2 & Hs2 & ->).
        rewrite !string_app_assoc in Heq.
        apply escape_string_app_inj in Heq as [-> Heq].
        rewrite !string_app_cons, !string_app_nil_l in Heq. injection Heq as Heq.
        assert (separable v1) as Hsep.
        { rewrite Forall_forall in IH. by apply (IH (k2, v1)), dict_get_Some. }
        destruct (Hsep v2 s1 s2 _ _ Hs1 Hs2 (delimited_items_after "}" _ _ eq_refl)
                    (delimited_items_after "}" _ _ eq_refl) Heq) as [Hn Hrest].
        destruct (pairs_after_inj "}" d1 d2 eq_refl ltac:(discriminate) IH ks1 ks2
                    ps1' ps2' r1 r2 Hps1 Hps2 Hrest) as (-> & Hks & ->).
        split; [done|]. split; [|done]. constructor; [|done].
        by rewrite Hv1, Hv2; simpl; rewrite Hn. }
    split; [|done]. f_equal. rewrite <-Hks. apply Forall_fmap_ext.
    eapply Forall_impl; [exact Hvs|]. intros k Hk. simpl. by rewrite Hk.
  - done.
Qed.


Lemma dict_get_keyed {V} (f : string → V) k ks :
  k ∈ ks → dict_get k ((λ k', (k', f k')) <$> ks) = Some (f k).
Proof.
  induction ks as [|k' ks IH]; [by inversion 1|]. rewrite fmap_cons. simpl.
  destruct (String.eqb_spec k k') as [->|Hne]; [done|].
  intros [?|Hk]%elem_of_cons; [done|]. by apply IH.
Qed.

Lemma fst_keyed {V} (f : string → V) ks : ((λ k, (k, f k)) <$> ks).*1 = ks.
Proof. induction ks as [|k ks IH]; [done|]. by rewrite !fmap_cons, IH. Qed.

Lemma canonicalize_normalize v : canonicalize (normalize v) = canonicalize v.
Proof.
  induction v as [|b|n|x|t|l IH|d IH|t] using value_ind; try done.
  - cbn [normalize]. rewrite !canonicalize_list, for_each_fmap.
    f_equal. apply for_each_ext. intros x Hx. rewrite Forall_forall in IH. by apply IH.
  - rewrite normalize_dict, !canonicalize_dict.
    rewrite fst_keyed, sorted_strings_idemp. f_equal.
    apply for_each_ext. intros k Hk. unfold render_pair.
    rewrite dict_get_keyed by done.
    destruct (dict_get_is_Some k d) as [v Hv]; [by apply elem_of_sorted in Hk|].
    rewrite Hv. simpl. rewrite Forall_forall in IH.
    apply dict_get_Some in Hv. apply IH in Hv. simpl in Hv. by rewrite Hv.
Qed.

Lemma normalize_map_free v : map_free v = true → normalize v = v.
Proof.
  induction v as [|b|n|x|t|l IH|d IH|t] using value_ind; try done.
  simpl. intros Hl. f_equal. rewrite forallb_forall in Hl. rewrite Forall_forall in IH.
  rewrite <-(list_fmap_id l) at 2. apply list_fmap_ext. intros i x Hx.
  apply list_elem_of_lookup_2 in Hx. apply IH; [done|]. by apply Hl, list_elem_of_In.
Qed.

Lemma canonicalize_same_output v1 v2 s :
  canonicalize v1 = Ok s → canonicalize v2 = Ok s → normalize v1 = normalize v2.
Proof.
  intros H1 H2. by destruct (canonicalize_separable v1 v2 s s "" "" H1 H2 I I eq_refl).
Qed.



End EncodingFacts.

(** ** Receipts: making, checking and hashing *)

Module ReceiptFacts.
Import Canonical Msr Netting PyFacts CanonicalFacts NettingFacts ListFacts EncodingFacts.

Lemma msr_data_eq m :
  dict_del "signature_ed25519" (to_dict m) =
    Ok [ ("msr_version", VStr (msr_version m));
         ("payer_agent_id", VStr (payer_agent_id m));
         ("payee_agent_id", VStr (payee_agent_id m));
         ("resource_type", VStr (resource_type m));
         ("units", VInt (units m));
         ("unit_type", VStr (unit_type m));
         ("price_usd_micros", VInt (price_usd_micros m));
         ("timestamp_ms", VInt (timestamp_ms m));
         ("nonce", VStr (nonce m));
         ("scope_hash", VStr (scope_hash m));
         ("request_hash", VStr (request_hash m));
         ("response_hash", VStr (response_hash m));
         ("prev_receipt_hash", opt_str (prev_receipt_hash m)) ].
Proof. reflexivity. Qed.

Section Receipts.
Variable hash_bytes : string → string.
Variable sign : string → string → result string.
Variable verify : string → string → string → bool.

Lemma make_msr_hash now fresh payer payee rt n ut price sh rq rs sk ts nc prev msr :
  make_msr hash_bytes sign now fresh payer payee rt n ut price sh rq rs sk ts nc prev
    = Ok msr →
  ∃ h, get_msr_hash hash_bytes msr = Ok h
    ∧ sign h sk = Ok (signature_ed25519 msr)
    ∧ payer_agent_id msr = payer ∧ payee_agent_id msr = payee
    ∧ units msr = n ∧ price_usd_micros msr = price
    ∧ timestamp_ms msr = int_or ts now ∧ nonce msr = str_or nc fresh
    ∧ msr_version msr = "0.1".
Proof.
  unfold make_msr.
  destruct (canonicalize_bytes _) as [bytes|] eqn:Hbytes; [|done]. rewrite bind_Ok.
  destruct (sign _ sk) as [sg|] eqn:Hsg; [|done]. rewrite bind_Ok.
  intros [= <-]. exists (hash_bytes bytes). unfold get_msr_hash.
  rewrite msr_data_eq, bind_Ok.
  cbn [msr_version payer_agent_id payee_agent_id resource_type units unit_type
       price_usd_micros timestamp_ms nonce scope_hash request_hash response_hash
       prev_receipt_hash signature_ed25519].
  by rewrite Hbytes, bind_Ok.
Qed.

Lemma verify_msr_valid msr public_key :
  valid_fields msr →
  verify_msr hash_bytes verify msr public_key =
    msr_hash ← get_msr_hash hash_bytes msr;
    if negb (verify msr_hash (signature_ed25519 msr) public_key)
    then Ok (false, msr_hash, Some "Invalid signature")
    else Ok (true, msr_hash, None).
Proof.
  intros (Hv & Hne & Hu & Hp & Ht). unfold verify_msr. rewrite Hv.
  change ("0.1" =? "0.1")%string with true. cbn [negb].
  destruct (String.eqb_spec (payer_agent_id msr) (payee_agent_id msr)); [done|].
  destruct (Z.leb_spec (units msr) 0); [lia|].
  destruct (Z.ltb_spec (price_usd_micros msr) 0); [lia|].
  by destruct (Z.leb_spec (timestamp_ms msr) 0); [lia|].
Qed.

Lemma verify_msr_invalid msr public_key :
  ¬ valid_fields msr →
  ∃ msg, verify_msr hash_bytes verify msr public_key = Ok (false, "", Some msg).
Proof.
  intros Hnv. unfold verify_msr.
  destruct (String.eqb_spec (msr_version msr) "0.1"); [|by eexists]. cbn [negb].
  destruct (String.eqb_spec (payer_agent_id msr) (payee_agent_id msr)); [by eexists|].
  destruct (Z.leb_spec (units msr) 0); [by eexists|].
  destruct (Z.ltb_spec (price_usd_micros msr) 0); [by eexists|].
  destruct (Z.leb_spec (timestamp_ms msr) 0); [by eexists|].
  destruct Hnv. by repeat split.
Qed.

Lemma get_msr_hash_out_of_range m :
  ¬ msr_in_range m →
  get_msr_hash hash_bytes m = Raise (ValueError "Number outside safe integer range").
Proof.
  intros Hm. destruct (get_msr_hash hash_bytes m) as [h|e] eqn:Hh.
  - by apply get_msr_hash_Ok_in_range in Hh.
  - by rewrite (get_msr_hash_Raise _ _ _ Hh).
Qed.
End Receipts.





Lemma opt_str_inj o1 o2 : opt_str o1 = opt_str o2 → o1 = o2.
Proof. destruct o1, o2; simpl; congruence. Qed.

Lemma normalize_opt_str o : normalize (opt_str o) = opt_str o.
Proof. by destruct o. Qed.

Lemma same_msr_bytes m1 m2 data1 data2 s :
  dict_del "signature_ed25519" (to_dict m1) = Ok data1 →
  dict_del "signature_ed25519" (to_dict m2) = Ok data2 →
  canonicalize (VDict data1) = Ok s → canonicalize (VDict data2) = Ok s →
  m2 = with_signature m1 (signature_ed25519 m2).
Proof.
  rewrite !msr_data_eq. intros [= <-] [= <-] Hs1 Hs2.
  apply (canonicalize_same_output _ _ _ Hs1) in Hs2. clear Hs1.
  rewrite !normalize_dict in Hs2.
  injection Hs2 as Hver Hnonce Hpayee Hpayer Hprev Hprice Hreq Hres Hresp Hscope Hts
    Hut Hunits.
  rewrite !normalize_opt_str in Hprev. apply opt_str_inj in Hprev.
  destruct m1, m2. unfold with_signature. simpl in *. by subst.
Qed.



End ReceiptFacts.

(** ** Netting: what it conserves, and the signed record *)

Module SettlementFacts.
Import Canonical Msr Netting PyFacts CanonicalFacts NettingFacts ListFacts.

(** *** Net positions *)

Section Positions.
Variable rs : list MSR.
Variable obs : list NetObligation.
Hypothesis Hobs : ∀ a b x,
  {| from_agent := a; to_agent := b; amount_usd_micros := x |} ∈ obs ↔
  gross_flow rs b a < gross_flow rs a b ∧ x = gross_flow rs a b - gross_flow rs b a.
Hypothesis Hnd : NoDup obs.

#[local] Abbreviation agents := (Netting.agents rs).
#[local] Abbreviation net_flow := (Netting.net_flow rs).

Lemma NoDup_agents : NoDup agents.
Proof. unfold Netting.agents. apply NoDup_elements. Qed.

Lemma elem_of_agents x :
  x ∈ agents ↔ ∃ m, m ∈ rs ∧ (x = payer_agent_id m ∨ x = payee_agent_id m).
Proof.
  unfold Netting.agents.
  rewrite elem_of_elements, elem_of_list_to_set, elem_of_app.
  rewrite !list_elem_of_fmap. naive_solver.
Qed.

Lemma gross_flow_agents a b : gross_flow rs a b ≠ 0 → a ∈ agents ∧ b ∈ agents.
Proof.
  intros (m & Hm & <- & <-)%gross_flow_nonzero. rewrite !elem_of_agents. naive_solver.
Qed.

Lemma obligation_agents o : o ∈ obs → from_agent o ∈ agents ∧ to_agent o ∈ agents.
Proof.
  destruct o as [a b x]. intros [Hlt _]%Hobs. simpl.
  destruct (decide (gross_flow rs a b = 0)).
  - apply and_comm, gross_flow_agents. lia.
  - by apply gross_flow_agents.
Qed.

Lemma paid_by_agent a :
  sum (price_usd_micros <$> filter (λ r, payer_agent_id r = a) rs)
  = sum ((λ b, gross_flow rs a b) <$> agents).
Proof.
  rewrite (sum_group payee_agent_id _ agents _ NoDup_agents).
  - apply sum_fmap_ext. intros b _. unfold gross_flow. rewrite list_filter_filter.
    f_equal. f_equal. apply list_filter_iff. intros r. tauto.
  - intros r [_ Hr]%list_elem_of_filter. apply elem_of_agents. eauto.
Qed.

Lemma paid_to_agent a :
  sum (price_usd_micros <$> filter (λ r, payee_agent_id r = a) rs)
  = sum ((λ b, gross_flow rs b a) <$> agents).
Proof.
  rewrite (sum_group payer_agent_id _ agents _ NoDup_agents).
  - apply sum_fmap_ext. intros b _. unfold gross_flow. by rewrite list_filter_filter.
  - intros r [_ Hr]%list_elem_of_filter. apply elem_of_agents. eauto.
Qed.

Lemma obligations_between a b :
  sum (amount_usd_micros <$> filter (λ o, from_agent o = a ∧ to_agent o = b) obs)
  = net_flow a b.
Proof.
  unfold Netting.net_flow.
  destruct (decide (gross_flow rs b a < gross_flow rs a b)) as [Hlt|Hge].
  - assert (filter (λ o, from_agent o = a ∧ to_agent o = b) obs =
      [ {| from_agent := a; to_agent := b;
           amount_usd_micros := gross_flow rs a b - gross_flow rs b a |} ]) as ->.
    { apply NoDup_singleton_all.
      - by apply NoDup_filter.
      - apply list_elem_of_filter. split; [done|]. by apply Hobs.
      - intros [a' b' x] [[Ha Hb] Ho]%list_elem_of_filter. simpl in Ha, Hb. subst.
        apply Hobs in Ho as [_ ->]. done. }
    simpl. rewrite sum_cons, sum_nil. lia.
  - destruct (filter _ obs) as [|[a' b' x] l] eqn:Hf; [done|].
    assert ({| from_agent := a'; to_agent := b'; amount_usd_micros := x |}
              ∈ filter (λ o, from_agent o = a ∧ to_agent o = b) obs) as Hin
      by (rewrite Hf; left).
    apply list_elem_of_filter in Hin as [[Ha Hb] Ho]. simpl in Ha, Hb. subst.
    apply Hobs in Ho as [Hlt _]. done.
Qed.

Lemma owed_by_agent a :
  sum (amount_usd_micros <$> filter (λ o, from_agent o = a) obs)
  = sum ((λ b, net_flow a b) <$> agents).
Proof.
  rewrite (sum_group to_agent _ agents _ NoDup_agents).
  - apply sum_fmap_ext. intros b _. rewrite <-obligations_between, list_filter_filter.
    f_equal. f_equal. apply list_filter_iff. intros o. tauto.
  - intros o [_ Ho]%list_elem_of_filter. by apply obligation_agents.
Qed.

Lemma owed_to_agent a :
  sum (amount_usd_micros <$> filter (λ o, to_agent o = a) obs)
  = sum ((λ b, net_flow b a) <$> agents).
Proof.
  rewrite (sum_group from_agent _ agents _ NoDup_agents).
  - apply sum_fmap_ext. intros b _. by rewrite <-obligations_between, list_filter_filter.
  - intros o [_ Ho]%list_elem_of_filter. by apply obligation_agents.
Qed.

Lemma positions_agree a : obligations_position obs a = receipts_position rs a.
Proof.
  unfold obligations_position, receipts_position.
  rewrite owed_by_agent, owed_to_agent, paid_by_agent, paid_to_agent.
  rewrite <-!sum_fmap_sub. apply sum_fmap_ext. intros b _. unfold Netting.net_flow.
  repeat case_decide; lia.
Qed.

Lemma gross_flow_nonneg a b :
  Forall (λ r, 0 ≤ price_usd_micros r) rs → 0 ≤ gross_flow rs a b.
Proof.
  intros Hrs. unfold gross_flow. apply sum_nonneg, Forall_fmap.
  rewrite Forall_forall in Hrs. apply Forall_forall.
  intros r [_ Hr]%list_elem_of_filter. by apply Hrs.
Qed.

Lemma obligations_volume :
  Forall (λ r, 0 ≤ price_usd_micros r) rs →
  sum (amount_usd_micros <$> obs) ≤ sum (price_usd_micros <$> rs).
Proof.
  intros Hrs.
  rewrite (sum_group from_agent _ agents obs NoDup_agents)
    by (intros o Ho; by apply obligation_agents).
  rewrite (sum_group payer_agent_id _ agents rs NoDup_agents)
    by (intros r Hr; apply elem_of_agents; eauto).
  apply sum_fmap_le. intros a _. rewrite owed_by_agent, paid_by_agent.
  apply sum_fmap_le. intros b _. unfold Netting.net_flow.
  pose proof (gross_flow_nonneg a b Hrs). pose proof (gross_flow_nonneg b a Hrs).
  case_decide; lia.
Qed.
End Positions.

Lemma net_receipts_obligations hash_bytes rs r :
  net_receipts hash_bytes rs = Ok r →
  (∀ a b x, {| from_agent := a; to_agent := b; amount_usd_micros := x |} ∈ obligations r ↔
     gross_flow rs b a < gross_flow rs a b ∧ x = gross_flow rs a b - gross_flow rs b a)
  ∧ NoDup (obligations r)
  ∧ total_volume r = sum (price_usd_micros <$> rs).
Proof.
  intros (hs & _ & Hr)%net_receipts_Ok.
  pose proof (net_sorted_Ok_pipe_free _ _ _ Hr) as Hfree.
  destruct (net_sorted_spec rs (sorted String.leb hs) Hfree)
    as (r' & Hr' & Hobs & Hnd & _ & _ & _ & _ & Htotal).
  by assert (r' = r) as -> by congruence.
Qed.





(** *** The signed record *)

Lemma ian_data_eq ian :
  dict_del "signature_ed25519" (ian_to_dict ian) =
    Ok [ ("ian_version", VStr (ian_version ian));
         ("epoch_id", VStr (epoch_id ian));
         ("participants", VList (VStr <$> ian_participants ian));
         ("included_receipt_hashes", VList (VStr <$> included_receipt_hashes ian));
         ("net_obligations", VList (obligation_to_dict <$> net_obligations ian));
         ("netting_hash", VStr (netting_hash ian)) ].
Proof. reflexivity. Qed.

Lemma verify_obligations_well_formed ps obs :
  verify_obligations ps obs = None → Forall (well_formed_obligation ps) obs.
Proof.
  induction obs as [|o obs IH]; [done|]. simpl.
  destruct (bool_decide (from_agent o ∈ ps)) eqn:Hfrom; [|done].
  destruct (bool_decide (to_agent o ∈ ps)) eqn:Hto; [|done]. simpl.
  destruct (String.eqb_spec (from_agent o) (to_agent o)); [done|].
  destruct (Z.leb_spec (amount_usd_micros o) 0); [done|].
  intros Hrest. constructor; [|by apply IH].
  apply bool_decide_eq_true in Hfrom, Hto. done.
Qed.

Lemma make_ian_accepted hash_bytes sign verify epoch receipts kernel_private_key
    kernel_public_key ian :
  (∀ h sg, sign h kernel_private_key = Ok sg → verify h sg kernel_public_key = true) →
  make_ian hash_bytes sign epoch receipts kernel_private_key = Ok ian →
  verify_ian hash_bytes verify ian kernel_public_key = Ok (true, None).
Proof.
  intros Hkeys. unfold make_ian.
  destruct (net_receipts hash_bytes receipts) as [r|] eqn:Hr; [|done]. rewrite bind_Ok.
  destruct (compute_netting_hash _ _ _ _) as [h|] eqn:Hh; [|done]. rewrite bind_Ok.
  destruct (canonicalize_bytes _) as [bytes|] eqn:Hbytes; [|done]. rewrite bind_Ok.
  destruct (sign _ _) as [sg|] eqn:Hsg; [|done]. rewrite bind_Ok. intros [= <-].
  unfold verify_ian.
  cbn [ian_version epoch_id ian_participants included_receipt_hashes net_obligations
       netting_hash ian_signature_ed25519].
  change (negb ("0.1" =? "0.1")%string) with false. cbv iota.
  rewrite (verify_obligations_None (participants r) (obligations r))
    by (by eapply net_receipts_well_formed).
  rewrite Hh, bind_Ok, String.eqb_refl. cbn [negb]. rewrite ian_data_eq, bind_Ok.
  cbn [ian_version epoch_id ian_participants included_receipt_hashes net_obligations
       netting_hash ian_signature_ed25519].
  rewrite Hbytes, bind_Ok. by rewrite (Hkeys _ _ Hsg).
Qed.







End SettlementFacts.

(** ** Liquidation: what is handed out, and the signed record *)

Module LiquidationFacts.
Import Canonical PyFloat Dbp PyFacts FloatFacts CanonicalFacts DbpFacts ListFacts.

(** *** What the [PRIORITY] walk hands out *)

Lemma walk_total cs remaining :
  nonneg_amounts cs → 0 ≤ remaining →
  sum (snd <$> spec_priority_walk remaining cs)
  = Z.min remaining (sum (amount_micros <$> cs)).
Proof.
  intros Hcs. revert remaining.
  induction Hcs as [|c cs Hc Hcs IH]; intros remaining Hrem.
  - simpl. rewrite sum_nil. lia.
  - cbn [spec_priority_walk]. rewrite !fmap_cons, !sum_cons. cbn [snd].
    rewrite IH by lia.
    assert (0 ≤ sum (amount_micros <$> cs)) by (apply sum_nonneg; by apply Forall_fmap).
    lia.
Qed.

Lemma sum_paid ds : sum (receives_micros <$> ds) = sum (snd <$> paid ds).
Proof. unfold paid. by rewrite <-list_fmap_compose. Qed.

Lemma sum_walk_paid w : sum (snd <$> walk_paid w) = sum (snd <$> w).
Proof. unfold walk_paid. by rewrite <-list_fmap_compose. Qed.

Lemma priority_total creditors total_assets ds :
  nonneg_amounts creditors → 0 ≤ total_assets →
  compute_distributions creditors total_assets "PRIORITY" = Ok ds →
  sum (receives_micros <$> ds) = Z.min total_assets (sum (amount_micros <$> creditors)).
Proof.
  intros Hcs HT Hds.
  destruct (compute_distributions_priority creditors total_assets Hcs HT)
    as (ds' & Hds' & Hp & _).
  assert (ds' = ds) as -> by congruence.
  rewrite sum_paid, (sum_Permutation _ _ (fmap_Permutation snd _ _ Hp)), sum_walk_paid.
  rewrite walk_total; [|by unfold nonneg_amounts; rewrite sorted_by_Permutation|done].
  f_equal. apply sum_Permutation, fmap_Permutation, sorted_by_Permutation.
Qed.



(** *** One distribution for every creditor *)

Lemma pro_rata_ids cs total_owed total_assets ds :
  pro_rata cs total_owed total_assets = Ok ds → creditor_id <$> ds = agent_id <$> cs.
Proof.
  unfold pro_rata. intros Hds%for_each_Ok.
  induction Hds as [|c d cs ds Hcd _ IH]; [done|]. rewrite !fmap_cons, IH. f_equal.
  destruct (int_ratio_times _ _ _) as [r|]; [|done]. rewrite bind_Ok in Hcd.
  destruct (recovery _ _) as [b|]; [|done]. rewrite bind_Ok in Hcd. by injection Hcd as <-.
Qed.

Lemma priority_loop_ids remaining cs ds :
  priority_loop remaining cs = Ok ds → creditor_id <$> ds = agent_id <$> cs.
Proof.
  revert remaining ds. induction cs as [|c cs IH]; intros remaining ds.
  - by intros [= <-].
  - cbn [priority_loop].
    destruct (recovery _ _) as [b|]; [|done]. rewrite bind_Ok.
    destruct (priority_loop _ cs) as [ds'|] eqn:Hds'; [|done]. rewrite bind_Ok.
    intros [= <-]. rewrite !fmap_cons. cbn [creditor_id]. f_equal. by eapply IH.
Qed.



(** *** The signed record *)

Lemma dbp_content_eq dbp :
  get_dbp_content dbp =
    Ok [ ("dbp_version", VStr (dbp_version dbp));
         ("defaulting_agent_id", VStr (defaulting_agent_id dbp));
         ("declaration_type", VStr (declaration_type dbp));
         ("trigger", VDict [ ("type", VStr (trigger_type (trigger dbp)));
                             ("reference_id", VStr (reference_id (trigger dbp)));
                             ("trigger_timestamp_ms",
                               VInt (trigger_timestamp_ms (trigger dbp))) ]);
         ("obligations_snapshot",
           VDict [ ("total_owed_micros", VInt (total_owed_micros (obligations_snapshot dbp)));
                   ("creditors", VList (creditor_to_dict <$>
                      sorted_by String.leb agent_id (creditors (obligations_snapshot dbp)))) ]);
         ("assets_snapshot",
           VDict [ ("total_value_micros", VInt (total_value_micros (assets_snapshot dbp)));
                   ("assets", VList (asset_to_dict <$>
                      sorted_by String.leb asset_type (assets (assets_snapshot dbp)))) ]);
         ("recovery_rate_bps", VInt (recovery_rate_bps dbp));
         ("liquidation_plan",
           VDict [ ("method", VStr (method (liquidation_plan dbp)));
                   ("distributions", VList (distribution_to_dict <$>
                      sorted_by String.leb creditor_id
                        (distributions (liquidation_plan dbp)))) ]);
         ("timestamp_ms", VInt (timestamp_ms dbp));
         ("arbiter_agent_id", VStr (arbiter_agent_id dbp)) ].
Proof. reflexivity. Qed.

Section Made.
Variable hash_bytes : string → string.
Variable sign : string → string → result string.
Variable verify : string → string → string → bool.

(** What [make_dbp] hands back: the hash of the canonical content, as
    [get_dbp_content] reads it off the record, signed by the arbiter. *)
Lemma make_dbp_signed now agent decl ttype tref cs assets meth arbiter key dbp :
  make_dbp hash_bytes sign now agent decl ttype tref cs assets meth arbiter key = Ok dbp →
  ∃ content bytes ds rate,
    get_dbp_content dbp = Ok content
    ∧ canonicalize_bytes (VDict content) = Ok bytes
    ∧ sign (hash_bytes bytes) key = Ok (signature_ed25519 dbp)
    ∧ default_id dbp = hash_bytes bytes ∧ dbp_hash dbp = hash_bytes bytes
    ∧ arbiter_agent_id dbp = arbiter
    ∧ compute_distributions cs (sum (value_micros <$> assets)) meth = Ok ds
    ∧ recovery_rate (sum (receives_micros <$> ds)) (sum (amount_micros <$> cs)) = Ok rate
    ∧ distributions (liquidation_plan dbp) = sorted_by String.leb creditor_id ds
    ∧ recovery_rate_bps dbp = rate
    ∧ total_owed_micros (obligations_snapshot dbp) = sum (amount_micros <$> cs)
    ∧ total_value_micros (assets_snapshot dbp) = sum (value_micros <$> assets).
Proof.
  unfold make_dbp.
  destruct (compute_distributions _ _ _) as [ds|] eqn:Hds; [|done]. rewrite bind_Ok.
  destruct (recovery_rate _ _) as [rate|] eqn:Hrate; [|done]. rewrite bind_Ok.
  destruct (canonicalize_bytes _) as [bytes|] eqn:Hbytes; [|done]. rewrite bind_Ok.
  destruct (sign _ _) as [sg|] eqn:Hsg; [|done]. rewrite bind_Ok. intros [= <-].
  eexists _, bytes, ds, rate. rewrite dbp_content_eq.
  cbn [dbp_version default_id defaulting_agent_id declaration_type trigger
       obligations_snapshot assets_snapshot recovery_rate_bps liquidation_plan
       timestamp_ms arbiter_agent_id dbp_hash signature_ed25519 trigger_type reference_id
       trigger_timestamp_ms total_owed_micros creditors total_value_micros Dbp.assets
       method distributions].
  rewrite !sorted_by_idemp. split; [reflexivity|]. by rewrite Hbytes.
Qed.

End Made.

Section Resolved.
Variable hash_bytes : string → string.
Variable sign : string → string → result string.
Variable verify : string → string → string → bool.

Lemma resolve_made now agent decl ttype tref cs assets meth arbiter key public_key dbp :
  (∀ h sg, sign h key = Ok sg → verify h sg public_key = true) →
  make_dbp hash_bytes sign now agent decl ttype tref cs assets meth arbiter key = Ok dbp →
  ∃ ds, compute_distributions cs (sum (value_micros <$> assets)) meth = Ok ds
    ∧ distributions (liquidation_plan dbp) = sorted_by String.leb creditor_id ds
    ∧ resolve_default hash_bytes verify dbp public_key =
        Ok (if sum (value_micros <$> assets) <? sum (receives_micros <$> ds)
            then invalid "Distributions exceed available assets"
            else {| valid := true;
                    res_distributions := distributions (liquidation_plan dbp);
                    res_recovery_rate_bps := recovery_rate_bps dbp;
                    error := None |}).
Proof.
  intros Hkeys Hdbp.
  destruct (make_dbp_signed _ _ _ _ _ _ _ _ _ _ _ _ _ Hdbp)
    as (content & bytes & ds & rate & Hc & Hb & Hsg & _ & _ & _ & Hds & Hrate
        & Hplan & Hbps & Howed & Hassets).
  exists ds. split; [done|]. split; [done|].
  unfold resolve_default. rewrite Hc, bind_Ok, Hb, bind_Ok, (Hkeys _ _ Hsg).
  cbn [negb]. rewrite Hplan, Howed, Hassets, Hbps.
  rewrite (sum_Permutation (receives_micros <$> sorted_by String.leb creditor_id ds)
             (receives_micros <$> ds))
    by apply fmap_Permutation, sorted_by_Permutation.
  destruct (_ <? _); [done|]. rewrite Hrate, bind_Ok, Z.eqb_refl. done.
Qed.
End Resolved.





End LiquidationFacts.

(** ** Balance sheets: the signed record, the ratio and the runway *)

Module BalanceFacts.
Import Canonical PyFloat Mbs PyFacts FloatFacts CanonicalFacts MbsFacts ListFacts.

Lemma mbs_data_eq mbs :
  dict_del "signature_ed25519" (to_dict mbs) =
    Ok [ ("mbs_version", VStr (mbs_version mbs));
         ("agent_id", VStr (agent_id mbs));
         ("assets", VList (asset_to_dict <$> assets mbs));
         ("liabilities", VList (liability_to_dict <$> liabilities mbs));
         ("burn_rate_usd_micros_per_s", VInt (burn_rate_usd_micros_per_s mbs));
         ("solvency_ratio", VInt (solvency_ratio mbs));
         ("timestamp_ms", VInt (timestamp_ms mbs)) ].
Proof. reflexivity. Qed.

Lemma existsb_negative {A} (f : A → Z) l :
  existsb (λ x, f x <? 0) l = false ↔ Forall (λ x, 0 ≤ f x) l.
Proof.
  induction l as [|x l IH]; simpl; [by split; [constructor|]|].
  rewrite orb_false_iff, Forall_cons, IH, Z.ltb_ge. done.
Qed.

Lemma existsb_negative_true {A} (f : A → Z) l :
  ¬ Forall (λ x, 0 ≤ f x) l → existsb (λ x, f x <? 0) l = true.
Proof.
  intros H. destruct (existsb _ l) eqn:E; [done|]. by apply existsb_negative in E.
Qed.





(** *** The runway *)

Lemma truediv_returns a b :
  b ≠ 0 → Z.abs a < 2 ^ 1000 * Z.abs b → ∃ q, truediv a b = Ok q ∧ below 1001 q.
Proof.
  intros Hb Hab. unfold truediv. destruct a as [|a|a], b as [|b|b]; try done;
    try (eexists; split; [done|done]).
  all: match goal with
       | |- context [SFdiv prec emax (S754_finite ?sa ?ma 0) (S754_finite ?sb ?mb 0)] =>
           pose proof (SFdiv_ints_below ma mb sa sb) as Hbelow
       end.
  all: simpl Z.abs in *; simpl Z.to_pos in *; specialize (Hbelow Hab).
  all: destruct (SFdiv _ _ _ _) eqn:E; try done; simpl; eexists; split; done.
Qed.

(** The sign of a quotient of two finite floats. *)
Lemma SFdiv_sign sa ma ea sb mb eb :
  match SFdiv prec emax (S754_finite sa ma ea) (S754_finite sb mb eb) with
  | S754_zero s | S754_infinity s | S754_finite s _ _ => s = xorb sa sb
  | S754_nan => True
  end.
Proof.
  unfold SFdiv. destruct (SFdiv_core_binary _ _ _ _ _ _) as [[mz ez] lz].
  unfold binary_round_aux.
  destruct (shr_fexp _ _ _ _ _) as [mrs e]. destruct (shr_fexp _ _ _ _ _) as [mrs' e'].
  destruct (shr_m mrs'); [done| |done]. by destruct (_ <=? _).
Qed.

Lemma max_zero_not_less x : SFltb (max_zero x) (S754_zero false) = false.
Proof.
  unfold max_zero. destruct x as [s|[]| |[] m e]; reflexivity.
Qed.

Lemma max_zero_opposite x :
  match x with
  | S754_zero _ => True
  | S754_infinity s' | S754_finite s' _ _ => s' = true
  | S754_nan => True
  end → max_zero x = S754_zero false.
Proof. destruct x as [?|?| |? ? ?]; try done; by intros ->. Qed.



Lemma truediv_opposite a b q :
  a * b ≤ 0 → truediv a b = Ok q → max_zero q = S754_zero false.
Proof.
  intros Hab. unfold truediv.
  destruct a as [|a|a], b as [|b|b]; try done; try lia; try (by intros [= <-]).
  all: match goal with
       | |- context [SFdiv prec emax (S754_finite ?sa ?ma 0) (S754_finite ?sb ?mb 0)] =>
           pose proof (SFdiv_sign sa ma 0 sb mb 0) as Hsign
       end.
  all: simpl Z.abs in *; simpl Z.to_pos in *.
  all: destruct (SFdiv _ _ _ _) eqn:E; try done; simpl; intros [= <-];
    apply max_zero_opposite; done.
Qed.



End BalanceFacts.

(** ** Metering records: the totals by class, and the signed record *)

Module MeteringFacts.
Import Canonical Amr Meter PyFacts CanonicalFacts AmrFacts ListFacts.

(** *** The totals by class *)

Lemma aggregate_step_lookup st a c :
  st_by_resource_class (aggregate_step st a) !! c =
    if decide (resource_class a = c)
    then Some (class_add (default {| class_quantity := 0; class_micros := 0 |}
                            (st_by_resource_class st !! c)) a)
    else st_by_resource_class st !! c.
Proof.
  unfold aggregate_step. cbn [st_by_resource_class].
  destruct (decide (resource_class a = c)) as [<-|Hne].
  - rewrite !lookup_alter_eq.
    destruct (st_by_resource_class st !! resource_class a) as [t|] eqn:Ht.
    + rewrite Ht. done.
    + rewrite lookup_insert_eq. done.
  - rewrite !lookup_alter_ne by done.
    destruct (st_by_resource_class st !! resource_class a); [done|].
    by rewrite lookup_insert_ne.
Qed.

Lemma foldl_class_add t l :
  foldl class_add t l =
    {| class_quantity := class_quantity t + class_quantity (class_totals l);
       class_micros := class_micros t + class_micros (class_totals l) |}.
Proof.
  revert t. induction l as [|a l IH]; intros [q m].
  - unfold class_totals. simpl. rewrite !sum_nil. f_equal; lia.
  - cbn [foldl]. rewrite IH. unfold class_totals, class_add.
    cbn [class_quantity class_micros]. rewrite !fmap_cons, !sum_cons. f_equal; lia.
Qed.

Lemma foldl_aggregate_lookup st amrs c :
  st_by_resource_class (foldl aggregate_step st amrs) !! c =
    if decide (of_class c amrs = []) then st_by_resource_class st !! c
    else Some (foldl class_add
                 (default {| class_quantity := 0; class_micros := 0 |}
                    (st_by_resource_class st !! c))
                 (of_class c amrs)).
Proof.
  revert st. induction amrs as [|a amrs IH]; intros st; [done|].
  cbn [foldl]. rewrite IH, aggregate_step_lookup. unfold of_class. rewrite filter_cons.
  destruct (decide (resource_class a = c)) as [Hc|Hc].
  - rewrite (decide_False (P := _ :: _ = [])) by done. cbn [foldl default].
    by destruct (decide (filter _ amrs = [])) as [->|].
  - done.
Qed.

Lemma aggregate_lookup amrs c :
  st_by_resource_class (foldl aggregate_step initial amrs) !! c =
    if decide (of_class c amrs = []) then None
    else Some (class_totals (of_class c amrs)).
Proof.
  rewrite foldl_aggregate_lookup. unfold initial. cbn [st_by_resource_class].
  rewrite lookup_empty. destruct (decide _); [done|]. cbn [default].
  rewrite foldl_class_add. destruct (class_totals _) as [q m]. done.
Qed.

Lemma aggregate_amrs_by_class amrs :
  by_resource_class <$> aggregate_amrs amrs
  = Ok (st_by_resource_class (foldl aggregate_step initial amrs)).
Proof.
  destruct amrs as [|a amrs]; [done|]. rewrite aggregate_amrs_cons.
  rewrite floordiv_Ok; [done|]. simpl. lia.
Qed.

Lemma aggregate_amrs_fields amrs r :
  aggregate_amrs amrs = Ok r →
  by_resource_class r = st_by_resource_class (foldl aggregate_step initial amrs)
  ∧ agg_total_quantity r = sum ((λ a, quantity (metering a)) <$> amrs)
  ∧ agg_total_micros r = sum ((λ a, total_micros (pricing a)) <$> amrs).
Proof.
  intros Hr. pose proof (aggregate_amrs_by_class amrs) as Hby. rewrite Hr in Hby.
  injection Hby as Hby. split; [done|].
  destruct amrs as [|a amrs]; [by injection Hr as <-|].
  destruct (aggregate_amrs_nonempty (a :: amrs)) as (r' & Hr' & Hq & Hm & _); [done|].
  by assert (r' = r) as -> by congruence.
Qed.



Lemma class_listed amrs a :
  a ∈ amrs →
  resource_class a ∈ (map_to_list (st_by_resource_class (foldl aggregate_step initial amrs))).*1.
Proof.
  intros Ha. apply list_elem_of_fmap.
  exists (resource_class a, class_totals (of_class (resource_class a) amrs)).
  split; [done|]. apply elem_of_map_to_list. rewrite aggregate_lookup.
  rewrite decide_False; [done|]. intros Hnil.
  assert (a ∈ of_class (resource_class a) amrs) as Hin
    by (by apply list_elem_of_filter).
  rewrite Hnil in Hin. by inversion Hin.
Qed.

Lemma sum_by_class (w : AMR → Z) (f : ClassTotals → Z) amrs :
  (∀ l, f (class_totals l) = sum (w <$> l)) →
  sum ((λ ct, f ct.2) <$> map_to_list (st_by_resource_class
                                         (foldl aggregate_step initial amrs)))
  = sum (w <$> amrs).
Proof.
  intros Hf. set (m := st_by_resource_class (foldl aggregate_step initial amrs)).
  rewrite (sum_group resource_class w ((map_to_list m).*1) amrs).
  - rewrite <-list_fmap_compose. apply sum_fmap_ext. intros [c t] Hct. simpl.
    apply elem_of_map_to_list in Hct. unfold m in Hct. rewrite aggregate_lookup in Hct.
    destruct (decide _); [done|]. injection Hct as <-. apply Hf.
  - apply NoDup_fst_map_to_list.
  - intros a Ha. by apply class_listed.
Qed.



Lemma foldl_aggregate_Permutation l1 l2 :
  l1 ≡ₚ l2 → foldl aggregate_step initial l1 = foldl aggregate_step initial l2.
Proof.
  intros Hp.
  destruct (foldl_aggregate_initial l1) as (Hq1 & Hm1 & Hc1).
  destruct (foldl_aggregate_initial l2) as (Hq2 & Hm2 & Hc2).
  pose proof (aggregate_lookup l1) as Hby1. pose proof (aggregate_lookup l2) as Hby2.
  destruct (foldl aggregate_step initial l1) as [q1 m1 c1 by1].
  destruct (foldl aggregate_step initial l2) as [q2 m2 c2 by2].
  cbn [st_total_quantity st_total_micros st_total_confidence st_by_resource_class] in *.
  f_equal.
  - rewrite Hq1, Hq2. by apply sum_Permutation, fmap_Permutation.
  - rewrite Hm1, Hm2. by apply sum_Permutation, fmap_Permutation.
  - rewrite Hc1, Hc2. by apply sum_Permutation, fmap_Permutation.
  - apply map_eq. intros c. rewrite Hby1, Hby2.
    assert (of_class c l1 ≡ₚ of_class c l2) as Hc by (by apply filter_Permutation).
    destruct (decide (of_class c l1 = [])) as [H1|H1],
             (decide (of_class c l2 = [])) as [H2|H2]; [done|..].
    + rewrite H1 in Hc. by apply Permutation_nil_l in Hc.
    + rewrite H2 in Hc. by apply Permutation_nil_r in Hc.
    + f_equal. unfold class_totals. f_equal; by apply sum_Permutation, fmap_Permutation.
Qed.



(** *** Making and checking a record *)

Lemma get_confidence_bps_range method : 5000 ≤ get_confidence_bps method ≤ 9999.
Proof.
  unfold get_confidence_bps. simpl.
  repeat (destruct (String.eqb method _); [simpl; lia|]). simpl. lia.
Qed.

Lemma in_domain_opt_entry k x : forallb (λ kv, in_domain kv.2) (opt_entry k x) = true.
Proof. destruct x as [s|]; [|done]. simpl. by destruct (String.eqb s ""). Qed.

Lemma json_shaped_opt_entry k x : forallb (λ kv, json_shaped kv.2) (opt_entry k x) = true.
Proof. destruct x as [s|]; [|done]. simpl. by destruct (String.eqb s ""). Qed.

Section Records.
Variable hash_bytes : string → string.
Variable sign : string → string → result string.
Variable verify : string → string → string → bool.

Lemma safe_confidence method : safe_integer (get_confidence_bps method) = true.
Proof.
  pose proof (get_confidence_bps_range method). unfold safe_integer.
  apply andb_true_iff. split; [apply Z.leb_le|apply Z.leb_le]; lia.
Qed.

Lemma make_amr_unfold now c p rc rs q u st e m rate rq rp key tq tt mid msig oid osig sid pid :
  make_amr hash_bytes sign now c p rc rs q u st e m rate rq rp key tq tt mid msig oid osig
    sid pid =
    bytes ← canonicalize_bytes (amr_content now c p rc rs q u st e m rate rq rp tq mid oid
                                  sid pid);
    signature ← sign (hash_bytes bytes) key;
    Ok {| amr_version := "0.1"; record_id := hash_bytes bytes;
          consumer_agent_id := c; provider_agent_id := p;
          resource_class := rc; resource_subtype := rs;
          metering := {| quantity := q; unit := u; start_ms := st; end_ms := e;
                         duration_ms := e - st; breakdown := None |};
          attestation :=
            {| att_method := m; confidence_bps := get_confidence_bps m;
               tee_quote := tq; tee_type := tt; enclave_hash := None;
               meter_id := mid; meter_pubkey := None; meter_signature := None;
               oracle_id := oid; oracle_pubkey := None; oracle_signature := None |};
          pricing := {| rate_micros_per_unit := rate; total_micros := q * rate;
                        currency := "USD" |};
          context := {| request_hash := rq; response_hash := rp; session_id := sid;
                        parent_amr_id := pid |};
          timestamp_ms := now; amr_hash := hash_bytes bytes;
          provider_signature := signature; consumer_signature := None |}.
Proof. reflexivity. Qed.

Lemma in_domain_amr_content now c p rc rs q u st e m rate rq rp tq mid oid sid pid :
  in_domain (amr_content now c p rc rs q u st e m rate rq rp tq mid oid sid pid)
  = forallb safe_integer (amr_integers now q st e rate).
Proof.
  unfold amr_content, amr_integers. cbn [in_domain forallb snd].
  rewrite !forallb_app, !in_domain_opt_entry. cbn [in_domain forallb snd].
  rewrite safe_confidence.
  repeat (destruct (safe_integer _); cbn [andb]; try reflexivity).
Qed.

Lemma json_shaped_amr_content now c p rc rs q u st e m rate rq rp tq mid oid sid pid :
  json_shaped (amr_content now c p rc rs q u st e m rate rq rp tq mid oid sid pid) = true.
Proof.
  unfold amr_content. cbn [json_shaped forallb snd].
  rewrite !forallb_app, !json_shaped_opt_entry. reflexivity.
Qed.

Lemma distinct_keys_amr_content now c p rc rs q u st e m rate rq rp tq mid oid sid pid :
  distinct_keys (amr_content now c p rc rs q u st e m rate rq rp tq mid oid sid pid) = true.
Proof.
  destruct tq as [[|? ?]|], mid as [[|? ?]|], oid as [[|? ?]|], sid as [[|? ?]|],
    pid as [[|? ?]|]; reflexivity.
Qed.

Lemma make_amr_Ok now c p rc rs q u st e m rate rq rp key tq tt mid msig oid osig sid pid amr :
  make_amr hash_bytes sign now c p rc rs q u st e m rate rq rp key tq tt mid msig oid osig
    sid pid = Ok amr →
  Forall (λ n, safe_integer n = true) (amr_integers now q st e rate)
  ∧ quantity (metering amr) = q
  ∧ duration_ms (metering amr) = e - st
  ∧ total_micros (pricing amr) = q * rate
  ∧ confidence_bps (attestation amr) = get_confidence_bps m
  ∧ resource_class amr = rc
  ∧ provider_agent_id amr = p
  ∧ record_id amr = amr_hash amr
  ∧ sign (amr_hash amr) key = Ok (provider_signature amr)
  ∧ consumer_signature amr = None.
Proof.
  rewrite make_amr_unfold. unfold canonicalize_bytes.
  destruct (canonicalize _) as [bytes|] eqn:Hbytes; [|done]. rewrite bind_Ok.
  destruct (sign _ _) as [sg|] eqn:Hsg; [|done]. rewrite bind_Ok. intros [= <-].
  split; [|done]. apply Forall_forall. intros n Hn.
  destruct (in_domain (amr_content now c p rc rs q u st e m rate rq rp tq mid oid sid pid))
    eqn:Hdom.
  - rewrite in_domain_amr_content, forallb_forall in Hdom. by apply Hdom, list_elem_of_In.
  - destruct (canonicalize_rejects _ (distinct_keys_amr_content _ _ _ _ _ _ _ _ _ _ _ _ _
                                        _ _ _ _ _) Hdom) as [err Herr]. congruence.
Qed.

Lemma make_amr_Raise now c p rc rs q u st e m rate rq rp key tq tt mid msig oid osig sid pid :
  ¬ Forall (λ n, safe_integer n = true) (amr_integers now q st e rate) →
  make_amr hash_bytes sign now c p rc rs q u st e m rate rq rp key tq tt mid msig oid osig
    sid pid = Raise (ValueError "Number outside safe integer range").
Proof.
  intros Hns. rewrite make_amr_unfold. unfold canonicalize_bytes.
  destruct (canonicalize _) as [bytes|err] eqn:Hbytes.
  - destruct Hns. apply Forall_forall. intros n Hn.
    destruct (in_domain (amr_content now c p rc rs q u st e m rate rq rp tq mid oid sid pid))
      eqn:Hdom.
    + rewrite in_domain_amr_content, forallb_forall in Hdom. by apply Hdom, list_elem_of_In.
    + destruct (canonicalize_rejects _ (distinct_keys_amr_content _ _ _ _ _ _ _ _ _ _ _ _ _
                                          _ _ _ _ _) Hdom) as [err Herr]. congruence.
  - rewrite bind_Raise.
    by rewrite (canonicalize_Raise_range _ _ (json_shaped_amr_content _ _ _ _ _ _ _ _ _ _ _
                                                _ _ _ _ _ _ _) Hbytes).
Qed.

Lemma make_amr_safe now c p rc rs q u st e m rate rq rp key tq tt mid msig oid osig sid pid :
  Forall (λ n, safe_integer n = true) (amr_integers now q st e rate) →
  ∃ bytes,
    canonicalize_bytes (amr_content now c p rc rs q u st e m rate rq rp tq mid oid sid pid)
      = Ok bytes
    ∧ (∀ sg, sign (hash_bytes bytes) key = Ok sg →
       ∃ amr, make_amr hash_bytes sign now c p rc rs q u st e m rate rq rp key tq tt mid
                msig oid osig sid pid = Ok amr
              ∧ amr_hash amr = hash_bytes bytes ∧ provider_signature amr = sg).
Proof.
  intros Hsafe.
  destruct (canonicalize_total
              (amr_content now c p rc rs q u st e m rate rq rp tq mid oid sid pid))
    as [bytes Hbytes].
  { rewrite in_domain_amr_content. apply forallb_forall. intros n Hn%list_elem_of_In.
    rewrite Forall_forall in Hsafe. by apply Hsafe. }
  exists bytes. split; [done|]. intros sg Hsg. rewrite make_amr_unfold.
  unfold canonicalize_bytes. rewrite Hbytes, bind_Ok, Hsg, bind_Ok. by eexists.
Qed.
End Records.









End MeteringFacts.

(** ** Future commitments: the signed record *)

Module CommitmentFacts.
Import Canonical Fc PyFacts CanonicalFacts ListFacts.

Lemma fc_data_eq fc :
  dict_del "signature_ed25519" (to_dict fc) =
    Ok [ ("fc_version", VStr (fc_version fc));
         ("issuer_agent_id", VStr (issuer_agent_id fc));
         ("counterparty_agent_id", VStr (counterparty_agent_id fc));
         ("resource_type", VStr (resource_type fc));
         ("units", VInt (units fc));
         ("unit_type", VStr (unit_type fc));
         ("delivery_window", window_to_dict (delivery_window fc));
         ("penalty", penalty_to_dict (penalty fc));
         ("collateral", opt_int (collateral fc));
         ("commitment_hash", VStr (commitment_hash fc)) ].
Proof. reflexivity. Qed.



End CommitmentFacts.
